(** * The Datadog MCP server and the orchestration core around it

  A shallow embedding of [datadog-mcp/src]: the domain filter
  ([shared/domains.ts]), the logger ([logger.ts]), the five tool handlers
  ([tools/metrics.ts], [tools/logs.ts], [tools/monitors.ts],
  [tools/traces.ts]), their registration ([tools.ts]), the configuration
  ([auth.ts]) and the entry point [main].

  JavaScript effects are made explicit.  A computation runs in a [World]
  holding the two process streams, the logger's level, the tools registered
  on the MCP server and the calls made on the Datadog client; it either
  returns a value or throws.  The Datadog client, the MCP server object
  and [yargs] are collaborators of the code: the client is a table of
  functions from a request to an outcome, the server records the [tool]
  calls made on it and refuses a name it holds, and [yargs] yields the
  options or shows its help. *)

From Stdlib Require Import ZArith NArith Ascii String List Lia.
From Stdlib Require Import DecimalString DecimalPos DecimalN DecimalZ.
From stdpp Require Import base option list strings gmap.

Set Warnings "-register-all".

Local Open Scope string_scope.
Local Open Scope list_scope.

(** ** Numbers

    A Number is given by what [Number::toString] is defined on: not-a-number,
    an infinity, a zero with its sign, or a finite value with its sign, its
    significant decimal digits [digits] (the first and the last of them not
    zero) and the position [n] of the decimal point, the value being
    [0.digits * 10^n].  For a double these are the fewest digits that read
    back as it, so two Numbers are equal when they print alike.  Decimals
    with more digits than a double has are Numbers of the model as well, and
    what is proved holds of them too.  The handlers pass numbers on, count
    elements and test for zero; they do no arithmetic. *)

Module Number.

Definition is_digit (c : ascii) : bool :=
  let n := nat_of_ascii c in Nat.leb 48 n && Nat.leb n 57.

Fixpoint all_digits (s : string) : bool :=
  match s with
  | EmptyString => true
  | String c rest => is_digit c && all_digits rest
  end.

Fixpoint zeros (n : nat) : string :=
  match n with
  | O => ""
  | S n' => String "0" (zeros n')
  end.

Fixpoint strip_leading_zeros (s : string) : string :=
  match s with
  | EmptyString => ""
  | String c rest => if Ascii.eqb c "0" then strip_leading_zeros rest else s
  end.

Fixpoint strip_trailing_zeros (s : string) : string :=
  match s with
  | EmptyString => ""
  | String c rest =>
      match strip_trailing_zeros rest with
      | EmptyString => if Ascii.eqb c "0" then "" else String c ""
      | kept => String c kept
      end
  end.

Fixpoint take (n : nat) (s : string) : string :=
  match n, s with
  | S n', String c rest => String c (take n' rest)
  | _, _ => ""
  end.

Fixpoint drop (n : nat) (s : string) : string :=
  match n, s with
  | S n', String c rest => drop n' rest
  | _, _ => s
  end.

(** The digits of a finite value: at least one, none but digits, no zero
    at either end. *)
Definition significant (digits : string) : bool :=
  all_digits digits && negb (String.eqb digits "")
  && String.eqb (strip_leading_zeros digits) digits
  && String.eqb (strip_trailing_zeros digits) digits.

Inductive number : Type :=
| NaN
| Infinity (negative : bool)
| Zero (negative : bool)
| Finite (negative : bool) (digits : string) (n : Z)
    (well_formed : significant digits = true).

Definition finite_if (negative : bool) (digits : string) (n : Z) (b : bool)
    : significant digits = b -> option number :=
  match b with
  | true => fun well_formed => Some (Finite negative digits n well_formed)
  | false => fun _ => None
  end.

(** The finite Number of these digits, when they are significant. *)
Definition finite (negative : bool) (digits : string) (n : Z) : option number :=
  finite_if negative digits n (significant digits) eq_refl.

(** The Number [text * 10^exponent], [text] a string of digits. *)
Definition of_digits (negative : bool) (text : string) (exponent : Z)
    : option number :=
  match strip_leading_zeros text with
  | EmptyString => Some (Zero negative)
  | String c rest =>
      finite negative (strip_trailing_zeros (String c rest))
        (Z.of_nat (String.length (String c rest)) + exponent)
  end.

(** An integer as a Number; the decimal digits of a positive number are
    digits that [of_digits] takes. *)
Definition of_Z (z : Z) : number :=
  let number_of (negative : bool) (p : positive) : number :=
    match
      of_digits negative (NilEmpty.string_of_uint (Pos.to_uint p)) 0
    with
    | Some x => x
    | None => Zero negative
    end in
  match z with
  | Z0 => Zero false
  | Zpos p => number_of false p
  | Zneg p => number_of true p
  end.

Definition natural_text (m : N) : string := NilZero.string_of_uint (N.to_uint m).

Definition exponent_text (e : Z) : string :=
  (if Z.ltb e 0 then "-" else "+") +:+ natural_text (Z.abs_N e).

(** [Number::toString] on the digits [s] (here [digits], [k] of them) and
    [n]: plain digits up to 21 places, a decimal point inside or after up to
    six leading zeros, the exponent form otherwise. *)
Definition finite_text (digits : string) (n : Z) : string :=
  let k := Z.of_nat (String.length digits) in
  if Z.leb k n && Z.leb n 21 then digits +:+ zeros (Z.to_nat (n - k))
  else if Z.ltb 0 n && Z.leb n 21
  then take (Z.to_nat n) digits +:+ String "." (drop (Z.to_nat n) digits)
  else if Z.ltb (-6) n && Z.leb n 0
  then String "0" (String "." (zeros (Z.to_nat (- n)) +:+ digits))
  else
    match digits with
    | EmptyString => ""
    | String d EmptyString => String d (String "e" (exponent_text (n - 1)))
    | String d more =>
        String d (String "." (more +:+ String "e" (exponent_text (n - 1))))
    end.

(** [String(x)], [x.toString()] *)
Definition to_text (x : number) : string :=
  match x with
  | NaN => "NaN"
  | Infinity false => "Infinity"
  | Infinity true => "-Infinity"
  | Zero _ => "0"
  | Finite negative digits n _ =>
      (if negative then "-" else "") +:+ finite_text digits n
  end.

Definition is_finite (x : number) : bool :=
  match x with
  | NaN | Infinity _ => false
  | Zero _ | Finite _ _ _ _ => true
  end.

(** [x] is neither zero nor not-a-number. *)
Definition nonzero (x : number) : bool :=
  match x with
  | NaN | Zero _ => false
  | Infinity _ | Finite _ _ _ _ => true
  end.

(** A Number that JSON text holds as it is: finite, not the negative zero. *)
Definition json_safe (x : number) : bool :=
  match x with
  | Zero false | Finite _ _ _ _ => true
  | _ => false
  end.

Fixpoint span_digits (s : string) : string * string :=
  match s with
  | String c rest =>
      if is_digit c
      then let '(d, r) := span_digits rest in (String c d, r)
      else ("", s)
  | EmptyString => ("", s)
  end.

Definition split_sign (s : string) : bool * string :=
  match s with
  | String c rest => if Ascii.eqb c "-" then (true, rest) else (false, s)
  | EmptyString => (false, s)
  end.

(** The digits before the decimal point: at least one, and no zero before
    another digit. *)
Definition whole_part (digits : string) : bool :=
  match digits with
  | EmptyString => false
  | String c (String _ _) => negb (Ascii.eqb c "0")
  | String _ EmptyString => true
  end.

(** The fraction of a number literal, when there is one: a point and at
    least one digit. *)
Definition parse_fraction (s : string) : option (string * string) :=
  match s with
  | String c rest =>
      if Ascii.eqb c "."
      then
        let '(digits, rest') := span_digits rest in
        if String.eqb digits "" then None else Some (digits, rest')
      else Some ("", s)
  | EmptyString => Some ("", s)
  end.

(** The exponent of a number literal, 0 when there is none. *)
Definition parse_exponent (s : string) : option (Z * string) :=
  match s with
  | String c rest =>
      if Ascii.eqb c "e" || Ascii.eqb c "E"
      then
        let '(negative, body) :=
          match rest with
          | String c' rest' =>
              if Ascii.eqb c' "-" then (true, rest')
              else if Ascii.eqb c' "+" then (false, rest')
              else (false, rest)
          | EmptyString => (false, rest)
          end in
        let '(digits, rest') := span_digits body in
        match NilZero.uint_of_string digits with
        | Some u =>
            let e := Z.of_N (N.of_uint u) in
            Some (if negative then (- e)%Z else e, rest')
        | None => None
        end
      else Some (0%Z, s)
  | EmptyString => Some (0%Z, s)
  end.

(** A JSON number literal at the head of [s] and what follows it: an
    optional minus sign, the whole part, an optional fraction, an optional
    exponent.  The literal is read exactly, where JavaScript takes the
    nearest double; for a literal that [to_text] wrote, both give the
    Number written. *)
Definition parse (s : string) : option (number * string) :=
  let '(negative, body) := split_sign s in
  let '(whole, rest) := span_digits body in
  if whole_part whole
  then
    match parse_fraction rest with
    | Some (fraction, rest') =>
        match parse_exponent rest' with
        | Some (e, rest'') =>
            match
              of_digits negative (whole +:+ fraction)
                (e - Z.of_nat (String.length fraction))
            with
            | Some x => Some (x, rest'')
            | None => None
            end
        | None => None
        end
    | None => None
    end
  else None.

(** What may follow a run of digits: anything but a digit. *)
Definition digit_free (rest : string) : Prop :=
  match rest with
  | EmptyString => True
  | String c _ => is_digit c = false
  end.

(** What may follow a number literal: anything but a digit, a point or an
    exponent mark, which would belong to it. *)
Definition continues (c : ascii) : bool :=
  is_digit c || Ascii.eqb c "." || Ascii.eqb c "e" || Ascii.eqb c "E".

Definition literal_end (rest : string) : Prop :=
  match rest with
  | EmptyString => True
  | String c _ => continues c = false
  end.

End Number.

Coercion Number.of_Z : Z >-> Number.number.

(** ** JavaScript values *)

Module Js.

Abbreviation number := Number.number (only parsing).

(** The values the handlers meet.  A [Date], which the Datadog client puts
    in its responses for timestamps, is given by what its [toJSON] returns
    ([None] for an invalid date) and by what its [toString] returns. *)
Inductive JsValue : Type :=
| JsUndefined
| JsNull
| JsBool (b : bool)
| JsNumber (n : number)
| JsString (s : string)
| JsArray (items : list JsValue)
| JsObject (fields : list (string * JsValue))
| JsDate (iso : option string) (shown : string).

(** What a [catch] clause can receive: an [Error] instance with its
    [message], or any other value. *)
Inductive Thrown : Type :=
| ErrorInstance (message : string)
| NonError (v : JsValue).

(** A settled promise. *)
Inductive Outcome (A : Type) : Type :=
| Resolved (a : A)
| Rejected (t : Thrown).
Arguments Resolved {A} a.
Arguments Rejected {A} t.

(** [obj.k] on an object literal given by its fields. *)
Fixpoint js_prop (fields : list (string * JsValue)) (k : string) : JsValue :=
  match fields with
  | [] => JsUndefined
  | (k', v) :: rest => if String.eqb k' k then v else js_prop rest k
  end.

Definition truthy (v : JsValue) : bool :=
  match v with
  | JsUndefined | JsNull => false
  | JsBool b => b
  | JsNumber n => Number.nonzero n
  | JsString s => negb (String.eqb s "")
  | JsArray _ | JsObject _ | JsDate _ _ => true
  end.

(** [a || b] *)
Definition js_or (a b : JsValue) : JsValue := if truthy a then a else b.

(** [v?.length] *)
Definition optional_length (v : JsValue) : JsValue :=
  match v with
  | JsUndefined | JsNull => JsUndefined
  | JsArray items => JsNumber (Z.of_nat (length items))
  | JsString s => JsNumber (Z.of_nat (String.length s))
  | JsObject fields => js_prop fields "length"
  | JsBool _ | JsNumber _ | JsDate _ _ => JsUndefined
  end.

(** [strings.join(sep)] *)
Fixpoint join (sep : string) (l : list string) : string :=
  match l with
  | [] => ""
  | [s] => s
  | s :: rest => s +:+ sep +:+ join sep rest
  end.

End Js.
Export Js.

(** ** The JSON built-ins

    [JSON.stringify(value, null, space)] and [JSON.parse(text)]. *)

Module JSON.

Definition quote : ascii := ascii_of_nat 34.
Definition newline : ascii := ascii_of_nat 10.
Definition char (c : ascii) : string := String c "".

Definition hex_digit (n : nat) : ascii :=
  if Nat.ltb n 10 then ascii_of_nat (48 + n) else ascii_of_nat (87 + n).

(** [QuoteJSONString]: the two-character escapes, [\u00XX] for the other
    control characters. *)
Definition escape_char (c : ascii) : string :=
  let n := nat_of_ascii c in
  if Nat.eqb n 34 then "\" +:+ char quote
  else if Nat.eqb n 92 then "\\"
  else if Nat.eqb n 8 then "\b"
  else if Nat.eqb n 12 then "\f"
  else if Nat.eqb n 10 then "\n"
  else if Nat.eqb n 13 then "\r"
  else if Nat.eqb n 9 then "\t"
  else if Nat.ltb n 32
       then "\u00" +:+ char (hex_digit (n / 16)) +:+ char (hex_digit (n mod 16))
  else char c.

Fixpoint escape (s : string) : string :=
  match s with
  | EmptyString => ""
  | String c rest => escape_char c +:+ escape rest
  end.

Definition quoted (s : string) : string := char quote +:+ escape s +:+ char quote.

(** A finite Number is written by [Number::toString], any other as [null]. *)
Definition number_text (n : number) : string :=
  if Number.is_finite n then Number.to_text n else "null".

Fixpoint spaces (n : nat) : string :=
  match n with
  | O => ""
  | S n' => " " +:+ spaces n'
  end.

(** The line break and indentation between the parts of an array or object
    at nesting depth [depth]; nothing when [space] is zero. *)
Definition break (space depth : nat) : string :=
  if Nat.eqb space 0 then "" else char newline +:+ spaces (space * depth).

Definition separator (space : nat) : string :=
  if Nat.eqb space 0 then ":" else ": ".

Definition or_text (fallback : string) (t : option string) : string :=
  match t with
  | Some s => s
  | None => fallback
  end.

(** [SerializeJSONProperty]: [None] stands for [undefined], which an object
    omits and an array prints as [null]. *)
Fixpoint serialize (space depth : nat) (v : JsValue) : option string :=
  match v with
  | JsUndefined => None
  | JsNull => Some "null"
  | JsBool true => Some "true"
  | JsBool false => Some "false"
  | JsNumber n => Some (number_text n)
  | JsString s => Some (quoted s)
  | JsDate (Some iso) _ => Some (quoted iso)
  | JsDate None _ => Some "null"
  | JsArray items =>
      let parts :=
        map (fun item => or_text "null" (serialize space (S depth) item)) items in
      match parts with
      | [] => Some "[]"
      | _ =>
          Some ("[" +:+ break space (S depth)
                +:+ join ("," +:+ break space (S depth)) parts
                +:+ break space depth +:+ "]")
      end
  | JsObject fields =>
      let parts :=
        (fix members (fields : list (string * JsValue)) : list string :=
           match fields with
           | [] => []
           | (k, item) :: rest =>
               match serialize space (S depth) item with
               | Some t => (quoted k +:+ separator space +:+ t) :: members rest
               | None => members rest
               end
           end) fields in
      match parts with
      | [] => Some "{}"
      | _ =>
          Some ("{" +:+ break space (S depth)
                +:+ join ("," +:+ break space (S depth)) parts
                +:+ break space depth +:+ "}")
      end
  end.

(** The handlers apply [JSON.stringify] to objects and arrays only, where
    the result is a string. *)
Definition stringify (v : JsValue) (space : nat) : string :=
  or_text "undefined" (serialize space 0 v).

Definition is_whitespace (c : ascii) : bool :=
  let n := nat_of_ascii c in
  Nat.eqb n 32 || Nat.eqb n 10 || Nat.eqb n 13 || Nat.eqb n 9.

Fixpoint skip_whitespace (s : string) : string :=
  match s with
  | String c rest => if is_whitespace c then skip_whitespace rest else s
  | EmptyString => s
  end.

Definition hex_value (c : ascii) : option nat :=
  let n := nat_of_ascii c in
  if Nat.leb 48 n && Nat.leb n 57 then Some (n - 48)
  else if Nat.leb 97 n && Nat.leb n 102 then Some (n - 87)
  else if Nat.leb 65 n && Nat.leb n 70 then Some (n - 55)
  else None.

Definition unescape (c : ascii) : option ascii :=
  let n := nat_of_ascii c in
  if Nat.eqb n 34 then Some quote
  else if Nat.eqb n 92 then Some "\"%char
  else if Nat.eqb n 47 then Some "/"%char
  else if Nat.eqb n 98 then Some (ascii_of_nat 8)
  else if Nat.eqb n 102 then Some (ascii_of_nat 12)
  else if Nat.eqb n 110 then Some (ascii_of_nat 10)
  else if Nat.eqb n 114 then Some (ascii_of_nat 13)
  else if Nat.eqb n 116 then Some (ascii_of_nat 9)
  else None.

(** The characters of a string literal after its opening quote, and what
    follows the closing quote. *)
Fixpoint parse_characters (s : string) : option (string * string) :=
  match s with
  | EmptyString => None
  | String c rest =>
      if Ascii.eqb c quote then Some ("", rest)
      else if Ascii.eqb c "\"%char then
        match rest with
        | String "u" (String "0" (String "0" (String h (String l rest')))) =>
            match hex_value h, hex_value l, parse_characters rest' with
            | Some a, Some b, Some (t, rest'') =>
                Some (String (ascii_of_nat (16 * a + b)) t, rest'')
            | _, _, _ => None
            end
        | String e rest' =>
            match unescape e, parse_characters rest' with
            | Some c', Some (t, rest'') => Some (String c' t, rest'')
            | _, _ => None
            end
        | EmptyString => None
        end
      else if Nat.ltb (nat_of_ascii c) 32 then None
      else
        match parse_characters rest with
        | Some (t, rest') => Some (String c t, rest')
        | None => None
        end
  end.

(** A number literal and what follows it. *)
Definition parse_number (s : string) : option (number * string) :=
  Number.parse s.

(** [s] without its prefix [word], when it starts with it. *)
Fixpoint strip_prefix (word s : string) : option string :=
  match word, s with
  | EmptyString, _ => Some s
  | String a word', String b s' =>
      if Ascii.eqb a b then strip_prefix word' s' else None
  | String _ _, EmptyString => None
  end.

Definition expect (word : string) (v : JsValue) (s : string)
    : option (JsValue * string) :=
  match strip_prefix word s with
  | Some rest => Some (v, rest)
  | None => None
  end.

(** Recursive descent; [fuel] bounds the nesting and the number of parts. *)
Fixpoint parse_value (fuel : nat) (s : string) : option (JsValue * string) :=
  match fuel with
  | O => None
  | S fuel' =>
      match skip_whitespace s with
      | EmptyString => None
      | String c rest =>
          if Ascii.eqb c quote then
            match parse_characters rest with
            | Some (t, rest') => Some (JsString t, rest')
            | None => None
            end
          else if Ascii.eqb c "[" then
            match skip_whitespace rest with
            | EmptyString => None
            | String c' rest' =>
                if Ascii.eqb c' "]" then Some (JsArray [], rest')
                else
                  match parse_elements fuel' rest with
                  | Some (items, rest'') => Some (JsArray items, rest'')
                  | None => None
                  end
            end
          else if Ascii.eqb c "{" then
            match skip_whitespace rest with
            | EmptyString => None
            | String c' rest' =>
                if Ascii.eqb c' "}" then Some (JsObject [], rest')
                else
                  match parse_members fuel' rest with
                  | Some (fields, rest'') => Some (JsObject fields, rest'')
                  | None => None
                  end
            end
          else if Ascii.eqb c "t" then expect "true" (JsBool true) (String c rest)
          else if Ascii.eqb c "f" then expect "false" (JsBool false) (String c rest)
          else if Ascii.eqb c "n" then expect "null" JsNull (String c rest)
          else
            match parse_number (String c rest) with
            | Some (n, rest') => Some (JsNumber n, rest')
            | None => None
            end
      end
  end
with parse_elements (fuel : nat) (s : string) : option (list JsValue * string) :=
  match fuel with
  | O => None
  | S fuel' =>
      match parse_value fuel' s with
      | Some (v, rest) =>
          match skip_whitespace rest with
          | EmptyString => None
          | String c rest' =>
              if Ascii.eqb c "," then
                match parse_elements fuel' rest' with
                | Some (items, rest'') => Some (v :: items, rest'')
                | None => None
                end
              else if Ascii.eqb c "]" then Some ([v], rest')
              else None
          end
      | None => None
      end
  end
with parse_members (fuel : nat) (s : string)
    : option (list (string * JsValue) * string) :=
  match fuel with
  | O => None
  | S fuel' =>
      match skip_whitespace s with
      | EmptyString => None
      | String c rest =>
          if Ascii.eqb c quote then
            match parse_characters rest with
            | Some (k, rest') =>
                match skip_whitespace rest' with
                | EmptyString => None
                | String c' rest'' =>
                    if Ascii.eqb c' ":" then
                      match parse_value fuel' rest'' with
                      | Some (v, rest3) =>
                          match skip_whitespace rest3 with
                          | EmptyString => None
                          | String c'' rest4 =>
                              if Ascii.eqb c'' "," then
                                match parse_members fuel' rest4 with
                                | Some (fields, rest5) =>
                                    Some ((k, v) :: fields, rest5)
                                | None => None
                                end
                              else if Ascii.eqb c'' "}" then Some ([(k, v)], rest4)
                              else None
                          end
                      | None => None
                      end
                    else None
                end
            | None => None
            end
          else None
      end
  end.

Definition parse (s : string) : option JsValue :=
  match parse_value (S (String.length s)) s with
  | Some (v, rest) =>
      match skip_whitespace rest with
      | EmptyString => Some v
      | _ => None
      end
  | None => None
  end.

(** JSON data, the values JSON text holds as they are: no [undefined], no
    [Date], and no Number but the finite ones other than the negative
    zero. *)
Fixpoint plain (v : JsValue) : bool :=
  match v with
  | JsUndefined | JsDate _ _ => false
  | JsNull | JsBool _ | JsString _ => true
  | JsNumber n => Number.json_safe n
  | JsArray items => forallb plain items
  | JsObject fields =>
      (fix all (fields : list (string * JsValue)) : bool :=
         match fields with
         | [] => true
         | (_, item) :: rest => plain item && all rest
         end) fields
  end.

(** The fuel [parse_value] needs beyond one unit to read a value back. *)
Fixpoint weight (v : JsValue) : nat :=
  match v with
  | JsArray items =>
      S ((fix sum (items : list JsValue) : nat :=
            match items with
            | [] => 0
            | item :: rest => S (weight item + sum rest)
            end) items)
  | JsObject fields =>
      S ((fix sum (fields : list (string * JsValue)) : nat :=
            match fields with
            | [] => 0
            | (_, item) :: rest => S (weight item + sum rest)
            end) fields)
  | _ => 0
  end.

(** The text of a value inside an array, and of a member of an object. *)
Definition text_of (space depth : nat) (v : JsValue) : string :=
  or_text "null" (serialize space depth v).

Definition member_text (space depth : nat) (field : string * JsValue) : string :=
  quoted (fst field) +:+ separator space +:+ text_of space depth (snd field).

Definition all_plain (fields : list (string * JsValue)) : bool :=
  forallb (fun field => plain (snd field)) fields.

Definition elements_weight (items : list JsValue) : nat :=
  list_sum (map (fun item => S (weight item)) items).

Definition members_weight (fields : list (string * JsValue)) : nat :=
  list_sum (map (fun field => S (weight (snd field))) fields).

(** The characters a serialized value can start with. *)
Definition starts : list ascii :=
  [quote; "["; "{"; "t"; "f"; "n"; "-"; "0"; "1"; "2"; "3"; "4"; "5"; "6";
   "7"; "8"; "9"]%char.

(** With [fuel], the parser reads back every value, list of elements and
    list of members that is light enough. *)
Definition reads_values (fuel : nat) : Prop :=
  forall (v : JsValue) (space depth : nat) (rest : string),
    plain v = true -> weight v < fuel -> Number.literal_end rest ->
    parse_value fuel (text_of space depth v +:+ rest) = Some (v, rest).

Definition reads_elements (fuel : nat) : Prop :=
  forall (items : list JsValue) (space depth closing : nat) (rest : string),
    items <> [] -> forallb plain items = true -> elements_weight items < fuel ->
    parse_elements fuel
      (join (String "," (break space depth)) (map (text_of space depth) items)
       +:+ break space closing +:+ String "]" rest) = Some (items, rest).

Definition reads_members (fuel : nat) : Prop :=
  forall (fields : list (string * JsValue)) (space depth closing : nat)
         (rest : string),
    fields <> [] -> all_plain fields = true -> members_weight fields < fuel ->
    parse_members fuel
      (join (String "," (break space depth)) (map (member_text space depth) fields)
       +:+ break space closing +:+ String "}" rest) = Some (fields, rest).

End JSON.

(** ** The API objects of the Datadog client *)

Module Datadog.

(** An API object of the Datadog client: every method takes a request and
    returns a promise of a response object. *)
Definition ApiMethod (Response : Type) : Type := JsValue -> Outcome Response.

(** A response object, by its fields. *)
Definition ResponseObject := list (string * JsValue).

(** [v1.MetricsApi], [v2.LogsApi], [v1.MonitorsApi] and [v2.SpansApi], by
    the methods the handlers call. *)
Record MetricsApi : Type := { queryMetrics : ApiMethod ResponseObject }.

Record LogsApi : Type := { listLogs : ApiMethod ResponseObject }.

Record MonitorsApi : Type := {
  getMonitor : ApiMethod ResponseObject;
  listMonitors : ApiMethod (list JsValue)
}.

Record SpansApi : Type := { listSpans : ApiMethod ResponseObject }.

End Datadog.
Export Datadog.

(** ** The world a computation runs in *)

Module Runtime.

(** The two streams of the server process: standard output carries the
    framed protocol messages, standard error the diagnostics. *)
Inductive Stream : Type := Stdout | Stderr.

Record LogRecord : Type := {
  log_level : string;
  log_message : string;
  log_meta : list (string * JsValue)
}.

(** What is written to a stream: a framed protocol message, a line of the
    logger, or plain text (the usage or version text of [yargs]). *)
Inductive Chunk : Type :=
| ProtocolFrame (payload : string)
| LogLine (record : LogRecord)
| Text (text : string).

(** The type of a parameter in a tool's schema: [z.string()], [z.number()],
    [z.array(element)]. *)
Inductive ZodType : Type :=
| ZodString
| ZodNumber
| ZodArray (element : ZodType).

(** One entry of a tool's schema: the type with its [optional()],
    [default(value)] and [describe(text)]. *)
Record SchemaEntry : Type := {
  entry_name : string;
  entry_type : ZodType;
  entry_optional : bool;
  entry_default : option JsValue;
  entry_description : string
}.

(** The handler passed to [server.tool]: one of the five closures of
    [tools/], with the API object it closes over. *)
Inductive Handler : Type :=
| QueryMetrics (metricsApi : MetricsApi)
| SearchLogs (logsApi : LogsApi)
| GetMonitor (monitorsApi : MonitorsApi)
| ListMonitors (monitorsApi : MonitorsApi)
| SearchSpans (spansApi : SpansApi).

(** One [server.tool(name, description, schema, handler)] call. *)
Record ToolRegistration : Type := {
  tool_name : string;
  tool_description : string;
  tool_schema : list SchemaEntry;
  tool_handler : Handler
}.

(** One call on the Datadog client: the method and the request. *)
Record ApiCall : Type := {
  api_method : string;
  api_request : JsValue
}.

Record World : Type := {
  stdout : list Chunk;
  stderr : list Chunk;
  logger_level : string;
  server_tools : list ToolRegistration;
  api_calls : list ApiCall
}.

(** A computation: runs in a world, returns or throws. *)
Definition M (A : Type) : Type := World -> (Thrown + A) * World.

Definition ret {A} (a : A) : M A := fun w => (inr a, w).

Definition bind {A B} (m : M A) (k : A -> M B) : M B :=
  fun w =>
    match m w with
    | (inl e, w') => (inl e, w')
    | (inr a, w') => k a w'
    end.

(** [try { body } catch (error) { handler error }] *)
Definition try_catch {A} (body : M A) (handler : Thrown -> M A) : M A :=
  fun w =>
    match body w with
    | (inl e, w') => handler e w'
    | (inr a, w') => (inr a, w')
    end.

Definition write (s : Stream) (c : Chunk) (w : World) : World :=
  match s with
  | Stdout =>
      {| stdout := stdout w ++ [c]; stderr := stderr w;
         logger_level := logger_level w; server_tools := server_tools w;
         api_calls := api_calls w |}
  | Stderr =>
      {| stdout := stdout w; stderr := stderr w ++ [c];
         logger_level := logger_level w; server_tools := server_tools w;
         api_calls := api_calls w |}
  end.

(** The world once a call on the Datadog client has been made. *)
Definition called (call : ApiCall) (w : World) : World :=
  {| stdout := stdout w; stderr := stderr w;
     logger_level := logger_level w; server_tools := server_tools w;
     api_calls := api_calls w ++ [call] |}.

(** [await api.method(request)]: the call is made, then the promise
    settles; a rejection is thrown at the [await]. *)
Definition await {A} (method : string) (request : JsValue)
    (outcome : Outcome A) : M A :=
  fun w =>
    let w' := called {| api_method := method; api_request := request |} w in
    match outcome with
    | Resolved a => (inr a, w')
    | Rejected t => (inl t, w')
    end.

(** Whether a tool is registered under [name]. *)
Definition has_tool (name : string) (tools : list ToolRegistration) : bool :=
  existsb (String.eqb name) (map tool_name tools).

(** The [Error] of [McpServer.tool] for a name the server holds. *)
Definition already_registered (name : string) : Thrown :=
  ErrorInstance ("Tool " +:+ name +:+ " is already registered").

(** The server once [registration] is added to its tools. *)
Definition with_tool (registration : ToolRegistration) (w : World) : World :=
  {| stdout := stdout w; stderr := stderr w;
     logger_level := logger_level w;
     server_tools := server_tools w ++ [registration];
     api_calls := api_calls w |}.

(** [server.tool(name, description, schema, handler)]: [McpServer] throws
    on a name it holds already, and registers the tool otherwise. *)
Definition server_tool (name description : string) (schema : list SchemaEntry)
    (handler : Handler) : M unit :=
  fun w =>
    if has_tool name (server_tools w)
    then (inl (already_registered name), w)
    else
      (inr tt,
       with_tool {| tool_name := name; tool_description := description;
                    tool_schema := schema; tool_handler := handler |} w).

(** [z.string().describe(text)] and the like, as schema entries. *)
Definition required (name : string) (type : ZodType) (description : string)
    : SchemaEntry :=
  {| entry_name := name; entry_type := type;
     entry_optional := false; entry_default := None;
     entry_description := description |}.

Definition optional (name : string) (type : ZodType) (description : string)
    : SchemaEntry :=
  {| entry_name := name; entry_type := type;
     entry_optional := true; entry_default := None;
     entry_description := description |}.

Definition optional_with_default (name : string) (type : ZodType)
    (value : JsValue) (description : string) : SchemaEntry :=
  {| entry_name := name; entry_type := type;
     entry_optional := true; entry_default := Some value;
     entry_description := description |}.

(** [text] between double quotes, as the descriptions show examples. *)
Definition in_quotes (text : string) : string :=
  String JSON.quote (text +:+ String JSON.quote "").

Definition result_of {A} (r : (Thrown + A) * World) : Thrown + A := fst r.
Definition world_of {A} (r : (Thrown + A) * World) : World := snd r.

(** A computation that leaves standard output alone and adds only log lines
    to standard error. *)
Definition diagnostics_only {A} (m : M A) : Prop :=
  forall w : World,
    stdout (world_of (m w)) = stdout w
    /\ exists records : list LogRecord,
         stderr (world_of (m w)) = stderr w ++ map LogLine records.

End Runtime.
Export Runtime.

Declare Scope js_scope.
Delimit Scope js_scope with js.
Notation "x <- m ;; k" := (bind m (fun x => k))
(at level 100, m at next level, right associativity) : js_scope.
Notation "m ;;; k" := (bind m (fun _ => k))
(at level 100, right associativity) : js_scope.

(** ** [shared/domains.ts] *)

Module Domains.

(** [type Domain = 'metrics' | 'logs' | 'monitors' | 'traces'] is a string
    at run time. *)
Abbreviation Domain := string (only parsing).

Definition ALL_DOMAINS : list Domain := ["metrics"; "logs"; "monitors"; "traces"].

(** [array.includes(x)] on strings *)
Definition includes (l : list string) (x : string) : bool :=
  existsb (String.eqb x) l.

Definition invalid_domain_message (domain : string) : string :=
  "Invalid domain: " +:+ domain +:+ ". Valid domains: " +:+ join ", " ALL_DOMAINS.

(** The [for ... of] loop of [parseDomains], with [validDomains] as the
    accumulator: it stops at the first [throw]. *)
Fixpoint parseDomains_loop (domains : list string) (validDomains : list Domain)
    : Thrown + list Domain :=
  match domains with
  | [] => inr validDomains
  | domain :: rest =>
      if includes ALL_DOMAINS domain
      then parseDomains_loop rest (validDomains ++ [domain])
      else inl (ErrorInstance (invalid_domain_message domain))
  end.

Definition parseDomains (domains : list string) : Thrown + list Domain :=
  match parseDomains_loop domains [] with
  | inl e => inl e
  | inr validDomains =>
      inr (if Nat.ltb 0 (length validDomains) then validDomains else ALL_DOMAINS)
  end.

Definition isDomainEnabled (domain : Domain) (enabledDomains : list Domain) : bool :=
  includes enabledDomains domain.

End Domains.
Export Domains.

(** ** [logger.ts] *)

Module Logger.

(** winston's default (npm) levels and their priorities. *)
Definition npm_levels : list (string * nat) :=
  [("error", 0); ("warn", 1); ("info", 2); ("http", 3); ("verbose", 4);
   ("debug", 5); ("silly", 6)]%nat.

Fixpoint level_priority_in (levels : list (string * nat)) (l : string) : option nat :=
  match levels with
  | [] => None
  | (name, p) :: rest => if String.eqb name l then Some p else level_priority_in rest l
  end.

Definition level_priority (l : string) : option nat := level_priority_in npm_levels l.

(** [level: process.env.LOG_LEVEL || 'info'] *)
Definition initial_level (LOG_LEVEL : option string) : string :=
  match LOG_LEVEL with
  | Some l => if String.eqb l "" then "info" else l
  | None => "info"
  end.

(** [transports: [new winston.transports.Stream({ stream: process.stderr })]] *)
Definition transports : list Stream := [Stderr].

(** A transport passes a record on when the logger has no level or the
    record's priority is within the logger's. *)
Definition level_enabled (configured level : string) : bool :=
  if String.eqb configured "" then true
  else
    match level_priority configured, level_priority level with
    | Some c, Some l => Nat.leb l c
    | _, _ => false
    end.

Definition emit (record : LogRecord) (w : World) : World :=
  fold_left (fun w' s => write s (LogLine record) w') transports w.

(** The world once [logger.log(level, message, meta)] has run. *)
Definition logged (level message : string) (meta : list (string * JsValue))
    (w : World) : World :=
  if level_enabled (logger_level w) level
  then emit {| log_level := level; log_message := message; log_meta := meta |} w
  else w.

(** [logger.log(level, message, meta)] *)
Definition log (level message : string) (meta : list (string * JsValue)) : M unit :=
  fun w => (inr tt, logged level message meta w).

Definition error := log "error".
Definition warn := log "warn".
Definition info := log "info".
Definition debug := log "debug".

End Logger.

(** ** Tool results *)

Record ContentItem : Type := { type : string; text : string }.

Record ToolResult : Type := {
  content : list ContentItem;
  isError : option bool
}.

(** [error instanceof Error ? error.message : 'Unknown error'] *)
Definition errorMessage_of (error : Thrown) : string :=
  match error with
  | ErrorInstance message => message
  | NonError _ => "Unknown error"
  end.

Local Open Scope js_scope.

(** ** [tools/metrics.ts] *)

Module Metrics.

Abbreviation MetricsApi := Datadog.MetricsApi (only parsing).
Abbreviation queryMetrics := Datadog.queryMetrics (only parsing).

Record Args : Type := { query : string; from : number; to : number }.

(** The argument of [metricsApi.queryMetrics]: [{ from, to, query }]. *)
Definition query_metrics_request (args : Args) : JsValue :=
  JsObject [("from", JsNumber (from args)); ("to", JsNumber (to args));
            ("query", JsString (query args))].

Definition query_metrics_handler (metricsApi : MetricsApi) (args : Args)
    : M ToolResult :=
  let query := query args in
  let from := from args in
  let to := to args in
  try_catch
    (Logger.info "Querying metrics"
       [("query", JsString query); ("from", JsNumber from); ("to", JsNumber to)] ;;;
     let request := query_metrics_request args in
     response <- await "queryMetrics" request (queryMetrics metricsApi request) ;;
     Logger.info "Metrics query successful"
       [("query", JsString query);
        ("seriesCount",
         js_or (optional_length (js_prop response "series")) (JsNumber 0%Z))] ;;;
     ret {| content :=
              [{| type := "text";
                  text := JSON.stringify (JsObject response) 2 |}];
            isError := None |})
    (fun error =>
       let errorMessage := errorMessage_of error in
       Logger.error "Metrics query failed"
         [("query", JsString query); ("error", JsString errorMessage)] ;;;
       ret {| content :=
                [{| type := "text";
                    text := "Error querying metrics: " +:+ errorMessage |}];
              isError := Some true |}).

Definition configureMetricsTools (metricsApi : MetricsApi) : M unit :=
  server_tool "query_metrics"
    "Query Datadog metric timeseries data for a given time range"
    [required "query" ZodString
       ("Datadog metric query (e.g., " +:+ in_quotes "avg:system.cpu.user{*}"
        +:+ ")");
     required "from" ZodNumber
       "Start timestamp in Unix seconds (e.g., 1704067200)";
     required "to" ZodNumber
       "End timestamp in Unix seconds (e.g., 1704070800)"]
    (QueryMetrics metricsApi).

End Metrics.

(** ** [tools/logs.ts] *)

Module Logs.

Abbreviation LogsApi := Datadog.LogsApi (only parsing).
Abbreviation listLogs := Datadog.listLogs (only parsing).

(** The arguments as a client sends them: [limit] is optional. *)
Record Input : Type := {
  input_query : string;
  input_from : string;
  input_to : string;
  input_limit : option number
}.

(** The arguments as the handler receives them. *)
Record Args : Type := { query : string; from : string; to : string; limit : number }.

(** The schema of the tool: three strings and
    [limit: z.number().optional().default(100)]. *)
Definition schema_parse (input : Input) : Args :=
  {| query := input_query input;
     from := input_from input;
     to := input_to input;
     limit := default (Number.of_Z 100) (input_limit input) |}.

(** [const params: v2.LogsApiListLogsRequest] *)
Definition search_logs_request (args : Args) : JsValue :=
  JsObject
    [("body",
      JsObject
        [("filter",
          JsObject [("query", JsString (query args));
                    ("from", JsString (from args));
                    ("to", JsString (to args))]);
         ("page", JsObject [("limit", JsNumber (limit args))]);
         ("sort", JsString "timestamp")])].

Definition search_logs_handler (logsApi : LogsApi) (args : Args) : M ToolResult :=
  let query := query args in
  let from := from args in
  let to := to args in
  let limit := limit args in
  try_catch
    (Logger.info "Searching logs"
       [("query", JsString query); ("from", JsString from);
        ("to", JsString to); ("limit", JsNumber limit)] ;;;
     let params := search_logs_request args in
     response <- await "listLogs" params (listLogs logsApi params) ;;
     Logger.info "Log search successful"
       [("query", JsString query);
        ("resultCount",
         js_or (optional_length (js_prop response "data")) (JsNumber 0%Z))] ;;;
     ret {| content :=
              [{| type := "text";
                  text := JSON.stringify (JsObject response) 2 |}];
            isError := None |})
    (fun error =>
       let errorMessage := errorMessage_of error in
       Logger.error "Log search failed"
         [("query", JsString query); ("error", JsString errorMessage)] ;;;
       ret {| content :=
                [{| type := "text";
                    text := "Error searching logs: " +:+ errorMessage |}];
              isError := Some true |}).

(** A call of the tool through the server: the arguments are parsed by the
    schema, then handed to the handler. *)
Definition search_logs (logsApi : LogsApi) (input : Input) : M ToolResult :=
  search_logs_handler logsApi (schema_parse input).

Definition configureLogsTools (logsApi : LogsApi) : M unit :=
  server_tool "search_logs"
    "Search Datadog logs with a query and time range"
    [required "query" ZodString
       ("Log search query (e.g., " +:+ in_quotes "status:error service:web"
        +:+ ")");
     required "from" ZodString
       ("Start time in ISO 8601 format or relative time (e.g., "
        +:+ in_quotes "now-15m" +:+ ")");
     required "to" ZodString
       ("End time in ISO 8601 format or relative time (e.g., "
        +:+ in_quotes "now" +:+ ")");
     optional_with_default "limit" ZodNumber (JsNumber 100%Z)
       "Maximum number of logs to return (default: 100)"]
    (SearchLogs logsApi).

End Logs.

(** ** [tools/monitors.ts] *)

Module Monitors.

Abbreviation MonitorsApi := Datadog.MonitorsApi (only parsing).
Abbreviation getMonitor := Datadog.getMonitor (only parsing).
Abbreviation listMonitors := Datadog.listMonitors (only parsing).

Record GetArgs : Type := { monitorId : number }.

(** Both filters of [list_monitors] are optional. *)
Record ListArgs : Type := { tags : option (list string); name : option string }.

Definition optional_value {A} (f : A -> JsValue) (v : option A) : JsValue :=
  match v with
  | Some a => f a
  | None => JsUndefined
  end.

Definition strings_value (l : list string) : JsValue := JsArray (map JsString l).

(** [const params: any = {}] and the two conditional assignments. *)
Definition list_monitors_params (args : ListArgs) : JsValue :=
  let params := [] in
  let params :=
    match tags args with
    | Some tags =>
        if Nat.ltb 0 (length tags)
        then params ++ [("tags", JsString (join "," tags))]
        else params
    | None => params
    end in
  let params :=
    match name args with
    | Some name =>
        if truthy (JsString name)
        then params ++ [("name", JsString name)]
        else params
    | None => params
    end in
  JsObject params.

(** The argument of [monitorsApi.getMonitor]: [{ monitorId }]. *)
Definition get_monitor_request (args : GetArgs) : JsValue :=
  JsObject [("monitorId", JsNumber (monitorId args))].

Definition get_monitor_handler (monitorsApi : MonitorsApi) (args : GetArgs)
    : M ToolResult :=
  let monitorId := monitorId args in
  try_catch
    (Logger.info "Getting monitor" [("monitorId", JsNumber monitorId)] ;;;
     let request := get_monitor_request args in
     response <- await "getMonitor" request (getMonitor monitorsApi request) ;;
     Logger.info "Monitor retrieved successfully"
       [("monitorId", JsNumber monitorId)] ;;;
     ret {| content :=
              [{| type := "text";
                  text := JSON.stringify (JsObject response) 2 |}];
            isError := None |})
    (fun error =>
       let errorMessage := errorMessage_of error in
       Logger.error "Failed to get monitor"
         [("monitorId", JsNumber monitorId); ("error", JsString errorMessage)] ;;;
       ret {| content :=
                [{| type := "text";
                    text := "Error getting monitor: " +:+ errorMessage |}];
              isError := Some true |}).

Definition list_monitors_handler (monitorsApi : MonitorsApi) (args : ListArgs)
    : M ToolResult :=
  try_catch
    (Logger.info "Listing monitors"
       [("tags", optional_value strings_value (tags args));
        ("name", optional_value JsString (name args))] ;;;
     let params := list_monitors_params args in
     response <- await "listMonitors" params (listMonitors monitorsApi params) ;;
     Logger.info "Monitors listed successfully"
       [("count", JsNumber (Z.of_nat (length response)))] ;;;
     ret {| content :=
              [{| type := "text";
                  text := JSON.stringify (JsArray response) 2 |}];
            isError := None |})
    (fun error =>
       let errorMessage := errorMessage_of error in
       Logger.error "Failed to list monitors"
         [("error", JsString errorMessage)] ;;;
       ret {| content :=
                [{| type := "text";
                    text := "Error listing monitors: " +:+ errorMessage |}];
              isError := Some true |}).

Definition configureMonitorsTools (monitorsApi : MonitorsApi) : M unit :=
  server_tool "get_monitor"
    "Get details of a specific Datadog monitor by ID"
    [required "monitorId" ZodNumber "Monitor ID to retrieve"]
    (GetMonitor monitorsApi) ;;;
  server_tool "list_monitors"
    "List all Datadog monitors with optional filtering"
    [optional "tags" (ZodArray ZodString)
       ("Filter monitors by tags (e.g., [" +:+ in_quotes "env:prod" +:+ ", "
        +:+ in_quotes "team:backend" +:+ "])");
     optional "name" ZodString "Filter monitors by name substring"]
    (ListMonitors monitorsApi).

End Monitors.

(** ** [tools/traces.ts] *)

Module Traces.

Abbreviation SpansApi := Datadog.SpansApi (only parsing).
Abbreviation listSpans := Datadog.listSpans (only parsing).

Record Input : Type := {
  input_query : string;
  input_from : string;
  input_to : string;
  input_limit : option number
}.

Record Args : Type := { query : string; from : string; to : string; limit : number }.

(** The schema of the tool: three strings and
    [limit: z.number().optional().default(100)]. *)
Definition schema_parse (input : Input) : Args :=
  {| query := input_query input;
     from := input_from input;
     to := input_to input;
     limit := default (Number.of_Z 100) (input_limit input) |}.

(** [const params: v2.SpansApiListSpansRequest] *)
Definition search_spans_request (args : Args) : JsValue :=
  JsObject
    [("body",
      JsObject
        [("data",
          JsObject
            [("attributes",
              JsObject
                [("filter",
                  JsObject [("query", JsString (query args));
                            ("from", JsString (from args));
                            ("to", JsString (to args))]);
                 ("page", JsObject [("limit", JsNumber (limit args))]);
                 ("sort", JsString "timestamp")]);
             ("type", JsString "search_request")])])].

Definition search_spans_handler (spansApi : SpansApi) (args : Args) : M ToolResult :=
  let query := query args in
  let from := from args in
  let to := to args in
  let limit := limit args in
  try_catch
    (Logger.info "Searching spans"
       [("query", JsString query); ("from", JsString from);
        ("to", JsString to); ("limit", JsNumber limit)] ;;;
     let params := search_spans_request args in
     response <- await "listSpans" params (listSpans spansApi params) ;;
     Logger.info "Span search successful"
       [("query", JsString query);
        ("resultCount",
         js_or (optional_length (js_prop response "data")) (JsNumber 0%Z))] ;;;
     ret {| content :=
              [{| type := "text";
                  text := JSON.stringify (JsObject response) 2 |}];
            isError := None |})
    (fun error =>
       let errorMessage := errorMessage_of error in
       Logger.error "Span search failed"
         [("query", JsString query); ("error", JsString errorMessage)] ;;;
       ret {| content :=
                [{| type := "text";
                    text := "Error searching spans: " +:+ errorMessage |}];
              isError := Some true |}).

(** A call of the tool through the server: the arguments are parsed by the
    schema, then handed to the handler. *)
Definition search_spans (spansApi : SpansApi) (input : Input) : M ToolResult :=
  search_spans_handler spansApi (schema_parse input).

Definition configureTracesTools (spansApi : SpansApi) : M unit :=
  server_tool "search_spans"
    "Search APM spans/traces with a query and time range"
    [required "query" ZodString
       ("Span search query (e.g., "
        +:+ in_quotes "service:web operation_name:http.request" +:+ ")");
     required "from" ZodString
       ("Start time in ISO 8601 format or relative time (e.g., "
        +:+ in_quotes "now-1h" +:+ ")");
     required "to" ZodString
       ("End time in ISO 8601 format or relative time (e.g., "
        +:+ in_quotes "now" +:+ ")");
     optional_with_default "limit" ZodNumber (JsNumber 100%Z)
       "Maximum number of spans to return (default: 100)"]
    (SearchSpans spansApi).

End Traces.

(** ** [tools.ts] *)

Module Tools.

(** [interface DatadogAPIs] of [auth.ts] *)
Record V1 : Type := { metrics : Metrics.MetricsApi; monitors : Monitors.MonitorsApi }.
Record V2 : Type := { logs : Logs.LogsApi; spans : Traces.SpansApi }.
Record DatadogAPIs : Type := { v1 : V1; v2 : V2 }.

Definition configureIfDomainEnabled (enabledDomains : list Domain)
    (domain : Domain) (configureFn : M unit) : M unit :=
  if includes enabledDomains domain
  then
    Logger.debug ("Configuring " +:+ domain +:+ " tools") [] ;;;
    configureFn
  else
    Logger.debug ("Skipping " +:+ domain +:+ " tools (domain not enabled)") [].

Definition registerTools (enabledDomains : list Domain) (apis : DatadogAPIs)
    : M unit :=
  Logger.info "Registering tools for enabled domains"
    [("enabledDomains", JsString (join ", " enabledDomains))] ;;;
  configureIfDomainEnabled enabledDomains "metrics"
    (Metrics.configureMetricsTools (metrics (v1 apis))) ;;;
  configureIfDomainEnabled enabledDomains "logs"
    (Logs.configureLogsTools (logs (v2 apis))) ;;;
  configureIfDomainEnabled enabledDomains "monitors"
    (Monitors.configureMonitorsTools (monitors (v1 apis))) ;;;
  configureIfDomainEnabled enabledDomains "traces"
    (Traces.configureTracesTools (spans (v2 apis))) ;;;
  Logger.info "Tool registration complete" [].

(** The names of the tools of the enabled domains, in the order in which
    [registerTools] configures the domains. *)
Definition enabled_tools (enabledDomains : list Domain) : list string :=
  (if includes enabledDomains "metrics" then ["query_metrics"] else [])
  ++ (if includes enabledDomains "logs" then ["search_logs"] else [])
  ++ (if includes enabledDomains "monitors"
      then ["get_monitor"; "list_monitors"] else [])
  ++ (if includes enabledDomains "traces" then ["search_spans"] else []).

(** The tools of each domain, by name. *)
Definition domain_of_tool (tool : string) : option Domain :=
  if String.eqb tool "query_metrics" then Some "metrics"
  else if String.eqb tool "search_logs" then Some "logs"
  else if String.eqb tool "get_monitor" then Some "monitors"
  else if String.eqb tool "list_monitors" then Some "monitors"
  else if String.eqb tool "search_spans" then Some "traces"
  else None.

(** A call of a registered tool, as the server dispatches it: the handler
    registered under the tool's name (with the API object it closes over)
    and the validated arguments. *)
Inductive Invocation : Type :=
| query_metrics (metricsApi : Metrics.MetricsApi) (args : Metrics.Args)
| search_logs (logsApi : Logs.LogsApi) (args : Logs.Args)
| get_monitor (monitorsApi : Monitors.MonitorsApi) (args : Monitors.GetArgs)
| list_monitors (monitorsApi : Monitors.MonitorsApi) (args : Monitors.ListArgs)
| search_spans (spansApi : Traces.SpansApi) (args : Traces.Args).

(** The arguments a registered handler takes, and the function it is. *)
Definition HandlerArgs (h : Handler) : Type :=
  match h with
  | QueryMetrics _ => Metrics.Args
  | SearchLogs _ => Logs.Args
  | GetMonitor _ => Monitors.GetArgs
  | ListMonitors _ => Monitors.ListArgs
  | SearchSpans _ => Traces.Args
  end.

Definition call (h : Handler) : HandlerArgs h -> M ToolResult :=
  match h with
  | QueryMetrics api => Metrics.query_metrics_handler api
  | SearchLogs api => Logs.search_logs_handler api
  | GetMonitor api => Monitors.get_monitor_handler api
  | ListMonitors api => Monitors.list_monitors_handler api
  | SearchSpans api => Traces.search_spans_handler api
  end.

Definition tool_of (i : Invocation) : string :=
  match i with
  | query_metrics _ _ => "query_metrics"
  | search_logs _ _ => "search_logs"
  | get_monitor _ _ => "get_monitor"
  | list_monitors _ _ => "list_monitors"
  | search_spans _ _ => "search_spans"
  end.

Definition outcome_map {A B} (f : A -> B) (o : Outcome A) : Outcome B :=
  match o with
  | Resolved a => Resolved (f a)
  | Rejected t => Rejected t
  end.

(** The request the handler sends and the method it sends it to. *)
Definition request_of (i : Invocation) : ApiCall :=
  match i with
  | query_metrics _ args =>
      {| api_method := "queryMetrics";
         api_request := Metrics.query_metrics_request args |}
  | search_logs _ args =>
      {| api_method := "listLogs"; api_request := Logs.search_logs_request args |}
  | get_monitor _ args =>
      {| api_method := "getMonitor";
         api_request := Monitors.get_monitor_request args |}
  | list_monitors _ args =>
      {| api_method := "listMonitors";
         api_request := Monitors.list_monitors_params args |}
  | search_spans _ args =>
      {| api_method := "listSpans";
         api_request := Traces.search_spans_request args |}
  end.

(** How the Datadog API call of the invocation settles, the response as the
    value handed to [JSON.stringify]. *)
Definition api_outcome (i : Invocation) : Outcome JsValue :=
  match i with
  | query_metrics api args =>
      outcome_map JsObject
        (Metrics.queryMetrics api (Metrics.query_metrics_request args))
  | search_logs api args =>
      outcome_map JsObject (Logs.listLogs api (Logs.search_logs_request args))
  | get_monitor api args =>
      outcome_map JsObject
        (Monitors.getMonitor api (Monitors.get_monitor_request args))
  | list_monitors api args =>
      outcome_map JsArray
        (Monitors.listMonitors api (Monitors.list_monitors_params args))
  | search_spans api args =>
      outcome_map JsObject
        (Traces.listSpans api (Traces.search_spans_request args))
  end.

(** The text each handler puts before the error message. *)
Definition failure_prefix (i : Invocation) : string :=
  match i with
  | query_metrics _ _ => "Error querying metrics: "
  | search_logs _ _ => "Error searching logs: "
  | get_monitor _ _ => "Error getting monitor: "
  | list_monitors _ _ => "Error listing monitors: "
  | search_spans _ _ => "Error searching spans: "
  end.

Definition handler (i : Invocation) : M ToolResult :=
  match i with
  | query_metrics api args => Metrics.query_metrics_handler api args
  | search_logs api args => Logs.search_logs_handler api args
  | get_monitor api args => Monitors.get_monitor_handler api args
  | list_monitors api args => Monitors.list_monitors_handler api args
  | search_spans api args => Traces.search_spans_handler api args
  end.

(** What a handler returns, by the outcome of its API call. *)
Definition settled_result (i : Invocation) : ToolResult :=
  match api_outcome i with
  | Resolved response =>
      {| content := [{| type := "text"; text := JSON.stringify response 2 |}];
         isError := None |}
  | Rejected error =>
      {| content :=
           [{| type := "text";
               text := failure_prefix i +:+ errorMessage_of error |}];
         isError := Some true |}
  end.

End Tools.

(** ** The doubles of the repository's tests *)

Module Fixtures.

(** A freshly started server process at the default log level. *)
Definition started : World :=
  {| stdout := []; stderr := []; logger_level := Logger.initial_level None;
     server_tools := []; api_calls := [] |}.

(** [mockLogsApi.listLogs.mockRejectedValue(new Error('Invalid query syntax'))] *)
Definition rejecting_logs : Logs.LogsApi :=
  {| Datadog.listLogs := fun _ => Rejected (ErrorInstance "Invalid query syntax") |}.

(** The [mockResponse] of the log search test. *)
Definition logs_response : ResponseObject :=
  [("data",
    JsArray
      [JsObject
         [("id", JsString "log-1");
          ("attributes",
           JsObject
             [("timestamp", JsString "2024-01-01T10:00:00Z");
              ("message", JsString "Error processing request");
              ("status", JsString "error")])]])].

(** [mockLogsApi.listLogs.mockResolvedValue(mockResponse)] *)
Definition resolving_logs : Logs.LogsApi :=
  {| Datadog.listLogs := fun _ => Resolved logs_response |}.

Definition logs_args : Logs.Args :=
  {| Logs.query := "status:error"; Logs.from := "now-15m"; Logs.to := "now";
     Logs.limit := 10%Z |}.

(** The [mockResponse] of the metrics query test, with its two points
    [[1704067200000, 25.5]] and [[1704067260000, 30.2]]. *)
Definition metrics_response : ResponseObject :=
  [("series",
    JsArray
      [JsObject
         [("metric", JsString "system.cpu.user");
          ("points",
           JsArray
             [JsArray [JsNumber 1704067200000%Z;
                       JsNumber (Number.Finite false "255" 2 eq_refl)];
              JsArray [JsNumber 1704067260000%Z;
                       JsNumber (Number.Finite false "302" 2 eq_refl)]]);
          ("scope", JsString "*");
          ("unit",
           JsArray
             [JsObject [("family", JsString "percentage");
                        ("name", JsString "percent")]])]]);
   ("status", JsString "ok")].

(** [mockMetricsApi.queryMetrics.mockResolvedValue(mockResponse)] *)
Definition resolving_metrics : Metrics.MetricsApi :=
  {| Datadog.queryMetrics := fun _ => Resolved metrics_response |}.

Definition metrics_args : Metrics.Args :=
  {| Metrics.query := "avg:system.cpu.user{*}";
     Metrics.from := 1704067200%Z; Metrics.to := 1704070800%Z |}.

(** A log search response as the Datadog client builds it, the timestamp
    of the log a [Date]. *)
Definition dated_logs_response : ResponseObject :=
  [("data",
    JsArray
      [JsObject
         [("id", JsString "log-1");
          ("attributes",
           JsObject
             [("timestamp",
               JsDate (Some "2024-01-01T10:00:00.000Z")
                 "Mon Jan 01 2024 10:00:00 GMT+0000 (Coordinated Universal Time)");
              ("message", JsString "Error processing request");
              ("status", JsString "error")])]])].

Definition dated_logs : Logs.LogsApi :=
  {| Datadog.listLogs := fun _ => Resolved dated_logs_response |}.

(** A server on which [query_metrics] is registered already. *)
Definition holding_query_metrics : World :=
  world_of (Metrics.configureMetricsTools resolving_metrics started).

End Fixtures.

(** Registering [new] one after the other on a server holding [tools]:
    the error of the first name the server holds already, or the tools once
    all are added. *)
Fixpoint register_each (new tools : list ToolRegistration)
    : (Thrown + unit) * list ToolRegistration :=
  match new with
  | [] => (inr tt, tools)
  | registration :: rest =>
      if has_tool (tool_name registration) tools
      then (inl (already_registered (tool_name registration)), tools)
      else register_each rest (tools ++ [registration])
  end.

(** A computation that registers the tools [new] in this order, as far as
    [server.tool] lets it, and neither calls the Datadog API nor changes the
    log level. *)
Definition registers (new : list ToolRegistration) (m : M unit) : Prop :=
  forall w : World,
    result_of (m w) = fst (register_each new (server_tools w))
    /\ server_tools (world_of (m w)) = snd (register_each new (server_tools w))
    /\ api_calls (world_of (m w)) = api_calls w
    /\ logger_level (world_of (m w)) = logger_level w.

(** A computation that logs [records] and then [final], each record if the
    level of the logger lets it through, and leaves that level as it was.
    When it throws, it has logged the first of [records] only. *)
Definition emits (records final : list LogRecord) (m : M unit) : Prop :=
  forall w : World,
    logger_level (world_of (m w)) = logger_level w
    /\ exists logged : list LogRecord,
         stderr (world_of (m w)) =
         stderr w ++
         map LogLine
           (List.filter
              (fun record =>
                 Logger.level_enabled (logger_level w) (log_level record))
              logged)
         /\ match result_of (m w) with
            | inr _ => logged = records ++ final
            | inl _ => exists rest : list LogRecord, records = logged ++ rest
            end.

(** ** [auth.ts] *)

Module Auth.

(** [process.env] *)
Definition Env := string -> option string.

Record DatadogConfig : Type := {
  apiKey : string;
  appKey : string;
  site : string
}.

(** An environment variable that is set and not empty, the values JavaScript
    takes as true. *)
Definition present (value : option string) : option string :=
  match value with
  | Some s => if truthy (JsString s) then Some s else None
  | None => None
  end.

(** [value || fallback] *)
Definition or_else (value : option string) (fallback : string) : string :=
  match present value with
  | Some s => s
  | None => fallback
  end.

Definition throw {A} (e : Thrown) : M A := fun w => (inl e, w).

Definition missing_credentials : Thrown :=
  ErrorInstance
    "Missing required environment variables: DD_API_KEY and DD_APP_KEY must be set".

Definition loadDatadogConfig (env : Env) : M DatadogConfig :=
  let apiKey := env "DD_API_KEY" in
  let appKey := env "DD_APP_KEY" in
  let site := or_else (env "DD_SITE") "datadoghq.com" in
  match present apiKey, present appKey with
  | Some apiKey, Some appKey =>
      Logger.info "Loaded Datadog configuration"
        [("site", JsString site);
         ("apiKeyPresent", JsBool (truthy (JsString apiKey)));
         ("appKeyPresent", JsBool (truthy (JsString appKey)))] ;;;
      ret {| apiKey := apiKey; appKey := appKey; site := site |}
  | _, _ => throw missing_credentials
  end.

(** The configuration object built from [config] stays local to the
    function; what the process shows of the call is its log record. *)
Definition configureDatadogClient (config : DatadogConfig) : M unit :=
  Logger.info "Configured Datadog API client" [("site", JsString (site config))].

End Auth.

(** ** The entry point [main] *)

Module Main.

(** The parsed command line: [--domains] and [--log-level]. *)
Record Argv : Type := {
  domains : list string;
  logLevel : string
}.

(** What [yargs(...).parse()] yields: the options, or for [--help] and
    [--version] the text that [yargs] has written to standard output before
    ending the process with code 0.  No option is required or restricted in
    its values, so there is no command line that [yargs] refuses. *)
Inductive CommandLine : Type :=
| Options (argv : Argv)
| Shown (text : string).

(** How [main] leaves the process: serving on the transport, or ended by
    [process.exit(code)]. *)
Inductive Status : Type :=
| Serving
| Exited (code : nat).

(** [String(value)] *)
Fixpoint js_String (v : JsValue) : string :=
  match v with
  | JsUndefined => "undefined"
  | JsNull => "null"
  | JsBool true => "true"
  | JsBool false => "false"
  | JsNumber n => Number.to_text n
  | JsString s => s
  | JsArray items =>
      join ","
        (map (fun item =>
                match item with
                | JsUndefined | JsNull => ""
                | _ => js_String item
                end) items)
  | JsObject _ => "[object Object]"
  | JsDate _ shown => shown
  end.

(** [error instanceof Error ? error.message : String(error)] *)
Definition describe (error : Thrown) : string :=
  match error with
  | ErrorInstance message => message
  | NonError v => js_String v
  end.

(** [logger.level = level] *)
Definition set_level (level : string) : M unit :=
  fun w =>
    (inr tt,
     {| stdout := stdout w; stderr := stderr w; logger_level := level;
        server_tools := server_tools w; api_calls := api_calls w |}).

(** [new McpServer(...)]: the server the tools are registered on from here
    on has none yet. *)
Definition new_McpServer : M unit :=
  fun w =>
    (inr tt,
     {| stdout := stdout w; stderr := stderr w; logger_level := logger_level w;
        server_tools := []; api_calls := api_calls w |}).

(** A value that is returned or thrown where it is computed. *)
Definition lift {A} (r : Thrown + A) : M A := fun w => (r, w).

(** [await promise] on a promise of the MCP server. *)
Definition settle {A} (outcome : Outcome A) : M A :=
  fun w =>
    match outcome with
    | Resolved a => (inr a, w)
    | Rejected t => (inl t, w)
    end.

(** Text written to standard output as it is. *)
Definition print (text : string) : M unit :=
  fun w => (inr tt, write Stdout (Text text) w).

(** [main], once the options are parsed. *)
Definition start (env : Auth.Env) (argv : Argv) (apis : Tools.DatadogAPIs)
    (connect : Outcome unit) : M Status :=
  (if truthy (JsString (logLevel argv)) then set_level (logLevel argv) else ret tt) ;;;
  Logger.info "Starting Datadog MCP Server" [] ;;;
  try_catch
    (config <- Auth.loadDatadogConfig env ;;
     Auth.configureDatadogClient config ;;;
     enabledDomains <- lift (parseDomains (domains argv)) ;;
     Logger.info "Enabled domains"
       [("domains", JsString (join ", " enabledDomains))] ;;;
     new_McpServer ;;;
     Tools.registerTools enabledDomains apis ;;;
     settle connect ;;;
     Logger.info "Datadog MCP Server running on stdio transport" [] ;;;
     ret Serving)
    (fun error =>
       Logger.error "Failed to start Datadog MCP Server"
         [("error", JsString (describe error))] ;;;
       ret (Exited 1)).

(** [main]; [parse] is how [await yargs(...).parse()] settles, [apis] what
    [createDatadogAPIs] built, [connect] how [server.connect(transport)]
    settles. *)
Definition main (env : Auth.Env) (parse : Outcome CommandLine)
    (apis : Tools.DatadogAPIs) (connect : Outcome unit) : M Status :=
  commandLine <- settle parse ;;
  match commandLine with
  | Shown text => print text ;;; ret (Exited 0)
  | Options argv => start env argv apis connect
  end.

(** [main().catch(...)], the statement that runs the module. *)
Definition run (env : Auth.Env) (parse : Outcome CommandLine)
    (apis : Tools.DatadogAPIs) (connect : Outcome unit) : M Status :=
  try_catch (main env parse apis connect)
    (fun error =>
       Logger.error "Unhandled error in main"
         [("error", JsString (describe error))] ;;;
       ret (Exited 1)).

(** The worlds [main] passes through once the options are parsed: on
    entering its [try] block, once
    the configuration is loaded and the client configured, and once the
    tools are registered on the new server. *)
Definition entered (argv : Argv) (w : World) : World :=
  Logger.logged "info" "Starting Datadog MCP Server" []
    (if truthy (JsString (logLevel argv))
     then world_of (set_level (logLevel argv) w)
     else w).

Definition configured (env : Auth.Env) (argv : Argv) (w : World)
    (apiKey appKey : string) : World :=
  let site := Auth.or_else (env "DD_SITE") "datadoghq.com" in
  Logger.logged "info" "Configured Datadog API client" [("site", JsString site)]
    (Logger.logged "info" "Loaded Datadog configuration"
       [("site", JsString site);
        ("apiKeyPresent", JsBool (truthy (JsString apiKey)));
        ("appKeyPresent", JsBool (truthy (JsString appKey)))]
       (entered argv w)).

Definition registered (env : Auth.Env) (argv : Argv) (apis : Tools.DatadogAPIs)
    (w : World) (apiKey appKey : string) (enabledDomains : list string) : World :=
  world_of
    (Tools.registerTools enabledDomains apis
       (world_of
          (new_McpServer
             (Logger.logged "info" "Enabled domains"
                [("domains", JsString (join ", " enabledDomains))]
                (configured env argv w apiKey appKey))))).

(** The [catch] block of [main], entered with [error] in world [w]. *)
Definition failed (error : Thrown) (w : World) : (Thrown + Status) * World :=
  (inr (Exited 1),
   Logger.logged "error" "Failed to start Datadog MCP Server"
     [("error", JsString (describe error))] w).

(** A world [main] can be in when it started in [w] and the options are
    parsed: standard output as
    it was, only log lines added to standard error, no call of the Datadog
    API, and the log level of the command line. *)
Definition reached (argv : Argv) (w at_ : World) : Prop :=
  stdout at_ = stdout w
  /\ (exists records : list LogRecord,
        stderr at_ = stderr w ++ map LogLine records)
  /\ api_calls at_ = api_calls w
  /\ logger_level at_ =
     (if truthy (JsString (logLevel argv)) then logLevel argv
      else logger_level w).

End Main.

(** Sample starts of the server. *)
Module Startup.

Definition env_with_keys : Auth.Env :=
  fun name =>
    if String.eqb name "DD_API_KEY" then Some "api-key"
    else if String.eqb name "DD_APP_KEY" then Some "app-key"
    else None.

Definition env_without_keys : Auth.Env := fun _ => None.

(** The options [yargs] yields when the command line gives none. *)
Definition default_argv : Main.Argv :=
  {| Main.domains := ALL_DOMAINS; Main.logLevel := "info" |}.

Definition logs_only : Main.Argv :=
  {| Main.domains := ["logs"]; Main.logLevel := "debug" |}.

Definition unknown_domain : Main.Argv :=
  {| Main.domains := ["logs"; "events"]; Main.logLevel := "info" |}.

(** A client whose every call is refused. *)
Definition refused {A} : ApiMethod A :=
  fun _ => Rejected (ErrorInstance "Forbidden").

Definition apis : Tools.DatadogAPIs :=
  {| Tools.v1 :=
       {| Tools.metrics := {| Datadog.queryMetrics := refused |};
          Tools.monitors := {| Datadog.getMonitor := refused;
                               Datadog.listMonitors := refused |} |};
     Tools.v2 :=
       {| Tools.logs := {| Datadog.listLogs := refused |};
          Tools.spans := {| Datadog.listSpans := refused |} |} |}.

End Startup.

(** * The orchestration core

    The State Store, the Pipeline Executor and the RPC Engine are described by
    the specification only; their definitions below follow its sections 4.2
    to 4.6. *)

(** ** State Store (section 4.5) *)

Module StateStore.

Inductive StoreError : Type :=
| DuplicateKey (key : string)
| MissingKey (key : string).

(** Modelled from the spec: the State Store, "an insertion-ordered mapping
    from stage identifier to a single stage output"; the bindings are kept in
    the order they were written. *)
Definition Store := list (string * string).

Definition empty : Store := [].

(** Modelled from the spec: [get(key) -> value], which "fails with
    [MissingKey] if absent". *)
Fixpoint get (key : string) (s : Store) : StoreError + string :=
  match s with
  | [] => inl (MissingKey key)
  | (k, v) :: rest => if String.eqb k key then inr v else get key rest
  end.

(** Modelled from the spec: [set(key, value)], which "fails with
    [DuplicateKey] if key already set"; the store is returned with the
    result, so that a failed [set] shows what it left behind. *)
Definition set (key value : string) (s : Store) : (StoreError + unit) * Store :=
  match get key s with
  | inr _ => (inl (DuplicateKey key), s)
  | inl _ => (inr tt, s ++ [(key, value)])
  end.

(** A template, already split into its literal text and its [{key}]
    occurrences. *)
Inductive Segment : Type :=
| Literal (text : string)
| Placeholder (key : string).

Definition Template := list Segment.

(** Modelled from the spec: [render(template)], "substituting every [{key}]
    occurrence with [get(key)], failing the whole render with [MissingKey]
    if any referenced key is absent". *)
Fixpoint render (t : Template) (s : Store) : StoreError + string :=
  match t with
  | [] => inr ""
  | Literal text :: rest =>
      match render rest s with
      | inl e => inl e
      | inr out => inr (text +:+ out)
      end
  | Placeholder key :: rest =>
      match get key s with
      | inl e => inl e
      | inr v =>
          match render rest s with
          | inl e => inl e
          | inr out => inr (v +:+ out)
          end
      end
  end.

(** The writes of one session, in order: each [set] and what it answered. *)
Fixpoint run_sets (writes : list (string * string)) (s : Store)
    : list (string * (StoreError + unit)) * Store :=
  match writes with
  | [] => ([], s)
  | (k, v) :: rest =>
      let '(r, s') := set k v s in
      let '(log, s'') := run_sets rest s' in
      ((k, r) :: log, s'')
  end.

Definition succeeded (key : string) (entry : string * (StoreError + unit)) : bool :=
  match entry with
  | (k, inr _) => String.eqb k key
  | (_, inl _) => false
  end.

End StateStore.

(** ** Pipeline Executor (section 4.6) *)

Module Pipeline.
Import StateStore.

Record Stage : Type := {
  identifier : string;
  tools : list string;
  output_key : string;
  template : Template
}.

Inductive Cause : Type :=
| RenderFailed (e : StoreError)
| BodyFailed (reason : string)
| OutputRejected (e : StoreError).

Inductive Status : Type :=
| Pending
| Running (stageIndex : nat)
| Completed
| Failed (stageIndex : nat) (cause : Cause).

(** The session: its store, its status, and the indices of the stages whose
    body was executed, in order. *)
Record Session : Type := {
  store : Store;
  status : Status;
  executed : list nat
}.

Definition initial : Session :=
  {| store := empty; status := Pending; executed := [] |}.

Section Executor.

(** The body of a stage is external to the core: given the stage and its
    rendered instructions it fails with a reason or produces an output. *)
Variable body : Stage -> string -> string + string.

(** Modelled from the spec: the execution of one stage against the store:
    "render its instruction template from current State Store; if render
    fails, transition to [Failed] immediately (no partial stage execution).
    Otherwise execute the stage body; on stage success, [set] its declared
    output key".  A [set] the store refuses fails the stage.  The result is
    the cause of the failure or the store with the output written. *)
Definition attempt (stage : Stage) (s : Store) : Cause + Store :=
  match render (template stage) s with
  | inl e => inl (RenderFailed e)
  | inr instructions =>
      match body stage instructions with
      | inl reason => inl (BodyFailed reason)
      | inr output =>
          match set (output_key stage) output s with
          | (inl e, _) => inl (OutputRejected e)
          | (inr _, s') => inr s'
          end
      end
  end.

(** The body of a stage is executed when its template renders. *)
Definition body_runs (stage : Stage) (s : Store) : bool :=
  match render (template stage) s with
  | inl _ => false
  | inr _ => true
  end.

(** Modelled from the spec: the transitions of the per-session state machine
    [Pending -> Running(stageIndex) -> {Completed | Failed(stageIndex, cause)}]:
    "transitions to [Running(0)] on start"; "on stage success ... transition
    to [Running(i+1)]; on stage failure, transition to [Failed(i, cause)]";
    "reaching the end of the stage list with no failure transitions to
    [Completed]". *)
Definition step (stages : list Stage) (s : Session) : Session :=
  match status s with
  | Pending => {| store := store s; status := Running 0; executed := executed s |}
  | Running i =>
      match stages !! i with
      | None => {| store := store s; status := Completed; executed := executed s |}
      | Some stage =>
          let executed' :=
            executed s ++ (if body_runs stage (store s) then [i] else []) in
          match attempt stage (store s) with
          | inl cause =>
              {| store := store s; status := Failed i cause; executed := executed' |}
          | inr store' =>
              {| store := store'; status := Running (S i); executed := executed' |}
          end
      end
  | Completed | Failed _ _ => s
  end.

(** The session after [n] transitions. *)
Definition session_after (stages : list Stage) (n : nat) : Session :=
  Nat.iter n (step stages) initial.

(** Modelled from the spec: one run of the pipeline, "strictly sequential";
    a session of [k] stages is over after at most [k + 2] transitions. *)
Definition run (stages : list Stage) : Session :=
  session_after stages (length stages + 2).

End Executor.

(** What holds of a session in each status: the keys of the store are the
    output keys of the stages that completed, in order, and no stage beyond
    the current one has been executed. *)
Definition consistent (stages : list Stage) (s : Session) : Prop :=
  match status s with
  | Pending => store s = empty /\ executed s = []
  | Running i =>
      i <= length stages
      /\ map fst (store s) = map output_key (take i stages)
      /\ Forall (fun j => j < i) (executed s)
  | Completed =>
      map fst (store s) = map output_key stages
      /\ Forall (fun j => j < length stages) (executed s)
  | Failed i _ =>
      i < length stages
      /\ map fst (store s) = map output_key (take i stages)
      /\ Forall (fun j => j <= i) (executed s)
  end.

End Pipeline.

(** ** RPC Engine and capability negotiation (sections 4.2 and 4.3) *)

Module Engine.

Inductive Method : Type :=
| Negotiate
| Invoke (category operation : string).

Inductive Payload : Type :=
| Capabilities (declared : list string)
| Data (value : string).

Record Request : Type := {
  request_id : nat;
  request_method : Method;
  request_params : string
}.

(** [Response{id, result|error}] *)
Record Response : Type := {
  response_id : nat;
  response_result : string + Payload
}.

Inductive CallError : Type :=
| NotNegotiated
| CapabilityNotSupported
| Timeout.

(** How a call ends for its caller. *)
Inductive Resolution : Type :=
| Answered (r : Response)
| Refused (e : CallError).

Record PendingCall : Type := { caller : nat; pending_method : Method }.

Record Resolved : Type := {
  resolved_call : nat;
  resolved_method : Method;
  resolved_with : Resolution
}.

(** Modelled from the spec: one open Connection as the Engine sees it: the
    remote capabilities once negotiation has completed, the next correlation
    id, the calls in flight by correlation id, the Requests written to the
    Transport, and two logs kept for the statements below: which call was
    written under which id, and how each call ended.  Calls are numbered in
    the order they are issued. *)
Record Connection : Type := {
  negotiated : option (list string);
  next_id : nat;
  next_call : nat;
  pending : gmap nat PendingCall;
  written : list Request;
  issued : list (nat * nat);
  resolutions : list Resolved
}.

Definition fresh : Connection :=
  {| negotiated := None; next_id := 0; next_call := 0; pending := ∅;
     written := []; issued := []; resolutions := [] |}.

(** Modelled from the spec: the two local guards of [call]: "rejecting
    non-negotiation calls issued before negotiation resolves, with
    [NotNegotiated]", and after negotiation a method "whose category is
    absent from the remote's declared set fails locally with
    [CapabilityNotSupported] without sending a message". *)
Definition guard (m : Method) (c : Connection) : option CallError :=
  match m with
  | Negotiate => None
  | Invoke category _ =>
      match negotiated c with
      | None => Some NotNegotiated
      | Some declared =>
          if includes declared category then None else Some CapabilityNotSupported
      end
  end.

(** Modelled from the spec: [call(method, params, timeout)], which
    "allocates a fresh correlation id, writes a Request, and suspends the
    caller until a Response with matching id arrives". *)
Definition call (m : Method) (params : string) (c : Connection) : Connection :=
  match guard m c with
  | Some e =>
      {| negotiated := negotiated c; next_id := next_id c;
         next_call := S (next_call c); pending := pending c;
         written := written c; issued := issued c;
         resolutions :=
           resolutions c ++
           [{| resolved_call := next_call c; resolved_method := m;
               resolved_with := Refused e |}] |}
  | None =>
      {| negotiated := negotiated c; next_id := S (next_id c);
         next_call := S (next_call c);
         pending :=
           <[next_id c := {| caller := next_call c; pending_method := m |}]>
             (pending c);
         written :=
           written c ++
           [{| request_id := next_id c; request_method := m;
               request_params := params |}];
         issued := issued c ++ [(next_call c, next_id c)];
         resolutions := resolutions c |}
  end.

(** Negotiation completes when the negotiation call is answered with the
    remote declaration; the set is "immutable after negotiation completes". *)
Definition negotiated_after (p : PendingCall) (r : Response) (c : Connection)
    : option (list string) :=
  match pending_method p, negotiated c, response_result r with
  | Negotiate, None, inr (Capabilities declared) => Some declared
  | _, _, _ => negotiated c
  end.

(** Modelled from the spec: the arrival of a Response: it is routed "to its
    waiting caller by id regardless of arrival order"; "Responses arriving
    for unknown/already-resolved ids are logged and discarded". *)
Definition receive (r : Response) (c : Connection) : Connection :=
  match pending c !! response_id r with
  | None => c
  | Some p =>
      {| negotiated := negotiated_after p r c; next_id := next_id c;
         next_call := next_call c;
         pending := delete (response_id r) (pending c);
         written := written c; issued := issued c;
         resolutions :=
           resolutions c ++
           [{| resolved_call := caller p; resolved_method := pending_method p;
               resolved_with := Answered r |}] |}
  end.

(** Modelled from the spec: the expiry of a call's timeout: "the call
    resolves with [Timeout] for the caller, but the underlying Connection is
    not automatically closed". *)
Definition expire (id : nat) (c : Connection) : Connection :=
  match pending c !! id with
  | None => c
  | Some p =>
      {| negotiated := negotiated c; next_id := next_id c;
         next_call := next_call c;
         pending := delete id (pending c);
         written := written c; issued := issued c;
         resolutions :=
           resolutions c ++
           [{| resolved_call := caller p; resolved_method := pending_method p;
               resolved_with := Refused Timeout |}] |}
  end.

(** What can happen on a Connection, in any interleaving. *)
Inductive Event : Type :=
| Call (m : Method) (params : string)
| Receive (r : Response)
| Expire (id : nat).

Definition handle (c : Connection) (e : Event) : Connection :=
  match e with
  | Call m params => call m params c
  | Receive r => receive r c
  | Expire id => expire id c
  end.

Definition after (events : list Event) : Connection := fold_left handle events fresh.

(** How call [h] ended, if it did: every resolution recorded for it. *)
Definition resolutions_of (h : nat) (c : Connection) : list Resolution :=
  map resolved_with (filter (fun x => resolved_call x = h) (resolutions c)).

Definition successful (r : Resolution) : bool :=
  match r with
  | Answered {| response_result := inr _ |} => true
  | _ => false
  end.

(** What holds of a Connection after any events: a call in flight was
    written under the id it waits on, has not ended, and waits on one id
    only; a call that ended was issued before; a call answered with a
    Response was written under the id of that Response; calls and ids are
    paired one to one. *)
Record well_formed (c : Connection) : Prop := {
  wf_pending :
    forall id p, pending c !! id = Some p ->
      In (caller p, id) (issued c)
      /\ resolutions_of (caller p) c = []
      /\ caller p < next_call c;
  wf_waiting :
    forall id1 id2 p1 p2,
      pending c !! id1 = Some p1 -> pending c !! id2 = Some p2 ->
      caller p1 = caller p2 -> id1 = id2;
  wf_resolved :
    forall x, In x (resolutions c) -> resolved_call x < next_call c;
  wf_routed :
    forall x r, In x (resolutions c) -> resolved_with x = Answered r ->
      In (resolved_call x, response_id r) (issued c);
  wf_issued :
    forall h id, In (h, id) (issued c) -> h < next_call c /\ id < next_id c;
  wf_calls : NoDup (map fst (issued c));
  wf_ids : NoDup (map snd (issued c))
}.

(** While negotiation has not completed, only the negotiation call is in
    flight and every other call that ended was refused. *)
Definition awaiting_negotiation (c : Connection) : Prop :=
  negotiated c = None ->
  (forall id p, pending c !! id = Some p -> pending_method p = Negotiate)
  /\ (forall x, In x (resolutions c) -> resolved_method x <> Negotiate ->
         resolved_with x = Refused NotNegotiated).

End Engine.

(** ** The scenarios of the specification *)

Module Scenario.
Import StateStore Pipeline Engine.

(** The three-stage pipeline of section 8: [investigate] uses two tools,
    [decide] none, [act] one and refers to [{investigate}] and [{decide}]. *)
Definition investigate : Stage :=
  {| identifier := "investigate";
     tools := ["query_metrics"; "search_logs"];
     output_key := "investigate";
     template := [Literal "Investigate the alert."] |}.

Definition decide : Stage :=
  {| identifier := "decide";
     tools := [];
     output_key := "decide";
     template := [Literal "Decide on: "; Placeholder "investigate"] |}.

Definition act : Stage :=
  {| identifier := "act";
     tools := ["create_work_item"];
     output_key := "act";
     template :=
       [Literal "Act on "; Placeholder "decide"; Literal " for ";
        Placeholder "investigate"] |}.

Definition stages : list Stage := [investigate; decide; act].

(** Stage bodies that echo their instructions; in the second scenario the
    stage [decide] fails. *)
Definition echo (stage : Stage) (instructions : string) : string + string :=
  inr instructions.

Definition failing_decide (stage : Stage) (instructions : string) : string + string :=
  if String.eqb (identifier stage) "decide" then inl "no decision"
  else inr instructions.

(** A Connection on which negotiation has completed and two tool calls are
    in flight, written under the ids 1 and 2. *)
Definition two_calls_in_flight : list Event :=
  [Call Negotiate "client";
   Receive {| response_id := 0; response_result := inr (Capabilities ["tools"]) |};
   Call (Invoke "tools" "query_metrics") "avg:system.cpu.user{*}";
   Call (Invoke "tools" "search_logs") "status:error"].

Definition logs_answer : Response :=
  {| response_id := 2; response_result := inr (Data "logs") |}.

Definition metrics_answer : Response :=
  {| response_id := 1; response_result := inr (Data "metrics") |}.

End Scenario.

(** * Properties *)

(** ** The runtime *)

Lemma includes_In (l : list string) (x : string) : includes l x = true <-> In x l.
Proof.
  unfold includes. rewrite existsb_exists. split.
  - intros [y [Hy Heq]]. apply String.eqb_eq in Heq. now subst.
  - intros Hx. exists x. split; [assumption | apply String.eqb_refl].
Qed.

Lemma includes_not_In (l : list string) (x : string) :
  includes l x = false <-> ~ In x l.
Proof.
  rewrite <- includes_In. destruct (includes l x); split; congruence.
Qed.

Section LoggedWorld.
Variables (level message : string) (meta : list (string * JsValue)) (w : World).

Lemma stdout_logged : stdout (Logger.logged level message meta w) = stdout w.
Proof. unfold Logger.logged. destruct (Logger.level_enabled _ _); reflexivity. Qed.

Lemma stderr_logged :
  stderr (Logger.logged level message meta w) =
  stderr w ++
  (if Logger.level_enabled (logger_level w) level
   then [LogLine {| log_level := level; log_message := message; log_meta := meta |}]
   else []).
Proof.
  unfold Logger.logged. destruct (Logger.level_enabled _ _); simpl.
  - reflexivity.
  - symmetry. apply app_nil_r.
Qed.

Lemma logger_level_logged :
  logger_level (Logger.logged level message meta w) = logger_level w.
Proof. unfold Logger.logged. destruct (Logger.level_enabled _ _); reflexivity. Qed.

Lemma server_tools_logged :
  server_tools (Logger.logged level message meta w) = server_tools w.
Proof. unfold Logger.logged. destruct (Logger.level_enabled _ _); reflexivity. Qed.

Lemma api_calls_logged :
  api_calls (Logger.logged level message meta w) = api_calls w.
Proof. unfold Logger.logged. destruct (Logger.level_enabled _ _); reflexivity. Qed.

End LoggedWorld.

Create Rewrite HintDb world.
#[export] Hint Rewrite stdout_logged logger_level_logged server_tools_logged
  api_calls_logged : world.

(** ** [parseDomains] *)

Lemma parseDomains_loop_valid (valid rest acc : list string) :
  Forall (fun d => In d ALL_DOMAINS) valid ->
  parseDomains_loop (valid ++ rest) acc = parseDomains_loop rest (acc ++ valid).
Proof.
  intros Hvalid. revert acc.
  induction Hvalid as [| d valid Hd _ IH]; intros acc; cbn [parseDomains_loop app].
  - now rewrite app_nil_r.
  - apply includes_In in Hd. rewrite Hd, IH, <- app_assoc. reflexivity.
Qed.

(** C9.  [parseDomains] returns a non-empty list of valid domains unchanged,
    returns the four domains for the empty list, and throws an error naming
    the first element that is not a domain, whatever follows it. *)
Theorem parseDomains_spec (valid : list string) (d : string) (rest : list string) :
  Forall (fun x => In x ALL_DOMAINS) valid ->
  (valid <> [] -> parseDomains valid = inr valid)
  /\ parseDomains [] = inr ["metrics"; "logs"; "monitors"; "traces"]
  /\ (~ In d ALL_DOMAINS ->
      parseDomains (valid ++ d :: rest) =
      inl (ErrorInstance
             ("Invalid domain: " +:+ d
              +:+ ". Valid domains: metrics, logs, monitors, traces"))).
Proof.
  intros Hvalid. split; [| split].
  - intros Hne. unfold parseDomains.
    pose proof (parseDomains_loop_valid valid [] [] Hvalid) as Hloop.
    rewrite app_nil_r in Hloop. rewrite Hloop.
    cbn [parseDomains_loop app].
    destruct valid; [contradiction | reflexivity].
  - reflexivity.
  - intros Hd. unfold parseDomains.
    rewrite (parseDomains_loop_valid valid (d :: rest) [] Hvalid).
    cbn [parseDomains_loop app].
    apply includes_not_In in Hd. rewrite Hd. reflexivity.
Qed.

Lemma parseDomains_spec_witness :
  Forall (fun x => In x ALL_DOMAINS) ["logs"; "metrics"]
  /\ ["logs"; "metrics"] <> []
  /\ ~ In "events" ALL_DOMAINS
  /\ parseDomains ["logs"; "metrics"] = inr ["logs"; "metrics"]
  /\ parseDomains ["logs"; "metrics"; "events"; "traces"] =
     inl (ErrorInstance
            "Invalid domain: events. Valid domains: metrics, logs, monitors, traces").
Proof.
  assert (Hvalid : Forall (fun x => In x ALL_DOMAINS) ["logs"; "metrics"]).
  { repeat constructor; simpl; tauto. }
  assert (Hne : ["logs"; "metrics"] <> []) by discriminate.
  assert (Hd : ~ In "events" ALL_DOMAINS).
  { simpl. intros [H | [H | [H | [H | []]]]]; discriminate. }
  pose proof (parseDomains_spec ["logs"; "metrics"] "events" ["traces"] Hvalid)
    as [Hsame [_ Hthrow]].
  exact (conj Hvalid (conj Hne (conj Hd (conj (Hsame Hne) (Hthrow Hd))))).
Defined.

(** ** Numbers and their text *)

Section NumberText.
Import Number.

Lemma append_cons (x : ascii) (a b : string) :
  String x a +:+ b = String x (a +:+ b).
Proof. reflexivity. Qed.

Lemma append_nil_l (a : string) : "" +:+ a = a.
Proof. reflexivity. Qed.

Lemma append_assoc (a b c : string) : (a +:+ b) +:+ c = a +:+ (b +:+ c).
Proof.
  induction a as [| x a IH]; [reflexivity |].
  now rewrite !append_cons, IH.
Qed.

Lemma append_nil_r (a : string) : a +:+ "" = a.
Proof.
  induction a as [| x a IH]; [reflexivity |]. now rewrite append_cons, IH.
Qed.

Lemma length_append (a b : string) :
  String.length (a +:+ b) = String.length a + String.length b.
Proof.
  induction a as [| x a IH]; [reflexivity |].
  rewrite append_cons. cbn [String.length]. now rewrite IH.
Qed.

Lemma literal_end_digit_free (rest : string) : literal_end rest -> digit_free rest.
Proof.
  destruct rest as [| c rest]; [trivial |].
  cbn [literal_end digit_free]. unfold continues.
  now destruct (is_digit c).
Qed.

Lemma is_digit_In (c : ascii) :
  is_digit c = true ->
  In c ["0"; "1"; "2"; "3"; "4"; "5"; "6"; "7"; "8"; "9"]%char.
Proof.
  destruct c as [[|] [|] [|] [|] [|] [|] [|] [|]]; cbn [In];
    first [discriminate | tauto].
Qed.

Lemma is_digit_facts (c : ascii) :
  is_digit c = true ->
  Ascii.eqb c "-" = false /\ Ascii.eqb c "." = false
  /\ Ascii.eqb c "e" = false /\ Ascii.eqb c "E" = false
  /\ Ascii.eqb c "+" = false.
Proof.
  destruct c as [[|] [|] [|] [|] [|] [|] [|] [|]];
    first [discriminate | now repeat split].
Qed.

(** *** Strings of digits *)

Lemma all_digits_append (a b : string) :
  all_digits (a +:+ b) = all_digits a && all_digits b.
Proof.
  induction a as [| c a IH]; [reflexivity |].
  rewrite append_cons. cbn [all_digits]. now rewrite IH, andb_assoc.
Qed.

Lemma all_digits_zeros (n : nat) : all_digits (zeros n) = true.
Proof. induction n as [| n IH]; [reflexivity | exact IH]. Qed.

Lemma all_digits_take (n : nat) (s : string) :
  all_digits s = true -> all_digits (take n s) = true.
Proof.
  revert s. induction n as [| n IH]; intros [| c s]; try reflexivity.
  cbn [all_digits take]. intros H. apply andb_prop in H. destruct H as [Hc Hs].
  now rewrite Hc, (IH s Hs).
Qed.

Lemma all_digits_drop (n : nat) (s : string) :
  all_digits s = true -> all_digits (drop n s) = true.
Proof.
  revert s. induction n as [| n IH]; intros [| c s]; try (intros H; exact H).
  cbn [all_digits drop]. intros H. apply andb_prop in H. now apply IH.
Qed.

Lemma take_drop (n : nat) (s : string) : take n s +:+ drop n s = s.
Proof.
  revert s. induction n as [| n IH]; intros [| c s]; try reflexivity.
  cbn [take drop]. now rewrite append_cons, IH.
Qed.

Lemma length_drop (n : nat) (s : string) :
  String.length (drop n s) = String.length s - n.
Proof.
  revert s. induction n as [| n IH]; intros [| c s]; try reflexivity.
  cbn [drop String.length]. apply IH.
Qed.

Lemma length_zeros (n : nat) : String.length (zeros n) = n.
Proof. induction n as [| n IH]; [reflexivity |]. cbn [zeros String.length]. now rewrite IH. Qed.

Lemma span_digits_free (rest : string) :
  digit_free rest -> span_digits rest = ("", rest).
Proof.
  destruct rest as [| c rest]; [reflexivity |].
  cbn [digit_free span_digits]. now intros ->.
Qed.

Lemma span_all_digits (digits rest : string) :
  all_digits digits = true -> digit_free rest ->
  span_digits (digits +:+ rest) = (digits, rest).
Proof.
  intros Hdigits Hfree. induction digits as [| c digits IH].
  - now apply span_digits_free.
  - cbn [all_digits] in Hdigits. apply andb_prop in Hdigits.
    destruct Hdigits as [Hc Hdigits].
    rewrite append_cons. cbn [span_digits]. now rewrite Hc, (IH Hdigits).
Qed.

Lemma strip_leading_zeros_zeros (n : nat) (s : string) :
  strip_leading_zeros (zeros n +:+ s) = strip_leading_zeros s.
Proof. induction n as [| n IH]; [reflexivity | exact IH]. Qed.

Lemma strip_trailing_zeros_zeros (n : nat) : strip_trailing_zeros (zeros n) = "".
Proof.
  induction n as [| n IH]; [reflexivity |].
  cbn [zeros strip_trailing_zeros]. now rewrite IH.
Qed.

Lemma strip_trailing_zeros_append (s : string) (n : nat) :
  strip_trailing_zeros (s +:+ zeros n) = strip_trailing_zeros s.
Proof.
  induction s as [| c s IH].
  - apply strip_trailing_zeros_zeros.
  - rewrite append_cons. cbn [strip_trailing_zeros]. now rewrite IH.
Qed.

(** What [significant] says of the digits of a finite value. *)
Lemma significant_inv (digits : string) :
  significant digits = true ->
  exists (c : ascii) (more : string),
    digits = String c more
    /\ is_digit c = true /\ Ascii.eqb c "0" = false
    /\ all_digits more = true
    /\ strip_trailing_zeros digits = digits.
Proof.
  unfold significant. intros H.
  apply andb_prop in H. destruct H as [H Htrailing].
  apply andb_prop in H. destruct H as [H Hleading].
  apply andb_prop in H. destruct H as [Hall Hnonempty].
  apply String.eqb_eq in Htrailing. apply String.eqb_eq in Hleading.
  destruct digits as [| c more]; [discriminate Hnonempty |].
  exists c, more. cbn [all_digits] in Hall. apply andb_prop in Hall.
  destruct Hall as [Hc Hmore].
  repeat split; try assumption.
  cbn [strip_leading_zeros] in Hleading.
  destruct (Ascii.eqb c "0") eqn:Hzero; [| reflexivity].
  exfalso.
  assert (Hlen : forall s, String.length (strip_leading_zeros s) <= String.length s).
  { induction s as [| x s IH]; [reflexivity |].
    cbn [strip_leading_zeros]. destruct (Ascii.eqb x "0"); cbn [String.length]; lia. }
  specialize (Hlen more). rewrite Hleading in Hlen. cbn [String.length] in Hlen. lia.
Qed.

(** *** The exponent *)

Lemma span_digits_uint (d : Decimal.uint) (rest : string) :
  digit_free rest ->
  span_digits (NilEmpty.string_of_uint d +:+ rest) =
  (NilEmpty.string_of_uint d, rest).
Proof.
  intros Hfree. induction d as [| d IH | d IH | d IH | d IH | d IH | d IH
                                | d IH | d IH | d IH | d IH];
    cbn [NilEmpty.string_of_uint];
    [now apply span_digits_free | ..];
    rewrite append_cons; cbn [span_digits]; rewrite IH; reflexivity.
Qed.

Lemma natural_text_read (m : N) (rest : string) :
  digit_free rest ->
  exists (c : ascii) (t : string),
    natural_text m = String c t /\ is_digit c = true
    /\ span_digits (natural_text m +:+ rest) = (natural_text m, rest)
    /\ NilZero.uint_of_string (natural_text m) = Some (N.to_uint m).
Proof.
  intros Hfree. unfold natural_text.
  assert (Hnonnil : N.to_uint m <> Decimal.Nil).
  { destruct m as [| p]; [discriminate |]. cbn [N.to_uint].
    apply DecimalPos.Unsigned.to_uint_nonnil. }
  pose proof (NilZero.usu (N.to_uint m) Hnonnil) as Hback.
  pose proof (span_digits_uint (N.to_uint m) rest Hfree) as Hspan.
  destruct (N.to_uint m) as [| d | d | d | d | d | d | d | d | d | d];
    [contradiction | ..];
    (eexists _, _; split; [reflexivity |]; split; [reflexivity |];
     split; [exact Hspan | exact Hback]).
Qed.

Lemma parse_exponent_text (e : Z) (rest : string) :
  digit_free rest ->
  parse_exponent (String "e" (exponent_text e +:+ rest)) = Some (e, rest).
Proof.
  intros Hfree. unfold exponent_text.
  destruct (natural_text_read (Z.abs_N e) rest Hfree)
    as (c & t & Htext & Hc & Hspan & Hback).
  assert (Hvalue : Z.of_N (N.of_uint (N.to_uint (Z.abs_N e))) = Z.abs e).
  { now rewrite DecimalN.Unsigned.of_to, N2Z.inj_abs_N. }
  cbn [parse_exponent]. change (Ascii.eqb "e" "e") with true. cbn [orb].
  destruct (Z.ltb_spec e 0) as [Hneg | Hpos];
    rewrite append_assoc, append_cons, append_nil_l;
    [change (Ascii.eqb "-" "-") with true
    | change (Ascii.eqb "+" "-") with false; change (Ascii.eqb "+" "+") with true];
    cbv iota; rewrite Hspan, Hback, Hvalue; f_equal; f_equal; lia.
Qed.

Lemma parse_exponent_none (rest : string) :
  literal_end rest -> parse_exponent rest = Some (0%Z, rest).
Proof.
  destruct rest as [| c rest]; [reflexivity |].
  cbn [literal_end parse_exponent]. unfold continues. intros H.
  apply orb_false_elim in H. destruct H as [H HE].
  apply orb_false_elim in H. destruct H as [H He].
  now rewrite He, HE.
Qed.

Lemma parse_fraction_none (rest : string) :
  literal_end rest -> parse_fraction rest = Some ("", rest).
Proof.
  destruct rest as [| c rest]; [reflexivity |].
  cbn [literal_end parse_fraction]. unfold continues. intros H.
  apply orb_false_elim in H. destruct H as [H _].
  apply orb_false_elim in H. destruct H as [H _].
  apply orb_false_elim in H. destruct H as [_ Hpoint].
  now rewrite Hpoint.
Qed.

Lemma parse_fraction_digits (digits rest : string) :
  all_digits digits = true -> digits <> "" -> digit_free rest ->
  parse_fraction (String "." (digits +:+ rest)) = Some (digits, rest).
Proof.
  intros Hdigits Hnonempty Hfree. cbn [parse_fraction].
  change (Ascii.eqb "." ".") with true. cbv iota.
  rewrite (span_all_digits digits rest Hdigits Hfree).
  apply String.eqb_neq in Hnonempty. now rewrite Hnonempty.
Qed.

(** *** Reading back what [to_text] writes *)

Lemma finite_well_formed (negative : bool) (digits : string) (n : Z)
    (well_formed : significant digits = true) :
  finite negative digits n = Some (Finite negative digits n well_formed).
Proof.
  unfold finite.
  assert (Hif : forall (b : bool) (e : significant digits = b),
             b = true ->
             finite_if negative digits n b e =
             Some (Finite negative digits n well_formed)).
  { intros b e ->. cbn [finite_if]. do 2 f_equal.
    apply Eqdep_dec.UIP_dec, Bool.bool_dec. }
  now apply Hif.
Qed.

Ltac same_position :=
  match goal with
  | |- match finite _ _ ?a with Some _ => _ | None => _ end =
       Some (Finite _ _ ?b ?well_formed, _) =>
      replace a with b;
      [rewrite (finite_well_formed _ _ _ well_formed); reflexivity |]
  end.

Lemma of_digits_significant (negative : bool) (c : ascii) (more : string) (e : Z) :
  Ascii.eqb c "0" = false ->
  of_digits negative (String c more) e =
  finite negative (strip_trailing_zeros (String c more))
    (Z.of_nat (String.length (String c more)) + e).
Proof.
  intros Hc. unfold of_digits. cbn [strip_leading_zeros]. now rewrite Hc.
Qed.

Lemma parse_unsigned (negative : bool) (digits : string) (n : Z) (rest : string)
    (well_formed : significant digits = true) :
  literal_end rest ->
  exists (c : ascii) (t : string),
    finite_text digits n = String c t /\ is_digit c = true
    /\ (let '(whole, rest') := span_digits (finite_text digits n +:+ rest) in
        if whole_part whole
        then
          match parse_fraction rest' with
          | Some (fraction, rest'') =>
              match parse_exponent rest'' with
              | Some (e, rest3) =>
                  match
                    of_digits negative (whole +:+ fraction)
                      (e - Z.of_nat (String.length fraction))
                  with
                  | Some x => Some (x, rest3)
                  | None => None
                  end
              | None => None
              end
          | None => None
          end
        else None) = Some (Finite negative digits n well_formed, rest).
Proof.
  intros Hend.
  pose proof (literal_end_digit_free rest Hend) as Hfree.
  destruct (significant_inv digits well_formed)
    as (c & more & Hdigits & Hc & Hnonzero & Hmore & Htrailing).
  subst digits.
  assert (Hall : all_digits (String c more) = true)
    by (cbn [all_digits]; now rewrite Hc, Hmore).
  destruct (is_digit_facts c Hc) as (_ & Hpoint & He & HE & _).
  unfold finite_text. cbv zeta.
  set (k := Z.of_nat (String.length (String c more))).
  assert (Hk : (1 <= k)%Z) by (unfold k; cbn [String.length]; lia).
  destruct (Z.leb k n && Z.leb n 21) eqn:Hplain.
  { (* the digits, then zeros *)
    apply andb_prop in Hplain. destruct Hplain as [Hkn Hn].
    apply Z.leb_le in Hkn. apply Z.leb_le in Hn.
    exists c, (more +:+ zeros (Z.to_nat (n - k))).
    split; [reflexivity | split; [exact Hc |]].
    rewrite span_all_digits;
      [| rewrite all_digits_append, Hall, all_digits_zeros; reflexivity | exact Hfree].
    assert (Hwhole : whole_part (String c more +:+ zeros (Z.to_nat (n - k))) = true).
    { rewrite append_cons. cbn [whole_part].
      destruct (more +:+ zeros (Z.to_nat (n - k))); [reflexivity |].
      now rewrite Hnonzero. }
    rewrite Hwhole, (parse_fraction_none rest Hend), (parse_exponent_none rest Hend).
    rewrite append_nil_r, append_cons, of_digits_significant by exact Hnonzero.
    rewrite <- append_cons, strip_trailing_zeros_append, Htrailing.
    rewrite length_append, length_zeros. fold k. cbn [String.length].
    same_position. unfold k in *. cbn [String.length] in *. lia. }
  destruct (Z.ltb 0 n && Z.leb n 21) eqn:Hinside.
  { (* a point inside the digits *)
    apply andb_prop in Hinside. destruct Hinside as [H0n Hn].
    apply Z.ltb_lt in H0n. apply Z.leb_le in Hn.
    assert (Hnk : (n < k)%Z).
    { apply andb_false_iff in Hplain. destruct Hplain as [H | H].
      - now apply Z.leb_gt in H.
      - apply Z.leb_gt in H. lia. }
    destruct (Z.to_nat n) as [| m] eqn:Hm; [lia |].
    exists c, (take m more +:+ String "." (drop (S m) (String c more))).
    split; [reflexivity | split; [exact Hc |]].
    rewrite append_assoc, append_cons.
    rewrite span_all_digits; [| now apply all_digits_take | reflexivity].
    assert (Hwhole : whole_part (take (S m) (String c more)) = true).
    { cbn [take whole_part]. destruct (take m more); [reflexivity |].
      now rewrite Hnonzero. }
    rewrite Hwhole.
    assert (Hdrop : drop (S m) (String c more) <> "").
    { intros Hempty. pose proof (length_drop (S m) (String c more)) as Hlen.
      rewrite Hempty in Hlen. unfold k in Hnk. cbn [String.length] in *. lia. }
    rewrite parse_fraction_digits;
      [| now apply all_digits_drop | exact Hdrop | exact Hfree].
    rewrite (parse_exponent_none rest Hend), take_drop.
    rewrite of_digits_significant by exact Hnonzero. rewrite Htrailing.
    rewrite length_drop. same_position. unfold k in *.
    cbn [String.length] in *. lia. }
  destruct (Z.ltb (-6) n && Z.leb n 0) eqn:Hsmall.
  { (* zeros after the point, then the digits *)
    apply andb_prop in Hsmall. destruct Hsmall as [_ Hn]. apply Z.leb_le in Hn.
    exists "0"%char, (String "." (zeros (Z.to_nat (- n)) +:+ String c more)).
    split; [reflexivity | split; [reflexivity |]].
    rewrite !append_cons, append_assoc.
    cbn [span_digits]. change (is_digit "0") with true. change (is_digit ".") with false.
    cbv iota beta. cbn [whole_part].
    rewrite <- append_assoc.
    rewrite parse_fraction_digits;
      [ | rewrite all_digits_append, all_digits_zeros, Hall; reflexivity
        | destruct (zeros (Z.to_nat (- n))); discriminate
        | exact Hfree ].
    rewrite (parse_exponent_none rest Hend).
    unfold of_digits. rewrite append_cons, append_nil_l.
    cbn [strip_leading_zeros]. change (Ascii.eqb "0" "0") with true. cbv iota.
    rewrite strip_leading_zeros_zeros. cbn [strip_leading_zeros].
    rewrite Hnonzero, Htrailing, length_append, length_zeros.
    same_position. cbn [String.length]. lia. }
  (* the exponent form *)
  destruct more as [| c' more].
  - exists c, (String "e" (exponent_text (n - 1))).
    split; [reflexivity | split; [exact Hc |]].
    rewrite !append_cons. cbn [span_digits]. rewrite Hc.
    change (is_digit "e") with false. cbv iota beta. cbn [whole_part parse_fraction].
    change (Ascii.eqb "e" ".") with false. cbv iota.
    rewrite (parse_exponent_text (n - 1) rest Hfree).
    rewrite append_nil_r, of_digits_significant by exact Hnonzero.
    rewrite Htrailing. same_position. cbn [String.length]. lia.
  - exists c, (String "." (String c' more +:+ String "e" (exponent_text (n - 1)))).
    split; [reflexivity | split; [exact Hc |]].
    rewrite !append_cons. cbn [span_digits]. rewrite Hc.
    change (is_digit ".") with false. cbv iota beta. cbn [whole_part].
    rewrite append_assoc, <- (append_cons c' more).
    rewrite parse_fraction_digits;
      [| exact Hmore | discriminate | reflexivity].
    rewrite append_cons, (parse_exponent_text (n - 1) rest Hfree).
    rewrite append_cons, append_nil_l, of_digits_significant by exact Hnonzero.
    rewrite Htrailing. same_position. cbn [String.length]. lia.
Qed.

(** [parse] reads back every Number that JSON text holds. *)
Lemma parse_to_text (x : number) (rest : string) :
  json_safe x = true -> literal_end rest ->
  parse (to_text x +:+ rest) = Some (x, rest).
Proof.
  intros Hsafe Hend.
  destruct x as [| negative | [|] | negative digits n well_formed];
    try discriminate.
  - (* zero *)
    unfold parse. cbn [to_text]. rewrite append_cons, append_nil_l.
    cbn [split_sign]. change (Ascii.eqb "0" "-") with false. cbv iota.
    cbn [span_digits]. change (is_digit "0") with true. cbv iota.
    rewrite (span_digits_free rest (literal_end_digit_free rest Hend)).
    cbn [whole_part].
    now rewrite (parse_fraction_none rest Hend), (parse_exponent_none rest Hend).
  - destruct (parse_unsigned negative digits n rest well_formed Hend)
      as (c & t & Htext & Hc & Hread).
    unfold parse. cbn [to_text].
    destruct (is_digit_facts c Hc) as (Hminus & _).
    destruct negative.
    + rewrite append_assoc, append_cons, append_nil_l. cbn [split_sign].
      change (Ascii.eqb "-" "-") with true. cbv iota. exact Hread.
    + rewrite append_nil_l.
      assert (Hsign : split_sign (finite_text digits n +:+ rest) =
                      (false, finite_text digits n +:+ rest)).
      { rewrite Htext, append_cons. cbn [split_sign]. now rewrite Hminus. }
      rewrite Hsign. exact Hread.
Qed.

(** The first character of the text of such a Number. *)
Lemma to_text_head (x : number) :
  json_safe x = true ->
  exists c t, to_text x = String c t
              /\ In c ["-"; "0"; "1"; "2"; "3"; "4"; "5"; "6"; "7"; "8"; "9"]%char.
Proof.
  intros Hsafe.
  destruct x as [| negative | [|] | negative digits n well_formed];
    try discriminate.
  - eexists _, _. split; [reflexivity |]. cbn [In]. tauto.
  - destruct (parse_unsigned negative digits n "" well_formed I)
      as (c & t & Htext & Hc & _).
    cbn [to_text]. destruct negative.
    + eexists _, _. split; [reflexivity |]. cbn [In]. tauto.
    + exists c, t. rewrite append_nil_l. split; [exact Htext |].
      right. now apply is_digit_In.
Qed.

(** *** Integers *)

Lemma strip_trailing_zeros_idem (s : string) :
  strip_trailing_zeros (strip_trailing_zeros s) = strip_trailing_zeros s.
Proof.
  induction s as [| c s IH]; [reflexivity |].
  cbn [strip_trailing_zeros].
  destruct (strip_trailing_zeros s) as [| c' kept] eqn:Hs.
  - destruct (Ascii.eqb c "0") eqn:Hc; [reflexivity |].
    cbn [strip_trailing_zeros]. now rewrite Hc.
  - cbn [strip_trailing_zeros] in *. now rewrite IH.
Qed.

Lemma all_digits_strip_trailing (s : string) :
  all_digits s = true -> all_digits (strip_trailing_zeros s) = true.
Proof.
  induction s as [| c s IH]; [reflexivity |].
  cbn [all_digits strip_trailing_zeros]. intros H. apply andb_prop in H.
  destruct H as [Hc Hs]. specialize (IH Hs).
  destruct (strip_trailing_zeros s) as [| c' kept].
  - destruct (Ascii.eqb c "0"); [reflexivity |]. cbn [all_digits]. now rewrite Hc.
  - cbn [all_digits] in *. now rewrite Hc, IH.
Qed.

Lemma all_digits_uint (d : Decimal.uint) :
  all_digits (NilEmpty.string_of_uint d) = true.
Proof. induction d; cbn [NilEmpty.string_of_uint all_digits]; trivial. Qed.

Lemma nzhead_not_D0 (d d' : Decimal.uint) : Decimal.nzhead d <> Decimal.D0 d'.
Proof. induction d; cbn [Decimal.nzhead]; try discriminate. exact IHd. Qed.

(** The decimal digits of a positive number do not start with a zero. *)
Lemma to_uint_head (p : positive) :
  match Pos.to_uint p with
  | Decimal.Nil | Decimal.D0 _ => False
  | _ => True
  end.
Proof.
  pose proof (DecimalPos.Unsigned.to_of (Pos.to_uint p)) as Hnorm.
  rewrite DecimalPos.Unsigned.of_to in Hnorm. cbn [N.to_uint] in Hnorm.
  pose proof (DecimalPos.Unsigned.to_uint_nonzero p) as Hnonzero.
  unfold Decimal.unorm in Hnorm.
  destruct (Decimal.nzhead (Pos.to_uint p)) eqn:Hhead;
    try (rewrite Hnorm; exact I).
  - now rewrite Hnorm in Hnonzero.
  - exfalso. exact (nzhead_not_D0 _ _ Hhead).
Qed.

Lemma significant_digits_of_pos (p : positive) :
  significant (strip_trailing_zeros (NilEmpty.string_of_uint (Pos.to_uint p))) = true.
Proof.
  pose proof (to_uint_head p) as Hhead.
  pose proof (all_digits_uint (Pos.to_uint p)) as Hall.
  assert (Htext : exists c t,
             NilEmpty.string_of_uint (Pos.to_uint p) = String c t
             /\ Ascii.eqb c "0" = false).
  { destruct (Pos.to_uint p); try contradiction;
      (eexists _, _; split; reflexivity). }
  destruct Htext as (c & t & Htext & Hc). rewrite Htext in *.
  unfold significant.
  rewrite (all_digits_strip_trailing _ Hall), strip_trailing_zeros_idem.
  rewrite String.eqb_refl, andb_true_r.
  cbn [strip_trailing_zeros].
  destruct (strip_trailing_zeros t); rewrite ?Hc;
    cbn [strip_leading_zeros]; rewrite Hc, String.eqb_refl; reflexivity.
Qed.

(** An integer other than zero is a finite Number. *)
Lemma of_Z_finite (z : Z) :
  z <> 0%Z ->
  exists (digits : string) (n : Z) (well_formed : significant digits = true),
    of_Z z = Finite (Z.ltb z 0%Z) digits n well_formed.
Proof.
  assert (Hpos : forall (negative : bool) (p : positive),
             exists (digits : string) (n : Z)
                    (well_formed : significant digits = true),
               of_digits negative (NilEmpty.string_of_uint (Pos.to_uint p)) 0 =
               Some (Finite negative digits n well_formed)).
  { intros negative p.
    pose proof (significant_digits_of_pos p) as Hsignificant.
    pose proof (to_uint_head p) as Hhead.
    assert (Htext : exists c t,
               NilEmpty.string_of_uint (Pos.to_uint p) = String c t
               /\ Ascii.eqb c "0" = false).
    { destruct (Pos.to_uint p); try contradiction;
        (eexists _, _; split; reflexivity). }
    destruct Htext as (c & t & Htext & Hc). rewrite Htext in *.
    rewrite (of_digits_significant negative c t 0 Hc).
    eexists _, _, Hsignificant. apply finite_well_formed. }
  intros Hz. destruct z as [| p | p]; [contradiction | |]; cbn [of_Z];
    [destruct (Hpos false p) as (digits & n & well_formed & ->)
    | destruct (Hpos true p) as (digits & n & well_formed & ->)];
    now exists digits, n, well_formed.
Qed.

(** Every integer is a Number that JSON text holds. *)
Lemma of_Z_json_safe (z : Z) : json_safe (of_Z z) = true.
Proof.
  destruct (Z.eq_dec z 0%Z) as [-> | Hz]; [reflexivity |].
  destruct (of_Z_finite z Hz) as (digits & n & well_formed & ->). reflexivity.
Qed.

Lemma of_Z_nonzero (z : Z) : nonzero (of_Z z) = negb (Z.eqb z 0%Z).
Proof.
  destruct (Z.eqb_spec z 0%Z) as [-> | Hz]; [reflexivity |].
  destruct (of_Z_finite z Hz) as (digits & n & well_formed & ->). reflexivity.
Qed.

(** The texts of some Numbers, integers with up to 21 digits written in
    full, and the literals of some texts. *)
Example number_texts :
  to_text (of_Z 100%Z) = "100"
  /\ to_text (of_Z 1704067200000%Z) = "1704067200000"
  /\ to_text (of_Z (10 ^ 20)%Z) = "100000000000000000000"
  /\ to_text (of_Z (10 ^ 21)%Z) = "1e+21"
  /\ to_text (of_Z (-42)%Z) = "-42"
  /\ to_text (Finite false "255" 2%Z eq_refl) = "25.5"
  /\ to_text (Finite false "123" (-2)%Z eq_refl) = "0.00123"
  /\ to_text (Finite true "5" (-6)%Z eq_refl) = "-5e-7"
  /\ to_text (Finite false "12" 30%Z eq_refl) = "1.2e+29".
Proof. repeat split. Qed.

Example number_literals :
  parse "25.5" = Some (Finite false "255" 2%Z eq_refl, "")
  /\ parse "1e3" = Some (of_Z 1000%Z, "")
  /\ parse "1.50E-7," = Some (Finite false "15" (-6)%Z eq_refl, ",")
  /\ parse "-0" = Some (Zero true, "")
  /\ parse "01" = None
  /\ parse "1." = None.
Proof. repeat split. Qed.

End NumberText.

(** ** The JSON built-ins *)

Section JsonRoundTrip.
Import JSON.

Lemma strip_prefix_append (word rest : string) :
  strip_prefix word (word +:+ rest) = Some rest.
Proof.
  induction word as [| a word IH]; [reflexivity |].
  rewrite append_cons. cbn [strip_prefix]. now rewrite Ascii.eqb_refl.
Qed.

Lemma skip_spaces (n : nat) (s : string) :
  skip_whitespace (spaces n +:+ s) = skip_whitespace s.
Proof.
  induction n as [| n IH]; [reflexivity |].
  cbn [spaces]. rewrite append_assoc, append_cons, append_nil_l. exact IH.
Qed.

Lemma skip_break (space depth : nat) (s : string) :
  skip_whitespace (break space depth +:+ s) = skip_whitespace s.
Proof.
  unfold break. destruct (Nat.eqb space 0); [reflexivity |].
  unfold char. rewrite append_assoc, append_cons, append_nil_l.
  cbn [skip_whitespace]. apply skip_spaces.
Qed.

(** Escaping one character and reading it back. *)
Lemma parse_escape_char (c : ascii) (t : string) :
  parse_characters (escape_char c +:+ t) =
  match parse_characters t with
  | Some (s, rest) => Some (String c s, rest)
  | None => None
  end.
Proof.
  destruct c as [[|] [|] [|] [|] [|] [|] [|] [|]]; reflexivity.
Qed.

Lemma parse_escape (s rest : string) :
  parse_characters (escape s +:+ String quote rest) = Some (s, rest).
Proof.
  induction s as [| c s IH].
  - reflexivity.
  - cbn [escape]. rewrite append_assoc, parse_escape_char, IH. reflexivity.
Qed.

(** *** Values *)

Lemma plain_object (fields : list (string * JsValue)) :
  plain (JsObject fields) = all_plain fields.
Proof.
  induction fields as [| [k v] fields IH]; [reflexivity |].
  cbn [plain all_plain forallb snd] in *. now rewrite IH.
Qed.

Lemma weight_array (items : list JsValue) :
  weight (JsArray items) = S (elements_weight items).
Proof.
  cbn [weight]. f_equal. unfold elements_weight.
  induction items as [| v items IH]; [reflexivity |].
  cbn [map]. rewrite IH. reflexivity.
Qed.

Lemma weight_object (fields : list (string * JsValue)) :
  weight (JsObject fields) = S (members_weight fields).
Proof.
  cbn [weight]. f_equal. unfold members_weight.
  induction fields as [| [k v] fields IH]; [reflexivity |].
  cbn [map snd]. rewrite IH. reflexivity.
Qed.

Lemma serialize_plain (space depth : nat) (v : JsValue) :
  plain v = true -> serialize space depth v = Some (text_of space depth v).
Proof.
  unfold text_of. destruct v as [| | [|] | n | s | items | fields | iso shown];
    try discriminate; try reflexivity; intros _.
  - cbn [serialize]. now destruct (map _ items).
  - cbn [serialize].
    match goal with |- context [match ?parts with [] => _ | _ :: _ => _ end] =>
      now destruct parts end.
Qed.

Lemma serialize_array (space depth : nat) (items : list JsValue) :
  serialize space depth (JsArray items) =
  Some match items with
       | [] => "[]"
       | _ =>
           "[" +:+ break space (S depth)
           +:+ join ("," +:+ break space (S depth))
                 (map (text_of space (S depth)) items)
           +:+ break space depth +:+ "]"
       end.
Proof. destruct items; reflexivity. Qed.

Lemma serialize_object (space depth : nat) (fields : list (string * JsValue)) :
  all_plain fields = true ->
  serialize space depth (JsObject fields) =
  Some match fields with
       | [] => "{}"
       | _ =>
           "{" +:+ break space (S depth)
           +:+ join ("," +:+ break space (S depth))
                 (map (member_text space (S depth)) fields)
           +:+ break space depth +:+ "}"
       end.
Proof.
  intros Hplain. cbn [serialize].
  match goal with |- context [match ?parts with [] => _ | _ :: _ => _ end] =>
    assert (Hparts : parts = map (member_text space (S depth)) fields) end.
  { induction fields as [| [k v] fields IH]; [reflexivity |].
    cbn [all_plain forallb snd] in Hplain. apply andb_prop in Hplain.
    destruct Hplain as [Hv Hrest].
    rewrite (serialize_plain space (S depth) v Hv), (IH Hrest). reflexivity. }
  rewrite Hparts. now destruct fields.
Qed.

(** *** White space *)

Lemma skip_head (c : ascii) (s : string) :
  is_whitespace c = false -> skip_whitespace (String c s) = String c s.
Proof. intros Hc. cbn [skip_whitespace]. now rewrite Hc. Qed.

Lemma skip_whitespace_idem (s : string) :
  skip_whitespace (skip_whitespace s) = skip_whitespace s.
Proof.
  induction s as [| c s IH]; [reflexivity |].
  cbn [skip_whitespace]. destruct (is_whitespace c) eqn:Hc; [exact IH |].
  now apply skip_head.
Qed.

Lemma parse_value_skip (fuel : nat) (s : string) :
  parse_value fuel (skip_whitespace s) = parse_value fuel s.
Proof.
  destruct fuel; [reflexivity |].
  cbn [parse_value]. now rewrite skip_whitespace_idem.
Qed.

Lemma parse_elements_skip (fuel : nat) (s : string) :
  parse_elements fuel (skip_whitespace s) = parse_elements fuel s.
Proof.
  destruct fuel; [reflexivity |].
  cbn [parse_elements]. now rewrite parse_value_skip.
Qed.

Lemma parse_members_skip (fuel : nat) (s : string) :
  parse_members fuel (skip_whitespace s) = parse_members fuel s.
Proof.
  destruct fuel; [reflexivity |].
  cbn [parse_members]. now rewrite skip_whitespace_idem.
Qed.

Lemma parse_value_break (fuel space depth : nat) (s : string) :
  parse_value fuel (break space depth +:+ s) = parse_value fuel s.
Proof. now rewrite <- parse_value_skip, skip_break, parse_value_skip. Qed.

Lemma parse_elements_break (fuel space depth : nat) (s : string) :
  parse_elements fuel (break space depth +:+ s) = parse_elements fuel s.
Proof. now rewrite <- parse_elements_skip, skip_break, parse_elements_skip. Qed.

Lemma parse_members_break (fuel space depth : nat) (s : string) :
  parse_members fuel (break space depth +:+ s) = parse_members fuel s.
Proof. now rewrite <- parse_members_skip, skip_break, parse_members_skip. Qed.

Lemma literal_end_break (space depth : nat) (c : ascii) (s : string) :
  Number.continues c = false ->
  Number.literal_end (break space depth +:+ String c s).
Proof.
  intros Hc. unfold break. destruct (Nat.eqb space 0); [exact Hc |].
  reflexivity.
Qed.

(** *** The first character of a value *)

Lemma starts_facts (c : ascii) :
  In c starts ->
  is_whitespace c = false /\ Ascii.eqb c "]" = false /\ Ascii.eqb c "}" = false.
Proof.
  unfold starts. cbn [In]. intros H.
  repeat (destruct H as [<- | H]; [repeat split |]); contradiction.
Qed.

Lemma number_text_safe (n : number) :
  Number.json_safe n = true -> number_text n = Number.to_text n.
Proof. unfold number_text. now destruct n as [| ? | [|] | ? ? ? ?]. Qed.

Lemma number_text_head (n : number) :
  Number.json_safe n = true ->
  exists c t, number_text n = String c t
              /\ In c ["-"; "0"; "1"; "2"; "3"; "4"; "5"; "6"; "7"; "8"; "9"]%char.
Proof.
  intros Hsafe. rewrite (number_text_safe n Hsafe). now apply to_text_head.
Qed.

Lemma parse_number_text (n : number) (rest : string) :
  Number.json_safe n = true -> Number.literal_end rest ->
  parse_number (number_text n +:+ rest) = Some (n, rest).
Proof.
  intros Hsafe Hend. rewrite (number_text_safe n Hsafe).
  now apply parse_to_text.
Qed.

Lemma text_head (space depth : nat) (v : JsValue) :
  plain v = true ->
  exists c t, text_of space depth v = String c t /\ In c starts.
Proof.
  intros Hplain. unfold text_of.
  destruct v as [| | [|] | n | s | items | fields | iso shown]; try discriminate.
  - eexists _, _. split; [reflexivity |]. unfold starts. cbn [In]. tauto.
  - eexists _, _. split; [reflexivity |]. unfold starts. cbn [In]. tauto.
  - eexists _, _. split; [reflexivity |]. unfold starts. cbn [In]. tauto.
  - destruct (number_text_head n Hplain) as (c & t & Htext & Hc).
    exists c, t. split; [cbn [serialize or_text]; exact Htext |].
    unfold starts. cbn [In] in *. tauto.
  - eexists _, _. split; [reflexivity |]. unfold starts. cbn [In]. tauto.
  - rewrite serialize_array. destruct items;
      (eexists _, _; split; [reflexivity | unfold starts; cbn [In]; tauto]).
  - rewrite plain_object in Hplain. rewrite (serialize_object _ _ _ Hplain).
    destruct fields;
      (eexists _, _; split; [reflexivity | unfold starts; cbn [In]; tauto]).
Qed.

Lemma join_head (sep : string) (parts : list string) (c : ascii) (t : string)
    (more : list string) (rest : string) :
  parts = String c t :: more ->
  exists tail, join sep parts +:+ rest = String c tail.
Proof.
  intros ->. destruct more; cbn [join]; rewrite ?append_cons; eauto.
Qed.

(** *** Reading back what was written *)

Ltac flatten_text :=
  repeat (rewrite append_assoc || rewrite append_cons || rewrite append_nil_l).

Lemma parse_value_string (fuel : nat) (s : string) :
  parse_value (S fuel) (String quote s) =
  match parse_characters s with
  | Some (t, rest) => Some (JsString t, rest)
  | None => None
  end.
Proof. reflexivity. Qed.

Lemma parse_value_array (fuel : nat) (s : string) :
  parse_value (S fuel) (String "[" s) =
  match skip_whitespace s with
  | EmptyString => None
  | String c rest =>
      if Ascii.eqb c "]" then Some (JsArray [], rest)
      else
        match parse_elements fuel s with
        | Some (items, rest') => Some (JsArray items, rest')
        | None => None
        end
  end.
Proof. reflexivity. Qed.

Lemma parse_value_object (fuel : nat) (s : string) :
  parse_value (S fuel) (String "{" s) =
  match skip_whitespace s with
  | EmptyString => None
  | String c rest =>
      if Ascii.eqb c "}" then Some (JsObject [], rest)
      else
        match parse_members fuel s with
        | Some (fields, rest') => Some (JsObject fields, rest')
        | None => None
        end
  end.
Proof. reflexivity. Qed.

Lemma parse_value_number (fuel : nat) (c : ascii) (s : string) :
  In c ["-"; "0"; "1"; "2"; "3"; "4"; "5"; "6"; "7"; "8"; "9"]%char ->
  parse_value (S fuel) (String c s) =
  match parse_number (String c s) with
  | Some (n, rest) => Some (JsNumber n, rest)
  | None => None
  end.
Proof.
  cbn [In]. intros H.
  repeat (destruct H as [<- | H]; [reflexivity |]). contradiction.
Qed.

Lemma reads_values_step (fuel : nat) :
  reads_elements fuel -> reads_members fuel -> reads_values (S fuel).
Proof.
  intros Helements Hmembers v space depth rest Hplain Hweight Hfree.
  destruct v as [| | [|] | n | s | items | fields | iso shown]; try discriminate.
  - reflexivity.
  - reflexivity.
  - reflexivity.
  - unfold text_of. cbn [serialize or_text].
    destruct (number_text_head n Hplain) as (c & t & Htext & Hc).
    pose proof (parse_number_text n rest Hplain Hfree) as Hnumber.
    rewrite Htext in *. rewrite append_cons in *.
    now rewrite (parse_value_number fuel c _ Hc), Hnumber.
  - unfold text_of. cbn [serialize or_text]. unfold quoted, char. flatten_text.
    now rewrite parse_value_string, parse_escape.
  - unfold text_of. rewrite serialize_array. cbn [or_text].
    destruct items as [| v items]; [reflexivity |].
    flatten_text. rewrite parse_value_array, skip_break.
    cbn [plain forallb] in Hplain.
    destruct (text_head space (S depth) v) as (c & t & Htext & Hc);
      [now apply andb_prop in Hplain |].
    destruct (join_head (String "," (break space (S depth)))
                (map (text_of space (S depth)) (v :: items)) c t
                (map (text_of space (S depth)) items)
                (break space depth +:+ String "]" rest)) as [tail Htail];
      [cbn [map]; now rewrite Htext |].
    rewrite Htail. apply starts_facts in Hc. destruct Hc as (Hws & Hbracket & _).
    rewrite (skip_head c tail Hws), Hbracket, <- Htail, parse_elements_break.
    rewrite Helements; [reflexivity | discriminate | exact Hplain |].
    rewrite weight_array in Hweight. lia.
  - unfold text_of. rewrite plain_object in Hplain.
    rewrite (serialize_object _ _ _ Hplain). cbn [or_text].
    destruct fields as [| [k v] fields]; [reflexivity |].
    flatten_text. rewrite parse_value_object, skip_break.
    destruct (join_head (String "," (break space (S depth)))
                (map (member_text space (S depth)) ((k, v) :: fields))
                quote ((escape k +:+ char quote) +:+ separator space
                       +:+ text_of space (S depth) v)
                (map (member_text space (S depth)) fields)
                (break space depth +:+ String "}" rest)) as [tail Htail];
      [reflexivity |].
    rewrite Htail, (skip_head quote tail eq_refl).
    change (Ascii.eqb quote "}") with false. cbv iota.
    rewrite <- Htail, parse_members_break.
    rewrite Hmembers; [reflexivity | discriminate | exact Hplain |].
    rewrite weight_object in Hweight. lia.
Qed.

Lemma join_two (sep a b : string) (parts : list string) :
  join sep (a :: b :: parts) = a +:+ sep +:+ join sep (b :: parts).
Proof. reflexivity. Qed.

Lemma reads_elements_step (fuel : nat) :
  reads_values fuel -> reads_elements fuel -> reads_elements (S fuel).
Proof.
  intros Hvalues Helements items space depth closing rest Hne Hplain Hweight.
  destruct items as [| v items]; [contradiction |].
  cbn [forallb] in Hplain. apply andb_prop in Hplain. destruct Hplain as [Hv Hitems].
  change (elements_weight (v :: items))
    with (S (weight v) + elements_weight items) in Hweight.
  cbn [parse_elements map]. destruct items as [| v' items].
  - cbn [map join].
    rewrite Hvalues; [| exact Hv | lia | now apply literal_end_break].
    now rewrite skip_break, skip_head.
  - cbn [map]. rewrite join_two. flatten_text.
    rewrite Hvalues; [| exact Hv | lia | reflexivity].
    rewrite skip_head by reflexivity.
    change (Ascii.eqb "," ",") with true. cbv iota.
    rewrite parse_elements_break.
    change (text_of space depth v' :: map (text_of space depth) items)
      with (map (text_of space depth) (v' :: items)).
    rewrite Helements; [reflexivity | discriminate | exact Hitems | lia].
Qed.

Lemma parse_value_space (fuel : nat) (s : string) :
  parse_value fuel (String " " s) = parse_value fuel s.
Proof.
  transitivity (parse_value fuel (skip_whitespace (String " " s))).
  - symmetry. apply parse_value_skip.
  - change (skip_whitespace (String " " s)) with (skip_whitespace s).
    apply parse_value_skip.
Qed.

Lemma parse_value_separator (fuel space : nat) (s : string) :
  exists s', separator space +:+ s = String ":" s'
             /\ parse_value fuel s' = parse_value fuel s.
Proof.
  unfold separator. destruct (Nat.eqb space 0).
  - exists s. split; reflexivity.
  - exists (String " " s). split; [reflexivity | apply parse_value_space].
Qed.

Lemma parse_members_field (fuel : nat) (k s : string) :
  parse_members (S fuel) (String quote (escape k +:+ String quote (String ":" s))) =
  match parse_value fuel s with
  | Some (v, rest) =>
      match skip_whitespace rest with
      | EmptyString => None
      | String c rest' =>
          if Ascii.eqb c "," then
            match parse_members fuel rest' with
            | Some (fields, rest'') => Some ((k, v) :: fields, rest'')
            | None => None
            end
          else if Ascii.eqb c "}" then Some ([(k, v)], rest')
          else None
      end
  | None => None
  end.
Proof.
  cbn [parse_members]. rewrite skip_head by reflexivity.
  rewrite Ascii.eqb_refl, parse_escape, skip_head by reflexivity.
  reflexivity.
Qed.

Lemma reads_members_step (fuel : nat) :
  reads_values fuel -> reads_members fuel -> reads_members (S fuel).
Proof.
  intros Hvalues Hmembers fields space depth closing rest Hne Hplain Hweight.
  destruct fields as [| [k v] fields]; [contradiction |].
  cbn [all_plain forallb snd] in Hplain. apply andb_prop in Hplain.
  destruct Hplain as [Hv Hfields].
  change (members_weight ((k, v) :: fields))
    with (S (weight v) + members_weight fields) in Hweight.
  cbn [map]. unfold member_text at 1. cbn [fst snd]. unfold quoted, char.
  destruct fields as [| field fields].
  - cbn [map join]. flatten_text.
    destruct (parse_value_separator fuel space
                (text_of space depth v +:+ break space closing +:+ String "}" rest))
      as (s' & -> & Hs').
    rewrite parse_members_field, Hs'.
    rewrite Hvalues; [| exact Hv | lia | now apply literal_end_break].
    now rewrite skip_break, skip_head.
  - cbn [map]. rewrite join_two. flatten_text.
    match goal with
    | |- context [separator space +:+ ?s] =>
        destruct (parse_value_separator fuel space s) as (s' & -> & Hs')
    end.
    rewrite parse_members_field, Hs'.
    rewrite Hvalues; [| exact Hv | lia | reflexivity].
    rewrite skip_head by reflexivity.
    change (Ascii.eqb "," ",") with true. cbv iota.
    rewrite parse_members_break.
    change (member_text space depth field :: map (member_text space depth) fields)
      with (map (member_text space depth) (field :: fields)).
    rewrite Hmembers; [reflexivity | discriminate | exact Hfields | lia].
Qed.

Lemma reads_all (fuel : nat) :
  reads_values fuel /\ reads_elements fuel /\ reads_members fuel.
Proof.
  induction fuel as [| fuel (Hvalues & Helements & Hmembers)].
  - repeat split; intros ? ? ? ?; intros; lia.
  - repeat split.
    + now apply reads_values_step.
    + now apply reads_elements_step.
    + now apply reads_members_step.
Qed.

(** *** Enough fuel: a text is at least as long as its value is heavy *)

Lemma join_length (sep : string) (parts : list string) :
  1 <= String.length sep ->
  list_sum (map (fun t => S (String.length t)) parts)
  <= S (String.length (join sep parts)).
Proof.
  intros Hsep. induction parts as [| a parts IH]; [cbn; lia |].
  destruct parts as [| b parts]; [cbn; lia |].
  rewrite join_two, !length_append.
  change (list_sum (map (fun t => S (String.length t)) (a :: b :: parts)))
    with (S (String.length a)
          + list_sum (map (fun t => S (String.length t)) (b :: parts))).
  lia.
Qed.

Lemma list_sum_le {A : Type} (f g : A -> nat) (l : list A) :
  Forall (fun x => f x <= g x) l -> list_sum (map f l) <= list_sum (map g l).
Proof.
  induction 1 as [| x l Hx _ IH]; [reflexivity |].
  cbn [map]. change (f x + list_sum (map f l) <= g x + list_sum (map g l)). lia.
Qed.

Lemma list_sum_member {A : Type} (f : A -> nat) (x : A) (l : list A) :
  In x l -> f x <= list_sum (map f l).
Proof.
  induction l as [| y l IH]; [intros [] |].
  cbn [map]. change (list_sum (f y :: map f l)) with (f y + list_sum (map f l)).
  intros [<- | Hx]; [lia | specialize (IH Hx); lia].
Qed.

Lemma weight_le_length (n : nat) :
  forall (v : JsValue) (space depth : nat),
    weight v <= n -> plain v = true ->
    weight v <= String.length (text_of space depth v).
Proof.
  induction n as [| n IH]; intros v space depth Hn Hplain; [lia |].
  destruct v as [| | b | z | s | items | fields | iso shown]; try (cbn [weight]; lia).
  - rewrite weight_array in *. unfold text_of. rewrite serialize_array.
    cbn [or_text]. destruct items as [| v items]; [cbn; lia |].
    set (parts := map (text_of space (S depth)) (v :: items)).
    rewrite !length_append.
    assert (Hparts : elements_weight (v :: items)
                     <= S (String.length (join ("," +:+ break space (S depth)) parts))).
    { etransitivity; [| apply join_length; rewrite append_cons; cbn; lia].
      unfold parts, elements_weight. rewrite map_map.
      apply list_sum_le, Forall_forall. intros item Hitem.
      apply list_elem_of_In in Hitem.
      apply le_n_S, IH.
      - pose proof (list_sum_member (fun i => S (weight i)) item _ Hitem) as Hle.
        fold (elements_weight (v :: items)) in Hle. cbn beta in Hle. lia.
      - cbn [plain] in Hplain. rewrite forallb_forall in Hplain. now apply Hplain. }
    change (String.length "[") with 1. change (String.length "]") with 1. lia.
  - rewrite weight_object in *. rewrite plain_object in Hplain. unfold text_of.
    rewrite (serialize_object _ _ _ Hplain). cbn [or_text].
    destruct fields as [| field fields]; [cbn; lia |].
    set (parts := map (member_text space (S depth)) (field :: fields)).
    rewrite !length_append.
    assert (Hparts : members_weight (field :: fields)
                     <= S (String.length (join ("," +:+ break space (S depth)) parts))).
    { etransitivity; [| apply join_length; rewrite append_cons; cbn; lia].
      unfold parts, members_weight. rewrite map_map.
      apply list_sum_le, Forall_forall. intros item Hitem.
      apply list_elem_of_In in Hitem.
      apply le_n_S. unfold member_text. rewrite !length_append.
      assert (weight (snd item) <= String.length (text_of space (S depth) (snd item)));
        [| lia].
      apply IH.
      - pose proof (list_sum_member (fun i => S (weight (snd i))) item _ Hitem)
          as Hle.
        fold (members_weight (field :: fields)) in Hle. cbn beta in Hle. lia.
      - unfold all_plain in Hplain. rewrite forallb_forall in Hplain.
        now apply Hplain. }
    change (String.length "{") with 1. change (String.length "}") with 1. lia.
Qed.

(** [JSON.parse] inverts [JSON.stringify] on JSON data, whatever the
    indentation. *)
Theorem parse_stringify (v : JsValue) (space : nat) :
  plain v = true -> parse (stringify v space) = Some v.
Proof.
  intros Hplain. unfold parse, stringify.
  rewrite (serialize_plain space 0 v Hplain). cbn [or_text].
  pose proof (weight_le_length (weight v) v space 0 (le_n _) Hplain) as Hfuel.
  destruct (reads_all (S (String.length (text_of space 0 v)))) as [Hvalues _].
  specialize (Hvalues v space 0 "" Hplain (le_n_S _ _ Hfuel) I).
  rewrite append_nil_r in Hvalues. now rewrite Hvalues.
Qed.

End JsonRoundTrip.

(** ** The tool handlers *)

Ltac run_handler :=
  cbv [Tools.handler Tools.api_outcome Tools.outcome_map Tools.request_of
       Tools.failure_prefix Tools.settled_result
       Metrics.query_metrics_handler Logs.search_logs_handler
       Monitors.get_monitor_handler Monitors.list_monitors_handler
       Traces.search_spans_handler
       try_catch bind ret await Logger.info Logger.error Logger.log
       result_of world_of fst snd].

Ltac settle :=
  match goal with
  | |- context [match ?outcome with Resolved _ => _ | Rejected _ => _ end] =>
      destruct outcome
  end.

Lemma handler_result (i : Tools.Invocation) (w : World) :
  result_of (Tools.handler i w) = inr (Tools.settled_result i).
Proof. destruct i; run_handler; settle; reflexivity. Qed.

(** A handler makes exactly one call on the Datadog client. *)
Lemma handler_api_calls (i : Tools.Invocation) (w : World) :
  api_calls (world_of (Tools.handler i w)) = api_calls w ++ [Tools.request_of i].
Proof.
  destruct i; run_handler; settle; unfold called; cbn [api_calls];
    autorewrite with world; reflexivity.
Qed.

(** C1.  Whenever the Datadog API call of a tool handler rejects, the handler
    returns normally: its result has [isError] true and one text element,
    the handler's prefix followed by the message of the thrown [Error], or by
    ['Unknown error'] when the thrown value is not an [Error]; nothing is
    thrown to the caller. *)
Theorem handler_rejection_is_returned
    (i : Tools.Invocation) (error : Thrown) (w : World) :
  Tools.api_outcome i = Rejected error ->
  exists result : ToolResult,
    result_of (Tools.handler i w) = inr result
    /\ isError result = Some true
    /\ content result =
       [{| type := "text";
           text :=
             Tools.failure_prefix i +:+
             match error with
             | ErrorInstance message => message
             | NonError _ => "Unknown error"
             end |}].
Proof.
  intros Hrejected. eexists. split; [apply handler_result |].
  unfold Tools.settled_result. rewrite Hrejected.
  split; destruct error; reflexivity.
Qed.

Lemma handler_rejection_is_returned_witness :
  Tools.api_outcome (Tools.search_logs Fixtures.rejecting_logs Fixtures.logs_args) =
  Rejected (ErrorInstance "Invalid query syntax")
  /\ exists result : ToolResult,
       result_of
         (Tools.handler
            (Tools.search_logs Fixtures.rejecting_logs Fixtures.logs_args)
            Fixtures.started) = inr result
       /\ isError result = Some true
       /\ content result =
          [{| type := "text";
              text := "Error searching logs: Invalid query syntax" |}].
Proof.
  split; [reflexivity |].
  exact (handler_rejection_is_returned
           (Tools.search_logs Fixtures.rejecting_logs Fixtures.logs_args)
           (ErrorInstance "Invalid query syntax") Fixtures.started eq_refl).
Defined.

(** C10.  When the Datadog API call resolves, the handler returns a result
    without [isError] whose content is one element of type ['text'], its text
    being [JSON.stringify(response, null, 2)]; for a response that is JSON
    data (no [undefined], no [Date], no Number that is not finite or is the
    negative zero), parsing that text yields the response. *)
Theorem handler_success_is_serialized
    (i : Tools.Invocation) (response : JsValue) (w : World) :
  Tools.api_outcome i = Resolved response ->
  exists item : ContentItem,
    result_of (Tools.handler i w) = inr {| content := [item]; isError := None |}
    /\ type item = "text"
    /\ text item = JSON.stringify response 2
    /\ (JSON.plain response = true -> JSON.parse (text item) = Some response).
Proof.
  intros Hresolved. eexists. split.
  - rewrite handler_result. unfold Tools.settled_result. rewrite Hresolved.
    reflexivity.
  - split; [reflexivity | split; [reflexivity |]].
    cbn [text]. apply parse_stringify.
Qed.

Lemma handler_success_is_serialized_witness :
  let i := Tools.query_metrics Fixtures.resolving_metrics Fixtures.metrics_args in
  Tools.api_outcome i = Resolved (JsObject Fixtures.metrics_response)
  /\ JSON.plain (JsObject Fixtures.metrics_response) = true
  /\ exists item : ContentItem,
       result_of (Tools.handler i Fixtures.started) =
       inr {| content := [item]; isError := None |}
       /\ type item = "text"
       /\ text item = JSON.stringify (JsObject Fixtures.metrics_response) 2
       /\ JSON.parse (text item) = Some (JsObject Fixtures.metrics_response).
Proof.
  intros i. split; [reflexivity | split; [reflexivity |]].
  destruct (handler_success_is_serialized i
              (JsObject Fixtures.metrics_response) Fixtures.started eq_refl)
    as (item & Hresult & Htype & Htext & Hround).
  exists item. exact (conj Hresult (conj Htype (conj Htext (Hround eq_refl)))).
Defined.

(** A response that is not JSON data is not read back: the client's log
    search response holds the timestamp of a log as a [Date], the text
    holds it as a string, and so does what [JSON.parse] makes of the
    text. *)
Lemma dated_response_is_not_read_back :
  let i := Tools.search_logs Fixtures.dated_logs Fixtures.logs_args in
  Tools.api_outcome i = Resolved (JsObject Fixtures.dated_logs_response)
  /\ exists (item : ContentItem) (parsed : JsValue),
       result_of (Tools.handler i Fixtures.started) =
       inr {| content := [item]; isError := None |}
       /\ JSON.parse (text item) = Some parsed
       /\ parsed <> JsObject Fixtures.dated_logs_response.
Proof.
  split; [reflexivity |].
  eexists _, _. split; [reflexivity | split; [vm_compute; reflexivity |]].
  discriminate.
Qed.

(** C8.  A call of [search_logs] or [search_spans] sends one request whose
    [page.limit] is 100 when [limit] was omitted and the given value
    otherwise, and whose [filter] holds [query], [from] and [to] as given. *)
Theorem search_request_limit :
  (forall (logsApi : Logs.LogsApi) (input : Logs.Input) (w : World),
      api_calls (world_of (Logs.search_logs logsApi input w)) =
      api_calls w ++
      [{| api_method := "listLogs";
          api_request :=
            JsObject
              [("body",
                JsObject
                  [("filter",
                    JsObject [("query", JsString (Logs.input_query input));
                              ("from", JsString (Logs.input_from input));
                              ("to", JsString (Logs.input_to input))]);
                   ("page",
                    JsObject
                      [("limit",
                        JsNumber match Logs.input_limit input with
                                 | Some limit => limit
                                 | None => 100%Z
                                 end)]);
                   ("sort", JsString "timestamp")])] |}])
  /\ (forall (spansApi : Traces.SpansApi) (input : Traces.Input) (w : World),
      api_calls (world_of (Traces.search_spans spansApi input w)) =
      api_calls w ++
      [{| api_method := "listSpans";
          api_request :=
            JsObject
              [("body",
                JsObject
                  [("data",
                    JsObject
                      [("attributes",
                        JsObject
                          [("filter",
                            JsObject
                              [("query", JsString (Traces.input_query input));
                               ("from", JsString (Traces.input_from input));
                               ("to", JsString (Traces.input_to input))]);
                           ("page",
                            JsObject
                              [("limit",
                                JsNumber match Traces.input_limit input with
                                         | Some limit => limit
                                         | None => 100%Z
                                         end)]);
                           ("sort", JsString "timestamp")]);
                       ("type", JsString "search_request")])])] |}]).
Proof.
  split; intros api input w.
  - unfold Logs.search_logs.
    etransitivity;
      [exact (handler_api_calls (Tools.search_logs api (Logs.schema_parse input)) w) |].
    destruct input as [q f t [limit |]]; reflexivity.
  - unfold Traces.search_spans.
    etransitivity;
      [exact (handler_api_calls (Tools.search_spans api (Traces.schema_parse input)) w) |].
    destruct input as [q f t [limit |]]; reflexivity.
Qed.

(** ** The logger and the streams *)

Section DiagnosticsOnly.
Context {A B : Type}.

Lemma diagnostics_ret (a : A) : diagnostics_only (ret a).
Proof. intros w. split; [reflexivity | exists []; symmetry; apply app_nil_r]. Qed.

Lemma diagnostics_bind (m : M A) (k : A -> M B) :
  diagnostics_only m -> (forall a, diagnostics_only (k a)) ->
  diagnostics_only (bind m k).
Proof.
  intros Hm Hk w. unfold bind, world_of.
  destruct (Hm w) as [Hout [records Herr]]. unfold world_of in Hout, Herr.
  destruct (m w) as [[e | a] w1]; simpl in *.
  - split; [assumption | now exists records].
  - destruct (Hk a w1) as [Hout' [records' Herr']]. unfold world_of in Hout', Herr'.
    split; [congruence |].
    exists (records ++ records').
    rewrite Herr', Herr, map_app, app_assoc. reflexivity.
Qed.

Lemma diagnostics_try_catch (body : M A) (handler : Thrown -> M A) :
  diagnostics_only body -> (forall e, diagnostics_only (handler e)) ->
  diagnostics_only (try_catch body handler).
Proof.
  intros Hbody Hhandler w. unfold try_catch, world_of.
  destruct (Hbody w) as [Hout [records Herr]]. unfold world_of in Hout, Herr.
  destruct (body w) as [[e | a] w1]; simpl in *.
  - destruct (Hhandler e w1) as [Hout' [records' Herr']].
    unfold world_of in Hout', Herr'.
    split; [congruence |].
    exists (records ++ records').
    rewrite Herr', Herr, map_app, app_assoc. reflexivity.
  - split; [assumption | now exists records].
Qed.

Lemma diagnostics_await (method : string) (request : JsValue) (outcome : Outcome A) :
  diagnostics_only (await method request outcome).
Proof.
  intros w. unfold await, world_of.
  destruct outcome; simpl; (split; [reflexivity | exists []; symmetry; apply app_nil_r]).
Qed.

End DiagnosticsOnly.

Lemma diagnostics_log (level message : string) (meta : list (string * JsValue)) :
  diagnostics_only (Logger.log level message meta).
Proof.
  intros w. unfold Logger.log, world_of. simpl.
  rewrite stdout_logged, stderr_logged. split; [reflexivity |].
  destruct (Logger.level_enabled _ _).
  - now exists [{| log_level := level; log_message := message; log_meta := meta |}].
  - now exists [].
Qed.

Lemma diagnostics_server_tool (name description : string)
    (schema : list SchemaEntry) (handler : Handler) :
  diagnostics_only (server_tool name description schema handler).
Proof.
  intros w. unfold server_tool.
  destruct (has_tool name (server_tools w));
    (split; [reflexivity | exists []; symmetry; apply app_nil_r]).
Qed.

Ltac diagnostics :=
  repeat (first [ apply diagnostics_try_catch; [| intros ?]
                | apply diagnostics_bind; [| intros ?]
                | apply diagnostics_ret
                | apply diagnostics_await
                | apply diagnostics_log
                | apply diagnostics_server_tool ]).

Lemma diagnostics_handler (i : Tools.Invocation) :
  diagnostics_only (Tools.handler i).
Proof.
  destruct i; cbn [Tools.handler];
    unfold Metrics.query_metrics_handler, Logs.search_logs_handler,
      Monitors.get_monitor_handler, Monitors.list_monitors_handler,
      Traces.search_spans_handler, Logger.info, Logger.error;
    cbv zeta; diagnostics.
Qed.

Lemma diagnostics_configureIfDomainEnabled
    (enabledDomains : list string) (domain : string) (configureFn : M unit) :
  diagnostics_only configureFn ->
  diagnostics_only (Tools.configureIfDomainEnabled enabledDomains domain configureFn).
Proof.
  intros Hfn. unfold Tools.configureIfDomainEnabled, Logger.debug.
  destruct (includes enabledDomains domain); diagnostics; assumption.
Qed.

Lemma diagnostics_registerTools (enabledDomains : list string) (apis : Tools.DatadogAPIs) :
  diagnostics_only (Tools.registerTools enabledDomains apis).
Proof.
  unfold Tools.registerTools, Logger.info.
  repeat (first [ apply diagnostics_bind; [| intros ?]
                | apply diagnostics_log
                | apply diagnostics_configureIfDomainEnabled ]);
    unfold Metrics.configureMetricsTools, Logs.configureLogsTools,
      Monitors.configureMonitorsTools, Traces.configureTracesTools;
    diagnostics.
Qed.

(** C3.  A record emitted through the logger is appended to standard error
    and standard output is left as it was, whatever the level; every tool
    handler and the registration of the tools therefore write nothing to
    standard output, and only log lines to standard error. *)
Theorem logger_writes_to_stderr_only :
  (forall (level message : string) (meta : list (string * JsValue)) (w : World),
      let w' := world_of (Logger.log level message meta w) in
      stdout w' = stdout w
      /\ stderr w' =
         stderr w ++
         (if Logger.level_enabled (logger_level w) level
          then [LogLine {| log_level := level; log_message := message;
                           log_meta := meta |}]
          else []))
  /\ (forall (i : Tools.Invocation) (w : World),
      stdout (world_of (Tools.handler i w)) = stdout w
      /\ exists records : list LogRecord,
           stderr (world_of (Tools.handler i w)) = stderr w ++ map LogLine records)
  /\ (forall (enabledDomains : list string) (apis : Tools.DatadogAPIs) (w : World),
      stdout (world_of (Tools.registerTools enabledDomains apis w)) = stdout w
      /\ exists records : list LogRecord,
           stderr (world_of (Tools.registerTools enabledDomains apis w)) =
           stderr w ++ map LogLine records).
Proof.
  split; [| split].
  - intros level message meta w. simpl.
    split; [apply stdout_logged | apply stderr_logged].
  - intros i w. apply diagnostics_handler.
  - intros enabledDomains apis w. apply diagnostics_registerTools.
Qed.

(** ** Registration, step by step *)

Lemma has_tool_In (name : string) (tools : list ToolRegistration) :
  has_tool name tools = true <-> In name (map tool_name tools).
Proof.
  unfold has_tool. rewrite existsb_exists. split.
  - intros (other & Hother & Heq). apply String.eqb_eq in Heq. now subst.
  - intros Hname. exists name. split; [exact Hname | apply String.eqb_refl].
Qed.

Lemma has_tool_not_In (name : string) (tools : list ToolRegistration) :
  has_tool name tools = false <-> ~ In name (map tool_name tools).
Proof.
  rewrite <- has_tool_In. destruct (has_tool name tools); split; intros H;
    first [reflexivity | discriminate | now contradiction H].
Qed.

Lemma register_each_app (first_ then_ tools : list ToolRegistration) :
  register_each (first_ ++ then_) tools =
  match register_each first_ tools with
  | (inl e, tools') => (inl e, tools')
  | (inr _, tools') => register_each then_ tools'
  end.
Proof.
  revert tools. induction first_ as [| r first_ IH]; intros tools; [reflexivity |].
  cbn [app register_each].
  destruct (has_tool (tool_name r) tools); [reflexivity | apply IH].
Qed.

(** What [register_each] adds: the tools before the first whose name is
    taken, all of them when it returns. *)
Lemma register_each_adds (new tools : list ToolRegistration) :
  exists added rest : list ToolRegistration,
    new = added ++ rest
    /\ snd (register_each new tools) = tools ++ added
    /\ match fst (register_each new tools) with
       | inr _ => rest = []
       | inl e =>
           exists r rest',
             rest = r :: rest' /\ e = already_registered (tool_name r)
             /\ In (tool_name r) (map tool_name (tools ++ added))
       end.
Proof.
  revert tools. induction new as [| r new IH]; intros tools.
  - exists [], []. cbn [register_each fst snd app]. now rewrite app_nil_r.
  - cbn [register_each].
    destruct (has_tool (tool_name r) tools) eqn:Hheld.
    + exists [], (r :: new). cbn [fst snd app]. rewrite app_nil_r.
      split; [reflexivity | split; [reflexivity |]].
      exists r, new. apply has_tool_In in Hheld. now repeat split.
    + destruct (IH (tools ++ [r])) as (added & rest & -> & Hsnd & Hfst).
      exists (r :: added), rest. rewrite Hsnd, <- app_assoc.
      split; [reflexivity | split; [reflexivity |]].
      destruct (fst (register_each (added ++ rest) (tools ++ [r]))) as [e | []];
        [| exact Hfst].
      destruct Hfst as (r' & rest' & -> & -> & Hin).
      exists r', rest'. rewrite <- app_assoc in Hin. now repeat split.
Qed.

(** On a server that holds none of the names, tools of different names are
    all registered. *)
Lemma register_each_fresh (new tools : list ToolRegistration) :
  (forall name, In name (map tool_name new) -> ~ In name (map tool_name tools)) ->
  NoDup (map tool_name new) ->
  register_each new tools = (inr tt, tools ++ new).
Proof.
  revert tools. induction new as [| r new IH]; intros tools Hfresh Hnodup.
  - cbn [register_each]. now rewrite app_nil_r.
  - cbn [register_each map] in *. apply NoDup_cons in Hnodup.
    destruct Hnodup as [Hr Hnodup].
    assert (Hheld : has_tool (tool_name r) tools = false).
    { apply has_tool_not_In, Hfresh. now left. }
    rewrite Hheld, IH; [now rewrite <- app_assoc | | exact Hnodup].
    intros name Hname. rewrite map_app, in_app_iff. cbn [map In].
    intros [Htools | [<- | []]].
    + apply (Hfresh name); [now right | exact Htools].
    + apply Hr, list_elem_of_In, Hname.
Qed.

Lemma registers_log (level message : string) (meta : list (string * JsValue)) :
  registers [] (Logger.log level message meta).
Proof.
  intros w. unfold Logger.log, result_of, world_of. cbn [fst snd register_each].
  autorewrite with world. now repeat split.
Qed.

Lemma registers_server_tool (name description : string)
    (schema : list SchemaEntry) (handler : Handler) :
  registers
    [{| tool_name := name; tool_description := description;
        tool_schema := schema; tool_handler := handler |}]
    (server_tool name description schema handler).
Proof.
  intros w. unfold server_tool, result_of, world_of.
  cbn [register_each tool_name].
  destruct (has_tool name (server_tools w)); now repeat split.
Qed.

Lemma registers_seq (new1 new2 : list ToolRegistration) (m1 m2 : M unit) :
  registers new1 m1 -> registers new2 m2 ->
  registers (new1 ++ new2) (bind m1 (fun _ => m2)).
Proof.
  intros H1 H2 w. unfold bind, result_of, world_of.
  destruct (H1 w) as (Hr1 & Ht1 & Ha1 & Hl1).
  unfold result_of, world_of in Hr1, Ht1, Ha1, Hl1.
  rewrite register_each_app.
  destruct (m1 w) as [r1 w1]. cbn [fst snd] in *.
  destruct (register_each new1 (server_tools w)) as [r1' tools1].
  cbn [fst snd] in *. subst r1' tools1.
  destruct r1 as [e | []]; cbn [fst snd]; [now repeat split |].
  destruct (H2 w1) as (Hr2 & Ht2 & Ha2 & Hl2).
  unfold result_of, world_of in Hr2, Ht2, Ha2, Hl2.
  rewrite Hr2, Ht2, Ha2, Hl2, Ha1, Hl1. now repeat split.
Qed.

Lemma registers_configureIfDomainEnabled
    (enabledDomains : list string) (domain : string) (configureFn : M unit)
    (new : list ToolRegistration) :
  registers new configureFn ->
  registers (if includes enabledDomains domain then new else [])
    (Tools.configureIfDomainEnabled enabledDomains domain configureFn).
Proof.
  intros Hfn. unfold Tools.configureIfDomainEnabled, Logger.debug.
  destruct (includes enabledDomains domain).
  - apply (registers_seq [] new); [apply registers_log | exact Hfn].
  - apply registers_log.
Qed.

(** What [registerTools] does to the server: each domain has its
    registrations, the same for every list of domains, and those of the
    enabled domains are registered in the order of the source. *)
Lemma registerTools_registers (apis : Tools.DatadogAPIs) :
  exists metrics logs monitors traces : list ToolRegistration,
    (map tool_name metrics = ["query_metrics"]
     /\ map tool_name logs = ["search_logs"]
     /\ map tool_name monitors = ["get_monitor"; "list_monitors"]
     /\ map tool_name traces = ["search_spans"])
    /\ (map tool_handler metrics = [QueryMetrics (Tools.metrics (Tools.v1 apis))]
        /\ map tool_handler logs = [SearchLogs (Tools.logs (Tools.v2 apis))]
        /\ map tool_handler monitors =
           [GetMonitor (Tools.monitors (Tools.v1 apis));
            ListMonitors (Tools.monitors (Tools.v1 apis))]
        /\ map tool_handler traces = [SearchSpans (Tools.spans (Tools.v2 apis))])
    /\ forall enabledDomains : list string,
         registers
           ((if includes enabledDomains "metrics" then metrics else [])
            ++ (if includes enabledDomains "logs" then logs else [])
            ++ (if includes enabledDomains "monitors" then monitors else [])
            ++ (if includes enabledDomains "traces" then traces else []))
           (Tools.registerTools enabledDomains apis).
Proof.
  do 4 eexists. split; [| split]; cycle 2.
  - intros enabledDomains. unfold Tools.registerTools, Logger.info.
    rewrite <- (app_nil_r (if includes enabledDomains "traces" then _ else _)).
    apply (registers_seq []); [apply registers_log |].
    repeat (apply registers_seq;
            [apply registers_configureIfDomainEnabled |]);
      [ unfold Metrics.configureMetricsTools; apply registers_server_tool
      | unfold Logs.configureLogsTools; apply registers_server_tool
      | unfold Monitors.configureMonitorsTools;
        eapply registers_seq; apply registers_server_tool
      | unfold Traces.configureTracesTools; apply registers_server_tool
      | apply registers_log ].
  - now repeat split.
  - now repeat split.
Qed.

(** ** [registerTools] *)

Lemma In_if (b : bool) (l : list string) (x : string) :
  In x (if b then l else []) <-> b = true /\ In x l.
Proof. destruct b; simpl; intuition discriminate. Qed.

(** The tools of the enabled domains are the tools whose domain is in the
    list. *)
Lemma enabled_tools_In (enabledDomains : list string) (tool : string) :
  In tool (Tools.enabled_tools enabledDomains) <->
  exists domain : string,
    Tools.domain_of_tool tool = Some domain /\ In domain enabledDomains.
Proof.
  unfold Tools.enabled_tools.
  rewrite !in_app_iff, !In_if, !includes_In. cbn [In]. split.
  - intros [[Hd [<- | []]] | [[Hd [<- | []]] | [[Hd [<- | [<- | []]]] | [Hd [<- | []]]]]];
      eexists; (split; [reflexivity | exact Hd]).
  - intros (domain & Htool & Hdomain). unfold Tools.domain_of_tool in Htool.
    repeat match type of Htool with
           | (if String.eqb ?a ?b then _ else _) = _ =>
               destruct (String.eqb_spec a b) as [-> |]
           end;
      try discriminate; injection Htool as <-; tauto.
Qed.

Lemma enabled_tools_NoDup (enabledDomains : list string) :
  NoDup (Tools.enabled_tools enabledDomains).
Proof.
  unfold Tools.enabled_tools.
  destruct (includes enabledDomains "metrics"), (includes enabledDomains "logs"),
    (includes enabledDomains "monitors"), (includes enabledDomains "traces");
    cbn [app]; apply (bool_decide_unpack _); vm_compute; exact I.
Qed.

(** What [registerTools] adds to the tools of the server: the first of the
    tools of the enabled domains, up to one whose name the server holds. *)
Lemma registerTools_adds (enabledDomains : list string) (apis : Tools.DatadogAPIs)
    (w : World) :
  exists (added : list ToolRegistration) (rest : list string),
    server_tools (world_of (Tools.registerTools enabledDomains apis w)) =
    server_tools w ++ added
    /\ Tools.enabled_tools enabledDomains = map tool_name added ++ rest
    /\ match result_of (Tools.registerTools enabledDomains apis w) with
       | inr _ => rest = []
       | inl e =>
           exists name rest',
             rest = name :: rest' /\ e = already_registered name
             /\ In name (map tool_name (server_tools w ++ added))
       end.
Proof.
  destruct (registerTools_registers apis)
    as (metrics & logs & monitors & traces & (Hm & Hl & Hmo & Ht) & _ & Hregisters).
  destruct (Hregisters enabledDomains w) as (Hresult & Htools & _).
  rewrite Hresult, Htools.
  match goal with
  | |- context [register_each ?registrations _] => set (new := registrations)
  end.
  assert (Hnames : map tool_name new = Tools.enabled_tools enabledDomains).
  { subst new. unfold Tools.enabled_tools. rewrite !map_app.
    destruct (includes enabledDomains "metrics"), (includes enabledDomains "logs"),
      (includes enabledDomains "monitors"), (includes enabledDomains "traces");
      rewrite ?Hm, ?Hl, ?Hmo, ?Ht; reflexivity. }
  destruct (register_each_adds new (server_tools w))
    as (added & rest & Hnew & Hsnd & Hfst).
  exists added, (map tool_name rest).
  split; [exact Hsnd | split; [now rewrite <- Hnames, Hnew, map_app |]].
  destruct (fst (register_each new (server_tools w))) as [e | []].
  - destruct Hfst as (r & rest' & -> & -> & Hin).
    exists (tool_name r), (map tool_name rest'). now repeat split.
  - now rewrite Hfst.
Qed.

(** On a server that holds no tool of an enabled domain, [registerTools]
    returns and has registered them all. *)
Lemma registerTools_run (enabledDomains : list string) (apis : Tools.DatadogAPIs)
    (w : World) :
  (forall tool : string,
      In tool (Tools.enabled_tools enabledDomains) ->
      ~ In tool (map tool_name (server_tools w))) ->
  result_of (Tools.registerTools enabledDomains apis w) = inr tt
  /\ exists new : list ToolRegistration,
       server_tools (world_of (Tools.registerTools enabledDomains apis w)) =
       server_tools w ++ new
       /\ map tool_name new = Tools.enabled_tools enabledDomains.
Proof.
  intros Hfresh.
  destruct (registerTools_registers apis)
    as (metrics & logs & monitors & traces & (Hm & Hl & Hmo & Ht) & _ & Hregisters).
  destruct (Hregisters enabledDomains w) as (Hresult & Htools & _).
  rewrite Hresult, Htools.
  match goal with
  | |- context [register_each ?new _] =>
      assert (Hnames : map tool_name new = Tools.enabled_tools enabledDomains)
  end.
  { unfold Tools.enabled_tools. rewrite !map_app.
    destruct (includes enabledDomains "metrics"), (includes enabledDomains "logs"),
      (includes enabledDomains "monitors"), (includes enabledDomains "traces");
      rewrite ?Hm, ?Hl, ?Hmo, ?Ht; reflexivity. }
  rewrite register_each_fresh.
  - split; [reflexivity |]. eexists. split; [reflexivity | exact Hnames].
  - rewrite Hnames. exact Hfresh.
  - rewrite Hnames. apply enabled_tools_NoDup.
Qed.

(** Every handler of the dispatch table is registered under its name when
    all the domains are enabled on a server that holds none of the tools. *)
Lemma invocation_is_registered (i : Tools.Invocation) (apis : Tools.DatadogAPIs)
    (w : World) :
  (forall tool : string,
      In tool (Tools.enabled_tools ALL_DOMAINS) ->
      ~ In tool (map tool_name (server_tools w))) ->
  In (Tools.tool_of i)
    (map tool_name
       (server_tools (world_of (Tools.registerTools ALL_DOMAINS apis w)))).
Proof.
  intros Hfresh.
  destruct (registerTools_run ALL_DOMAINS apis w Hfresh) as [_ [new [-> Hnames]]].
  rewrite map_app, in_app_iff, Hnames. right.
  destruct i; cbn; tauto.
Qed.

(** C2.  On a server that holds no tool of an enabled domain yet,
    [registerTools] returns normally and adds to the server exactly the
    tools of the enabled domains: [query_metrics] if and only if ['metrics']
    is in the list, [search_logs] if and only if ['logs'] is, [get_monitor]
    and [list_monitors] if and only if ['monitors'] is, [search_spans] if and
    only if ['traces'] is.  On every server, every tool it adds belongs to a
    domain of the list. *)
Theorem registerTools_registers_enabled_domains
    (enabledDomains : list string) (apis : Tools.DatadogAPIs) :
  (forall w : World,
      (forall tool domain : string,
          Tools.domain_of_tool tool = Some domain -> In domain enabledDomains ->
          ~ In tool (map tool_name (server_tools w))) ->
      result_of (Tools.registerTools enabledDomains apis w) = inr tt
      /\ exists new : list ToolRegistration,
           server_tools (world_of (Tools.registerTools enabledDomains apis w)) =
           server_tools w ++ new
           /\ (In "query_metrics" (map tool_name new) <-> In "metrics" enabledDomains)
           /\ (In "search_logs" (map tool_name new) <-> In "logs" enabledDomains)
           /\ (In "get_monitor" (map tool_name new) <-> In "monitors" enabledDomains)
           /\ (In "list_monitors" (map tool_name new) <-> In "monitors" enabledDomains)
           /\ (In "search_spans" (map tool_name new) <-> In "traces" enabledDomains))
  /\ (forall w : World,
        exists new : list ToolRegistration,
          server_tools (world_of (Tools.registerTools enabledDomains apis w)) =
          server_tools w ++ new
          /\ forall tool : string,
               In tool (map tool_name new) ->
               exists domain : string,
                 Tools.domain_of_tool tool = Some domain
                 /\ In domain enabledDomains).
Proof.
  split.
  - intros w Hfresh.
    destruct (registerTools_run enabledDomains apis w)
      as [Hreturns [new [Htools Hnames]]].
    { intros tool Htool. apply enabled_tools_In in Htool.
      destruct Htool as (domain & Htool & Hdomain). now apply (Hfresh tool domain). }
    split; [exact Hreturns |].
    exists new. split; [exact Htools |].
    rewrite Hnames. unfold Tools.enabled_tools.
    split; [| split; [| split; [| split]]];
      rewrite !in_app_iff, !In_if, !includes_In; cbn [In];
      intuition discriminate.
  - intros w.
    destruct (registerTools_adds enabledDomains apis w)
      as (added & rest & Htools & Hnames & _).
    exists added. split; [exact Htools |].
    intros tool Htool. apply enabled_tools_In.
    rewrite Hnames, in_app_iff. now left.
Qed.

Lemma registerTools_registers_enabled_domains_witness :
  (forall tool domain : string,
      Tools.domain_of_tool tool = Some domain -> In domain ["logs"] ->
      ~ In tool (map tool_name (server_tools Fixtures.started)))
  /\ result_of (Tools.registerTools ["logs"] Startup.apis Fixtures.started) = inr tt
  /\ exists new : list ToolRegistration,
       server_tools
         (world_of (Tools.registerTools ["logs"] Startup.apis Fixtures.started)) =
       server_tools Fixtures.started ++ new
       /\ (In "query_metrics" (map tool_name new) <-> In "metrics" ["logs"])
       /\ (In "search_logs" (map tool_name new) <-> In "logs" ["logs"])
       /\ (In "get_monitor" (map tool_name new) <-> In "monitors" ["logs"])
       /\ (In "list_monitors" (map tool_name new) <-> In "monitors" ["logs"])
       /\ (In "search_spans" (map tool_name new) <-> In "traces" ["logs"]).
Proof.
  assert (Hfresh : forall tool domain : string,
             Tools.domain_of_tool tool = Some domain -> In domain ["logs"] ->
             ~ In tool (map tool_name (server_tools Fixtures.started)))
    by (intros tool domain _ _ []).
  exact (conj Hfresh
           (proj1 (registerTools_registers_enabled_domains ["logs"] Startup.apis)
              Fixtures.started Hfresh)).
Defined.

(** On a server that holds [query_metrics] already, [registerTools] for
    metrics and logs throws the error of [server.tool], and [search_logs]
    is not registered although ['logs'] is in the list. *)
Lemma registerTools_stops_at_a_registered_name :
  let w := Fixtures.holding_query_metrics in
  result_of (Tools.registerTools ["metrics"; "logs"] Startup.apis w) =
  inl (ErrorInstance "Tool query_metrics is already registered")
  /\ In "logs" ["metrics"; "logs"]
  /\ ~ In "search_logs"
         (map tool_name
            (server_tools
               (world_of (Tools.registerTools ["metrics"; "logs"] Startup.apis w)))).
Proof.
  split; [reflexivity | split; [cbn [In]; tauto |]].
  vm_compute. intros [H | []]. discriminate H.
Qed.

(** ** State Store *)

Section StateStoreFacts.
Import StateStore.

Lemma get_app_found (key value : string) (s extra : Store) :
  get key s = inr value -> get key (s ++ extra) = inr value.
Proof.
  induction s as [| [k v] s IH]; simpl; [discriminate |].
  destruct (String.eqb k key); [trivial | exact IH].
Qed.

Lemma set_keeps_binding (key value k v : string) (s : Store) :
  get key s = inr value -> get key (snd (set k v s)) = inr value.
Proof.
  intros Hget. unfold set. destruct (get k s); simpl.
  - now apply get_app_found.
  - exact Hget.
Qed.

Lemma set_refused (key value existing : string) (s : Store) :
  get key s = inr existing -> set key value s = (inl (DuplicateKey key), s).
Proof. intros Hget. unfold set. now rewrite Hget. Qed.

(** Once a key is bound, no later [set] of it succeeds. *)
Lemma run_sets_bound (key existing : string) (writes : list (string * string))
    (s : Store) :
  get key s = inr existing ->
  List.filter (succeeded key) (fst (run_sets writes s)) = [].
Proof.
  revert s. induction writes as [| [k v] writes IH]; intros s Hget; [reflexivity |].
  cbn [run_sets].
  pose proof (set_keeps_binding key existing k v s Hget) as Hkept.
  destruct (set k v s) as [r s'] eqn:Hset. cbn [snd] in Hkept.
  specialize (IH s' Hkept).
  destruct (run_sets writes s') as [log s'']. cbn [fst] in *.
  cbn [List.filter]. rewrite IH.
  destruct r as [e | []]; cbn [succeeded]; [reflexivity |].
  destruct (String.eqb k key) eqn:Hk; [| reflexivity].
  apply String.eqb_eq in Hk. subst k.
  rewrite (set_refused key v existing s Hget) in Hset. discriminate.
Qed.

Lemma run_sets_once (key : string) (writes : list (string * string)) (s : Store) :
  length (List.filter (succeeded key) (fst (run_sets writes s))) <= 1.
Proof.
  revert s. induction writes as [| [k v] writes IH]; intros s; [simpl; lia |].
  cbn [run_sets].
  destruct (set k v s) as [r s'] eqn:Hset.
  pose proof (IH s') as Hrest.
  pose proof (fun existing => run_sets_bound key existing writes s') as Hbound.
  destruct (run_sets writes s') as [log s'']. cbn [fst] in *.
  cbn [List.filter].
  destruct r as [e | []]; cbn [succeeded]; [exact Hrest |].
  destruct (String.eqb k key) eqn:Hk; [| exact Hrest].
  apply String.eqb_eq in Hk. subst k.
  unfold set in Hset. destruct (get key s) eqn:Hget; [| discriminate].
  injection Hset as <-.
  assert (Hnow : get key (s ++ [(key, v)]) = inr v).
  { clear -Hget. induction s as [| [k' v'] s IH]; simpl in *.
    - now rewrite String.eqb_refl.
    - destruct (String.eqb k' key); [discriminate | now apply IH]. }
  rewrite (Hbound v Hnow). simpl. lia.
Qed.

End StateStoreFacts.

(** C6.  A [set] of a key that is already bound fails with [DuplicateKey]
    and leaves the store, and so the binding of the key, as it was; in a
    session, whatever writes are attempted, at most one [set] of a given key
    succeeds. *)
Theorem set_is_write_once (s : StateStore.Store) (key value existing : string)
    (writes : list (string * string)) :
  StateStore.get key s = inr existing ->
  StateStore.set key value s = (inl (StateStore.DuplicateKey key), s)
  /\ StateStore.get key (snd (StateStore.set key value s)) = inr existing
  /\ length (List.filter (StateStore.succeeded key)
               (fst (StateStore.run_sets writes StateStore.empty))) <= 1.
Proof.
  intros Hget. split; [| split].
  - exact (set_refused key value existing s Hget).
  - exact (set_keeps_binding key existing key value s Hget).
  - apply run_sets_once.
Qed.

Lemma set_is_write_once_witness :
  StateStore.get "decision" [("investigation_report", "cpu spike"); ("decision", "TICKET")] =
  inr "TICKET"
  /\ StateStore.set "decision" "IGNORE"
       [("investigation_report", "cpu spike"); ("decision", "TICKET")] =
     (inl (StateStore.DuplicateKey "decision"),
      [("investigation_report", "cpu spike"); ("decision", "TICKET")])
  /\ length (List.filter (StateStore.succeeded "decision")
               (fst (StateStore.run_sets
                       [("decision", "TICKET"); ("decision", "IGNORE")]
                       StateStore.empty))) <= 1.
Proof.
  pose proof (set_is_write_once
                [("investigation_report", "cpu spike"); ("decision", "TICKET")]
                "decision" "IGNORE" "TICKET"
                [("decision", "TICKET"); ("decision", "IGNORE")] eq_refl)
    as [Hfails [_ Honce]].
  exact (conj eq_refl (conj Hfails Honce)).
Defined.

(** ** Pipeline Executor *)

Section PipelineFacts.
Import StateStore Pipeline.
Variable body : Stage -> string -> string + string.
Variable stages : list Stage.

Lemma session_after_S (n : nat) :
  session_after body stages (S n) = step body stages (session_after body stages n).
Proof. reflexivity. Qed.

Lemma attempt_writes_output (stage : Stage) (s s' : Store) :
  attempt body stage s = inr s' ->
  map fst s' = map fst s ++ [output_key stage].
Proof.
  unfold attempt, set.
  destruct (render _ _); [discriminate |].
  destruct (body _ _) as [reason | output]; [discriminate |].
  destruct (get _ _); [| discriminate].
  intros [= <-]. now rewrite map_app.
Qed.

Lemma step_consistent (s : Session) :
  consistent stages s -> consistent stages (step body stages s).
Proof.
  unfold consistent, step.
  destruct (status s) as [| i | | i cause] eqn:Hstatus; cbn [status store executed].
  - intros [-> ->]. repeat split; [lia | constructor].
  - intros (Hle & Hkeys & Hexecuted).
    destruct (stages !! i) as [stage |] eqn:Hstage.
    + pose proof (lookup_lt_Some _ _ _ Hstage) as Hlt.
      assert (Hexecuted' :
                Forall (fun j => j <= i)
                  (executed s ++ (if body_runs stage (store s) then [i] else []))).
      { apply Forall_app. split.
        - eapply Forall_impl; [exact Hexecuted |]. cbn. lia.
        - destruct (body_runs _ _); repeat constructor. }
      destruct (attempt body stage (store s)) as [cause | store'] eqn:Hattempt;
        cbn [status store executed].
      * repeat split; assumption.
      * repeat split; [lia | |].
        -- rewrite (attempt_writes_output _ _ _ Hattempt), Hkeys.
           rewrite (take_S_r _ _ _ Hstage), map_app. reflexivity.
        -- eapply Forall_impl; [exact Hexecuted' |]. cbn. lia.
    + cbn [status store executed].
      apply lookup_ge_None in Hstage.
      rewrite take_ge in Hkeys by lia.
      split; [exact Hkeys |].
      eapply Forall_impl; [exact Hexecuted |]. cbn. lia.
  - rewrite Hstatus. trivial.
  - rewrite Hstatus. trivial.
Qed.

Lemma session_after_consistent (n : nat) :
  consistent stages (session_after body stages n).
Proof.
  induction n as [| n IH].
  - unfold consistent. simpl. split; reflexivity.
  - rewrite session_after_S. now apply step_consistent.
Qed.

(** A failed session takes no further transition. *)
Lemma failed_is_final (s : Session) (i : nat) (cause : Cause) (k : nat) :
  status s = Failed i cause -> Nat.iter k (step body stages) s = s.
Proof.
  intros Hfailed. induction k as [| k IH]; [reflexivity |].
  rewrite Nat.iter_succ, IH. unfold step. now rewrite Hfailed.
Qed.

End PipelineFacts.

(** The first scenario of section 8: with bodies that echo their
    instructions the three stages complete and the store holds their outputs
    in order. *)
Example three_stages_complete :
  Pipeline.status (Pipeline.run Scenario.echo Scenario.stages) = Pipeline.Completed
  /\ map fst (Pipeline.store (Pipeline.run Scenario.echo Scenario.stages)) =
     ["investigate"; "decide"; "act"]
  /\ Pipeline.executed (Pipeline.run Scenario.echo Scenario.stages) = [0; 1; 2].
Proof. repeat split. Qed.

(** C7.  If the session reaches stage [i] and that stage fails, whether at
    rendering, in its body or at the write of its output, the run ends in
    [Failed(i, cause)]; the store is the one stage [i] started from, its keys
    the output keys of the stages before [i] in order, and no stage after
    [i] was executed. *)
Theorem failed_stage_halts_pipeline
    (body : Pipeline.Stage -> string -> string + string)
    (stages : list Pipeline.Stage) (i : nat) (stage : Pipeline.Stage)
    (cause : Pipeline.Cause) :
  Pipeline.status (Pipeline.session_after body stages (S i)) = Pipeline.Running i ->
  stages !! i = Some stage ->
  Pipeline.attempt body stage
    (Pipeline.store (Pipeline.session_after body stages (S i))) = inl cause ->
  let final := Pipeline.run body stages in
  Pipeline.status final = Pipeline.Failed i cause
  /\ Pipeline.store final = Pipeline.store (Pipeline.session_after body stages (S i))
  /\ map fst (Pipeline.store final) = map Pipeline.output_key (take i stages)
  /\ Forall (fun j => j <= i) (Pipeline.executed final).
Proof.
  intros Hrunning Hstage Hfails final.
  pose proof (lookup_lt_Some _ _ _ Hstage) as Hlt.
  set (reached := Pipeline.session_after body stages (S i)) in *.
  assert (Hnext :
            Pipeline.step body stages reached =
            {| Pipeline.store := Pipeline.store reached;
               Pipeline.status := Pipeline.Failed i cause;
               Pipeline.executed :=
                 Pipeline.executed reached ++
                 (if Pipeline.body_runs stage (Pipeline.store reached)
                  then [i] else []) |}).
  { unfold Pipeline.step. now rewrite Hrunning, Hstage, Hfails. }
  assert (Hfinal : final = Pipeline.step body stages reached).
  { unfold final, Pipeline.run, Pipeline.session_after.
    replace (length stages + 2) with ((length stages - S i + 1) + S (S i)) by lia.
    rewrite Nat.iter_add.
    change (Nat.iter (S (S i)) (Pipeline.step body stages) Pipeline.initial)
      with (Pipeline.step body stages reached).
    apply failed_is_final with (i := i) (cause := cause).
    now rewrite Hnext. }
  pose proof (session_after_consistent body stages (S (S i))) as Hconsistent.
  rewrite session_after_S in Hconsistent. fold reached in Hconsistent.
  rewrite <- Hfinal in Hconsistent.
  assert (Hstatus : Pipeline.status final = Pipeline.Failed i cause)
    by now rewrite Hfinal, Hnext.
  unfold Pipeline.consistent in Hconsistent. rewrite Hstatus in Hconsistent.
  destruct Hconsistent as (_ & Hkeys & Hexecuted).
  repeat split; try assumption.
  now rewrite Hfinal, Hnext.
Qed.

Lemma failed_stage_halts_pipeline_witness :
  Pipeline.status (Pipeline.session_after Scenario.failing_decide Scenario.stages 2) =
  Pipeline.Running 1
  /\ Scenario.stages !! 1 = Some Scenario.decide
  /\ Pipeline.attempt Scenario.failing_decide Scenario.decide
       (Pipeline.store
          (Pipeline.session_after Scenario.failing_decide Scenario.stages 2)) =
     inl (Pipeline.BodyFailed "no decision")
  /\ Pipeline.status (Pipeline.run Scenario.failing_decide Scenario.stages) =
     Pipeline.Failed 1 (Pipeline.BodyFailed "no decision")
  /\ Pipeline.store (Pipeline.run Scenario.failing_decide Scenario.stages) =
     [("investigate", "Investigate the alert.")]
  /\ Pipeline.executed (Pipeline.run Scenario.failing_decide Scenario.stages) = [0; 1].
Proof.
  pose proof (failed_stage_halts_pipeline Scenario.failing_decide Scenario.stages 1
                Scenario.decide (Pipeline.BodyFailed "no decision")
                eq_refl eq_refl eq_refl) as (Hstatus & Hstore & _ & _).
  exact (conj eq_refl (conj eq_refl (conj eq_refl
           (conj Hstatus (conj Hstore eq_refl))))).
Defined.

(** ** RPC Engine *)

Section EngineFacts.
Import Engine.

Lemma after_snoc (events : list Event) (e : Event) :
  after (events ++ [e]) = handle (after events) e.
Proof. unfold after. now rewrite fold_left_app. Qed.

Lemma after_app (before later : list Event) :
  after (before ++ later) = fold_left handle later (after before).
Proof. unfold after. now rewrite fold_left_app. Qed.

Lemma resolutions_of_snoc (h : nat) (l : list Resolved) (x : Resolved) :
  map resolved_with (filter (fun y => resolved_call y = h) (l ++ [x])) =
  map resolved_with (filter (fun y => resolved_call y = h) l)
  ++ (if decide (resolved_call x = h) then [resolved_with x] else []).
Proof.
  rewrite filter_app, map_app. f_equal.
  rewrite filter_cons, filter_nil. now destruct (decide _).
Qed.

Lemma resolutions_of_nil (h : nat) (c : Connection) :
  resolutions_of h c = [] <->
  (forall x, In x (resolutions c) -> resolved_call x <> h).
Proof.
  unfold resolutions_of. induction (resolutions c) as [| y l IH].
  - split; [intros _ x [] | reflexivity].
  - rewrite filter_cons. destruct (decide (resolved_call y = h)) as [Heq | Hne].
    + split; [discriminate |]. intros Hall. exfalso.
      exact (Hall y (or_introl eq_refl) Heq).
    + rewrite IH. split.
      * intros Hall x [<- | Hx]; [exact Hne | now apply Hall].
      * intros Hall x Hx. apply Hall. now right.
Qed.

Lemma resolutions_of_In (h : nat) (c : Connection) (a : Resolution) :
  In a (resolutions_of h c) <->
  exists x, In x (resolutions c) /\ resolved_call x = h /\ resolved_with x = a.
Proof.
  unfold resolutions_of. rewrite in_map_iff. split.
  - intros (x & Hwith & Hx). apply list_elem_of_In, list_elem_of_filter in Hx.
    destruct Hx as [Hcall Hx]. apply list_elem_of_In in Hx. eauto.
  - intros (x & Hx & Hcall & Hwith). exists x. split; [exact Hwith |].
    apply list_elem_of_In, list_elem_of_filter. split; [exact Hcall |].
    now apply list_elem_of_In.
Qed.

Lemma NoDup_snd_injective {A B : Type} (l : list (A * B)) (a a' : A) (b : B) :
  NoDup (map snd l) -> In (a, b) l -> In (a', b) l -> a = a'.
Proof.
  induction l as [| [x y] l IH]; simpl; [tauto |].
  rewrite NoDup_cons. intros [Hfresh Hnodup] [Heq | Hin] [Heq' | Hin'].
  - congruence.
  - injection Heq as -> ->. exfalso. apply Hfresh.
    apply list_elem_of_In, in_map_iff. now exists (a', b).
  - injection Heq' as -> ->. exfalso. apply Hfresh.
    apply list_elem_of_In, in_map_iff. now exists (a, b).
  - now apply IH.
Qed.

Lemma In_snoc {A : Type} (l : list A) (x y : A) :
  In y (l ++ [x]) <-> In y l \/ y = x.
Proof. rewrite in_app_iff. simpl. intuition. Qed.

Lemma fresh_well_formed : well_formed fresh.
Proof.
  constructor; simpl; try constructor; intros; now exfalso.
Qed.

(** A call that starts: refused at once, or written under a fresh id. *)
Lemma call_well_formed (m : Method) (params : string) (c : Connection) :
  well_formed c -> well_formed (call m params c).
Proof.
  intros [Hpending Hwaiting Hresolved Hrouted Hissued Hcalls Hids].
  unfold call. destruct (guard m c) as [e |].
  - constructor; cbn [negotiated next_id next_call pending written issued resolutions].
    + intros id p Hp. destruct (Hpending id p Hp) as (Hin & Hnone & Hlt).
      split; [exact Hin | split; [| lia]].
      apply resolutions_of_nil. cbn [resolutions]. intros x Hx.
      apply In_snoc in Hx. destruct Hx as [Hx | ->]; cbn [resolved_call].
      * exact (proj1 (resolutions_of_nil _ _) Hnone x Hx).
      * lia.
    + exact Hwaiting.
    + intros x Hx. apply In_snoc in Hx. destruct Hx as [Hx | ->].
      * specialize (Hresolved x Hx). lia.
      * cbn [resolved_call]. lia.
    + intros x r Hx Hanswered. apply In_snoc in Hx. destruct Hx as [Hx | ->].
      * now apply Hrouted.
      * discriminate Hanswered.
    + intros h id Hin. specialize (Hissued h id Hin). lia.
    + exact Hcalls.
    + exact Hids.
  - constructor; cbn [negotiated next_id next_call pending written issued resolutions].
    + intros id p Hp. apply lookup_insert_Some in Hp.
      destruct Hp as [[<- <-] | [Hne Hp]]; cbn [caller].
      * split; [apply In_snoc; now right | split; [| lia]].
        apply resolutions_of_nil. cbn [resolutions]. intros x Hx.
        specialize (Hresolved x Hx). lia.
      * destruct (Hpending id p Hp) as (Hin & Hnone & Hlt).
        split; [apply In_snoc; now left | split; [exact Hnone | lia]].
    + intros id1 id2 p1 p2 Hp1 Hp2 Hsame.
      apply lookup_insert_Some in Hp1. apply lookup_insert_Some in Hp2.
      destruct Hp1 as [[<- <-] | [Hne1 Hp1]], Hp2 as [[<- <-] | [Hne2 Hp2]];
        cbn [caller] in *.
      * reflexivity.
      * destruct (Hpending id2 p2 Hp2) as (_ & _ & Hlt). lia.
      * destruct (Hpending id1 p1 Hp1) as (_ & _ & Hlt). lia.
      * now apply (Hwaiting id1 id2 p1 p2).
    + intros x Hx. specialize (Hresolved x Hx). lia.
    + intros x r Hx Hanswered. apply In_snoc. left. now apply Hrouted.
    + intros h id Hin. apply In_snoc in Hin. destruct Hin as [Hin | [= -> ->]].
      * specialize (Hissued h id Hin). lia.
      * lia.
    + rewrite map_app. apply NoDup_app. split; [exact Hcalls | split].
      * intros h Hh Hnew. apply list_elem_of_In, in_map_iff in Hh.
        destruct Hh as ([h' id] & <- & Hin). cbn [fst] in Hnew.
        apply list_elem_of_In in Hnew. destruct Hnew as [Hnew | []].
        specialize (Hissued h' id Hin). cbn in Hnew. lia.
      * apply NoDup_singleton.
    + rewrite map_app. apply NoDup_app. split; [exact Hids | split].
      * intros id Hid Hnew. apply list_elem_of_In, in_map_iff in Hid.
        destruct Hid as ([h id'] & <- & Hin). cbn [snd] in Hnew.
        apply list_elem_of_In in Hnew. destruct Hnew as [Hnew | []].
        specialize (Hissued h id' Hin). cbn in Hnew. lia.
      * apply NoDup_singleton.
Qed.

(** A call in flight that ends, answered or timed out. *)
Lemma resolve_well_formed (c : Connection) (id : nat) (p : PendingCall)
    (how : Resolution) (declared : option (list string)) :
  pending c !! id = Some p ->
  (forall r, how = Answered r -> response_id r = id) ->
  well_formed c ->
  well_formed
    {| negotiated := declared; next_id := next_id c; next_call := next_call c;
       pending := delete id (pending c); written := written c;
       issued := issued c;
       resolutions :=
         resolutions c ++
         [{| resolved_call := caller p; resolved_method := pending_method p;
             resolved_with := how |}] |}.
Proof.
  intros Hp Hid [Hpending Hwaiting Hresolved Hrouted Hissued Hcalls Hids].
  destruct (Hpending id p Hp) as (Hin & Hnone & Hlt).
  constructor; cbn [negotiated next_id next_call pending written issued resolutions].
  - intros id' p' Hp'. apply lookup_delete_Some in Hp'. destruct Hp' as [Hne Hp'].
    destruct (Hpending id' p' Hp') as (Hin' & Hnone' & Hlt').
    split; [exact Hin' | split; [| exact Hlt']].
    apply resolutions_of_nil. cbn [resolutions]. intros x Hx.
    apply In_snoc in Hx. destruct Hx as [Hx | ->]; cbn [resolved_call].
    + exact (proj1 (resolutions_of_nil _ _) Hnone' x Hx).
    + intros Hsame. apply Hne. now apply (Hwaiting id id' p p').
  - intros id1 id2 p1 p2 Hp1 Hp2.
    apply lookup_delete_Some in Hp1. apply lookup_delete_Some in Hp2.
    apply (Hwaiting id1 id2 p1 p2); tauto.
  - intros x Hx. apply In_snoc in Hx. destruct Hx as [Hx | ->].
    + now apply Hresolved.
    + exact Hlt.
  - intros x r Hx Hanswered. apply In_snoc in Hx. destruct Hx as [Hx | ->].
    + now apply Hrouted.
    + cbn [resolved_with resolved_call] in *. now rewrite (Hid r Hanswered).
  - exact Hissued.
  - exact Hcalls.
  - exact Hids.
Qed.

Lemma handle_well_formed (c : Connection) (e : Event) :
  well_formed c -> well_formed (handle c e).
Proof.
  intros Hwf. destruct e as [m params | r | id]; cbn [handle].
  - now apply call_well_formed.
  - unfold receive. destruct (pending c !! response_id r) as [p |] eqn:Hp; [| exact Hwf].
    apply resolve_well_formed; [exact Hp | | exact Hwf]. now intros r' [= <-].
  - unfold expire. destruct (pending c !! id) as [p |] eqn:Hp; [| exact Hwf].
    apply resolve_well_formed; [exact Hp | | exact Hwf]. discriminate.
Qed.

Lemma fold_well_formed (events : list Event) (c : Connection) :
  well_formed c -> well_formed (fold_left handle events c).
Proof.
  revert c. induction events as [| e events IH]; intros c Hwf; [exact Hwf |].
  cbn [fold_left]. apply IH. now apply handle_well_formed.
Qed.

Lemma after_well_formed (events : list Event) : well_formed (after events).
Proof. apply fold_well_formed, fresh_well_formed. Qed.

(** Once a call has ended, nothing that happens later concerns it. *)
Lemma ended_call_stays (c : Connection) (e : Event) (h : nat) :
  well_formed c -> resolutions_of h c <> [] ->
  resolutions_of h (handle c e) = resolutions_of h c.
Proof.
  intros Hwf Hended.
  assert (Hlt : h < next_call c).
  { destruct (resolutions_of h c) as [| a l] eqn:Hof; [contradiction |].
    assert (Hin : In a (resolutions_of h c)) by (rewrite Hof; now left).
    apply resolutions_of_In in Hin. destruct Hin as (x & Hx & <- & _).
    now apply (wf_resolved c Hwf). }
  assert (Hflight : forall id p, pending c !! id = Some p -> caller p <> h).
  { intros id p Hp <-. now destruct (wf_pending c Hwf id p Hp) as (_ & Hnone & _). }
  assert (Hsnoc : forall x declared nid ncall pend wr iss,
             resolved_call x <> h ->
             resolutions_of h
               {| negotiated := declared; next_id := nid; next_call := ncall;
                  pending := pend; written := wr; issued := iss;
                  resolutions := resolutions c ++ [x] |} = resolutions_of h c).
  { intros x declared nid ncall pend wr iss Hne. unfold resolutions_of.
    cbn [resolutions]. rewrite resolutions_of_snoc.
    destruct (decide (resolved_call x = h)); [contradiction | apply app_nil_r]. }
  destruct e as [m params | r | id]; cbn [handle].
  - unfold call. destruct (guard m c); [| reflexivity].
    apply Hsnoc. cbn [resolved_call]. lia.
  - unfold receive. destruct (pending c !! response_id r) as [p |] eqn:Hp; [| reflexivity].
    apply Hsnoc. cbn [resolved_call]. now apply (Hflight (response_id r)).
  - unfold expire. destruct (pending c !! id) as [p |] eqn:Hp; [| reflexivity].
    apply Hsnoc. cbn [resolved_call]. now apply (Hflight id).
Qed.

Lemma ended_call_stays_fold (events : list Event) (c : Connection) (h : nat) :
  well_formed c -> resolutions_of h c <> [] ->
  resolutions_of h (fold_left handle events c) = resolutions_of h c.
Proof.
  revert c. induction events as [| e events IH]; intros c Hwf Hended; [reflexivity |].
  cbn [fold_left].
  pose proof (ended_call_stays c e h Hwf Hended) as Hstep.
  rewrite IH; [exact Hstep | now apply handle_well_formed | now rewrite Hstep].
Qed.

Lemma negotiated_after_None (p : PendingCall) (r : Response) (c : Connection) :
  negotiated_after p r c = None -> negotiated c = None.
Proof.
  unfold negotiated_after.
  destruct (pending_method p), (negotiated c), (response_result r) as [| []];
    congruence.
Qed.

Lemma fresh_awaiting : awaiting_negotiation fresh.
Proof.
  intros _. split.
  - intros id p Hp. unfold fresh in Hp. cbn [pending] in Hp.
    now rewrite lookup_empty in Hp.
  - intros x [].
Qed.

Lemma handle_awaiting (c : Connection) (e : Event) :
  awaiting_negotiation c -> awaiting_negotiation (handle c e).
Proof.
  intros Hawait. destruct e as [m params | r | id]; cbn [handle].
  - unfold call. destruct (guard m c) as [e |] eqn:Hguard;
      intros Hnone; cbn [negotiated pending resolutions] in *;
      destruct (Hawait Hnone) as [Hflight Hended].
    + split; [exact Hflight |]. intros x Hx Hmethod.
      apply In_snoc in Hx. destruct Hx as [Hx | ->]; [now apply Hended |].
      cbn [resolved_method resolved_with] in *.
      destruct m as [| category operation]; [contradiction |].
      cbn [guard] in Hguard. rewrite Hnone in Hguard. congruence.
    + split; [| exact Hended]. intros id p Hp.
      apply lookup_insert_Some in Hp. destruct Hp as [[_ <-] | [_ Hp]];
        [| now apply (Hflight id)].
      cbn [pending_method].
      destruct m as [| category operation]; [reflexivity |].
      cbn [guard] in Hguard. rewrite Hnone in Hguard. discriminate.
  - unfold receive. destruct (pending c !! response_id r) as [p |] eqn:Hp;
      [| exact Hawait].
    intros Hnone. cbn [negotiated pending resolutions] in *.
    apply negotiated_after_None in Hnone. destruct (Hawait Hnone) as [Hflight Hended].
    split.
    + intros id' p' Hp'. apply lookup_delete_Some in Hp'. now apply (Hflight id').
    + intros x Hx Hmethod. apply In_snoc in Hx.
      destruct Hx as [Hx | ->]; [now apply Hended |].
      cbn [resolved_method] in Hmethod. now rewrite (Hflight _ _ Hp) in Hmethod.
  - unfold expire. destruct (pending c !! id) as [p |] eqn:Hp; [| exact Hawait].
    intros Hnone. cbn [negotiated pending resolutions] in *.
    destruct (Hawait Hnone) as [Hflight Hended].
    split.
    + intros id' p' Hp'. apply lookup_delete_Some in Hp'. now apply (Hflight id').
    + intros x Hx Hmethod. apply In_snoc in Hx.
      destruct Hx as [Hx | ->]; [now apply Hended |].
      cbn [resolved_method] in Hmethod. now rewrite (Hflight _ _ Hp) in Hmethod.
Qed.

Lemma after_awaiting (events : list Event) : awaiting_negotiation (after events).
Proof.
  induction events as [| e events IH] using rev_ind.
  - exact fresh_awaiting.
  - rewrite after_snoc. now apply handle_awaiting.
Qed.

End EngineFacts.

(** C4.  A Response that arrives while the call waiting on its id is in
    flight is delivered to that call, the one written under the id of the
    Response; whatever was issued, answered or timed out before, and
    whatever happens after, in any order, that call ends exactly once, with
    this Response, and no other call is answered with a Response of this
    id. *)
Theorem response_delivered_once_to_its_call
    (before later : list Engine.Event) (r : Engine.Response)
    (p : Engine.PendingCall) :
  Engine.pending (Engine.after before) !! Engine.response_id r = Some p ->
  let c := Engine.after (before ++ Engine.Receive r :: later) in
  In (Engine.caller p, Engine.response_id r) (Engine.issued c)
  /\ Engine.resolutions_of (Engine.caller p) c = [Engine.Answered r]
  /\ (forall (x : Engine.Resolved) (r' : Engine.Response),
         In x (Engine.resolutions c) ->
         Engine.resolved_with x = Engine.Answered r' ->
         Engine.response_id r' = Engine.response_id r ->
         Engine.resolved_call x = Engine.caller p).
Proof.
  intros Hp c.
  pose proof (after_well_formed before) as Hwf1.
  destruct (Engine.wf_pending _ Hwf1 _ _ Hp) as (_ & Hnone & _).
  assert (Hc : c = fold_left Engine.handle later
                     (Engine.handle (Engine.after before) (Engine.Receive r))).
  { unfold c. now rewrite after_app. }
  assert (Hdelivered :
            Engine.resolutions_of (Engine.caller p)
              (Engine.handle (Engine.after before) (Engine.Receive r)) =
            [Engine.Answered r]).
  { cbn [Engine.handle]. unfold Engine.receive. rewrite Hp.
    unfold Engine.resolutions_of in *. cbn [Engine.resolutions].
    rewrite resolutions_of_snoc, Hnone. cbn [Engine.resolved_call Engine.resolved_with].
    now destruct (decide (Engine.caller p = Engine.caller p)). }
  assert (Hwf : Engine.well_formed c) by apply after_well_formed.
  assert (Honce : Engine.resolutions_of (Engine.caller p) c = [Engine.Answered r]).
  { rewrite Hc, ended_call_stays_fold; [exact Hdelivered | |].
    - now apply handle_well_formed.
    - now rewrite Hdelivered. }
  assert (Hissued : In (Engine.caller p, Engine.response_id r) (Engine.issued c)).
  { assert (Hin : In (Engine.Answered r) (Engine.resolutions_of (Engine.caller p) c))
      by (rewrite Honce; now left).
    apply resolutions_of_In in Hin. destruct Hin as (x & Hx & <- & Hwith).
    now apply (Engine.wf_routed c Hwf). }
  split; [exact Hissued | split; [exact Honce |]].
  intros x r' Hx Hwith Hid.
  pose proof (Engine.wf_routed c Hwf x r' Hx Hwith) as Hrouted.
  rewrite Hid in Hrouted.
  exact (NoDup_snd_injective _ _ _ _ (Engine.wf_ids c Hwf) Hrouted Hissued).
Qed.

(** C5.  On a Connection whose negotiation has not completed, a call of any
    method other than negotiation is refused with [NotNegotiated] and
    nothing is written; and so far every such call has ended that way, none
    has succeeded. *)
Theorem call_before_negotiation_is_refused
    (events : list Engine.Event) (category operation params : string) :
  Engine.negotiated (Engine.after events) = None ->
  let c := Engine.after events in
  let c' := Engine.call (Engine.Invoke category operation) params c in
  Engine.resolutions c' =
  Engine.resolutions c ++
  [{| Engine.resolved_call := Engine.next_call c;
      Engine.resolved_method := Engine.Invoke category operation;
      Engine.resolved_with := Engine.Refused Engine.NotNegotiated |}]
  /\ Engine.written c' = Engine.written c
  /\ Engine.pending c' = Engine.pending c
  /\ (forall x : Engine.Resolved,
         In x (Engine.resolutions c) ->
         Engine.resolved_method x <> Engine.Negotiate ->
         Engine.resolved_with x = Engine.Refused Engine.NotNegotiated
         /\ Engine.successful (Engine.resolved_with x) = false).
Proof.
  intros Hnone c c'. subst c' c.
  unfold Engine.call. cbn [Engine.guard]. rewrite Hnone.
  cbn [Engine.resolutions Engine.written Engine.pending].
  repeat split.
  - now apply (proj2 (after_awaiting events Hnone)).
  - now rewrite (proj2 (after_awaiting events Hnone) x).
Qed.

Lemma call_before_negotiation_is_refused_witness :
  Engine.negotiated (Engine.after [Engine.Call Engine.Negotiate "client"]) = None
  /\ Engine.resolutions
       (Engine.call (Engine.Invoke "tools" "query_metrics") "avg:system.cpu.user{*}"
          (Engine.after [Engine.Call Engine.Negotiate "client"])) =
     [{| Engine.resolved_call := 1;
         Engine.resolved_method := Engine.Invoke "tools" "query_metrics";
         Engine.resolved_with := Engine.Refused Engine.NotNegotiated |}]
  /\ Engine.written
       (Engine.call (Engine.Invoke "tools" "query_metrics") "avg:system.cpu.user{*}"
          (Engine.after [Engine.Call Engine.Negotiate "client"])) =
     [{| Engine.request_id := 0; Engine.request_method := Engine.Negotiate;
         Engine.request_params := "client" |}].
Proof.
  pose proof (call_before_negotiation_is_refused
                [Engine.Call Engine.Negotiate "client"]
                "tools" "query_metrics" "avg:system.cpu.user{*}" eq_refl)
    as (Hrefused & Hwritten & _).
  exact (conj eq_refl (conj Hrefused Hwritten)).
Defined.

Lemma response_delivered_once_to_its_call_witness :
  Engine.pending (Engine.after Scenario.two_calls_in_flight) !! 2 =
  Some {| Engine.caller := 2;
          Engine.pending_method := Engine.Invoke "tools" "search_logs" |}
  /\ In (2, 2)
       (Engine.issued
          (Engine.after
             (Scenario.two_calls_in_flight ++
              Engine.Receive Scenario.logs_answer ::
              [Engine.Receive Scenario.metrics_answer;
               Engine.Receive Scenario.logs_answer])))
  /\ Engine.resolutions_of 2
       (Engine.after
          (Scenario.two_calls_in_flight ++
           Engine.Receive Scenario.logs_answer ::
           [Engine.Receive Scenario.metrics_answer;
            Engine.Receive Scenario.logs_answer])) =
     [Engine.Answered Scenario.logs_answer].
Proof.
  assert (Hflight :
            Engine.pending (Engine.after Scenario.two_calls_in_flight)
              !! Engine.response_id Scenario.logs_answer =
            Some {| Engine.caller := 2;
                    Engine.pending_method := Engine.Invoke "tools" "search_logs" |})
    by (vm_compute; reflexivity).
  pose proof (response_delivered_once_to_its_call Scenario.two_calls_in_flight
                [Engine.Receive Scenario.metrics_answer;
                 Engine.Receive Scenario.logs_answer]
                Scenario.logs_answer _ Hflight) as (Hissued & Honce & _).
  exact (conj Hflight (conj Hissued Honce)).
Defined.


(** * Further properties of the server *)

(** ** [parseDomains] and [isDomainEnabled] *)

Lemma parseDomains_loop_stops (valid : list string) (d : string)
    (rest acc : list string) :
  Forall (fun x => In x ALL_DOMAINS) valid -> ~ In d ALL_DOMAINS ->
  parseDomains_loop (valid ++ d :: rest) acc =
  inl (ErrorInstance (invalid_domain_message d)).
Proof.
  intros Hvalid Hd. rewrite (parseDomains_loop_valid valid (d :: rest) acc Hvalid).
  cbn [parseDomains_loop]. apply includes_not_In in Hd. now rewrite Hd.
Qed.

(** A list is all domains, or splits at its first element that is not. *)
Lemma first_invalid (domains : list string) :
  Forall (fun x => In x ALL_DOMAINS) domains
  \/ exists valid d rest,
       domains = valid ++ d :: rest
       /\ Forall (fun x => In x ALL_DOMAINS) valid /\ ~ In d ALL_DOMAINS.
Proof.
  induction domains as [| x domains IH]; [left; constructor |].
  destruct (includes ALL_DOMAINS x) eqn:Hx.
  - apply includes_In in Hx. destruct IH as [Hall | (valid & d & rest & -> & Hvalid & Hd)].
    + left. now constructor.
    + right. exists (x :: valid), d, rest. repeat split; [now constructor | exact Hd].
  - apply includes_not_In in Hx. right. exists [], x, domains.
    repeat split; [constructor | exact Hx].
Qed.

(** What [parseDomains] returns, when it returns. *)
Lemma parseDomains_returned (domains result : list string) :
  parseDomains domains = inr result ->
  Forall (fun x => In x ALL_DOMAINS) domains
  /\ result = match domains with [] => ALL_DOMAINS | _ => domains end.
Proof.
  intros Hreturned.
  destruct (first_invalid domains) as [Hall | (valid & d & rest & -> & Hvalid & Hd)].
  - split; [exact Hall |].
    unfold parseDomains in Hreturned.
    pose proof (parseDomains_loop_valid domains [] [] Hall) as Hloop.
    rewrite app_nil_r in Hloop. rewrite Hloop in Hreturned.
    cbn [parseDomains_loop app] in Hreturned.
    destruct domains; now injection Hreturned as <-.
  - unfold parseDomains in Hreturned.
    now rewrite (parseDomains_loop_stops valid d rest [] Hvalid Hd) in Hreturned.
Qed.

Lemma ALL_DOMAINS_valid : Forall (fun x => In x ALL_DOMAINS) ALL_DOMAINS.
Proof. apply Forall_forall. intros x Hx. now apply list_elem_of_In. Qed.

(** X1.  Whatever [parseDomains] returns is a non-empty list of domains. *)
Theorem parseDomains_returns_domains (domains result : list string) :
  parseDomains domains = inr result ->
  result <> [] /\ Forall (fun x => In x ALL_DOMAINS) result.
Proof.
  intros Hreturned. apply parseDomains_returned in Hreturned.
  destruct Hreturned as [Hall ->].
  destruct domains; [split; [discriminate | apply ALL_DOMAINS_valid] |].
  split; [discriminate | exact Hall].
Qed.

Lemma parseDomains_returns_domains_witness :
  parseDomains ["traces"; "logs"] = inr ["traces"; "logs"]
  /\ ["traces"; "logs"] <> []
  /\ Forall (fun x => In x ALL_DOMAINS) ["traces"; "logs"].
Proof.
  exact (conj eq_refl
           (parseDomains_returns_domains ["traces"; "logs"] ["traces"; "logs"] eq_refl)).
Defined.

(** X2.  [parseDomains] is idempotent: parsing what it returned returns the
    same list. *)
Theorem parseDomains_idempotent (domains result : list string) :
  parseDomains domains = inr result -> parseDomains result = inr result.
Proof.
  intros Hreturned. apply parseDomains_returned in Hreturned.
  destruct Hreturned as [Hall ->].
  destruct domains as [| x domains]; [reflexivity |].
  unfold parseDomains.
  pose proof (parseDomains_loop_valid (x :: domains) [] [] Hall) as Hloop.
  rewrite app_nil_r in Hloop. rewrite Hloop. reflexivity.
Qed.

Lemma parseDomains_idempotent_witness :
  parseDomains [] = inr ALL_DOMAINS /\ parseDomains ALL_DOMAINS = inr ALL_DOMAINS.
Proof. exact (conj eq_refl (parseDomains_idempotent [] ALL_DOMAINS eq_refl)). Defined.

(** X3.  [parseDomains] throws if and only if the list has an element that is
    not one of the four domains. *)
Theorem parseDomains_throws_iff (domains : list string) :
  (exists e : Thrown, parseDomains domains = inl e)
  <-> exists d : string, In d domains /\ ~ In d ALL_DOMAINS.
Proof.
  split.
  - intros [e Hthrown].
    destruct (first_invalid domains) as [Hall | (valid & d & rest & -> & _ & Hd)].
    + exfalso. unfold parseDomains in Hthrown.
      pose proof (parseDomains_loop_valid domains [] [] Hall) as Hloop.
      rewrite app_nil_r in Hloop. rewrite Hloop in Hthrown.
      cbn [parseDomains_loop] in Hthrown. discriminate.
    + exists d. split; [| exact Hd]. apply in_app_iff. right. now left.
  - intros (d & Hin & Hd).
    destruct (first_invalid domains) as [Hall | (valid & d' & rest & -> & Hvalid & Hd')].
    + exfalso. apply Hd. rewrite Forall_forall in Hall.
      now apply Hall, list_elem_of_In.
    + eexists. unfold parseDomains.
      now rewrite (parseDomains_loop_stops valid d' rest [] Hvalid Hd').
Qed.

(** X4.  After [parseDomains], [isDomainEnabled] answers membership in the
    list that was given, and every domain is enabled when the list was
    empty. *)
Theorem isDomainEnabled_after_parseDomains
    (domains result : list string) (domain : string) :
  parseDomains domains = inr result ->
  (isDomainEnabled domain result = true
   <-> In domain domains \/ (domains = [] /\ In domain ALL_DOMAINS)).
Proof.
  intros Hreturned. apply parseDomains_returned in Hreturned.
  destruct Hreturned as [_ ->]. unfold isDomainEnabled. rewrite includes_In.
  destruct domains as [| x domains].
  - split; [intros H; right; now split | intros [[] | [_ H]]; exact H].
  - split; [now left | intros [H | [H _]]; [exact H | discriminate H]].
Qed.

Lemma isDomainEnabled_after_parseDomains_witness :
  parseDomains ["logs"] = inr ["logs"]
  /\ (isDomainEnabled "logs" ["logs"] = true
      <-> In "logs" ["logs"] \/ (["logs"] = [] /\ In "logs" ALL_DOMAINS)).
Proof.
  exact (conj eq_refl
           (isDomainEnabled_after_parseDomains ["logs"] ["logs"] "logs" eq_refl)).
Defined.

(** ** [registerTools] *)

Lemma enabled_tools_in_order (enabledDomains : list string) :
  sublist (Tools.enabled_tools enabledDomains)
    ["query_metrics"; "search_logs"; "get_monitor"; "list_monitors";
     "search_spans"].
Proof.
  unfold Tools.enabled_tools.
  destruct (includes enabledDomains "metrics"), (includes enabledDomains "logs"),
    (includes enabledDomains "monitors"), (includes enabledDomains "traces");
    cbn [app];
    repeat first [apply sublist_nil_l | apply sublist_skip | apply sublist_cons].
Qed.

(** X5.  [registerTools] registers each tool at most once, whatever the list
    repeats, and always in the order [query_metrics], [search_logs],
    [get_monitor], [list_monitors], [search_spans]. *)
Theorem registerTools_registers_in_order
    (enabledDomains : list string) (apis : Tools.DatadogAPIs) (w : World) :
  exists new : list ToolRegistration,
    server_tools (world_of (Tools.registerTools enabledDomains apis w)) =
    server_tools w ++ new
    /\ NoDup (map tool_name new)
    /\ sublist (map tool_name new)
         ["query_metrics"; "search_logs"; "get_monitor"; "list_monitors";
          "search_spans"].
Proof.
  destruct (registerTools_adds enabledDomains apis w)
    as (added & rest & Htools & Hnames & _).
  exists added. split; [exact Htools |].
  pose proof (enabled_tools_NoDup enabledDomains) as Hnodup.
  pose proof (enabled_tools_in_order enabledDomains) as Horder.
  rewrite Hnames in Hnodup, Horder. split.
  - apply NoDup_app in Hnodup. tauto.
  - etransitivity; [| exact Horder]. now apply sublist_inserts_r.
Qed.

(** X6.  What [registerTools] does to the server depends on which domains
    are in the list only, not on their order or repetition: with the same
    client, two lists with the same members register the same tools with
    the same handlers, or fail alike. *)
Theorem registerTools_same_members
    (domains1 domains2 : list string) (apis : Tools.DatadogAPIs) (w : World) :
  (forall d : string, In d domains1 <-> In d domains2) ->
  result_of (Tools.registerTools domains1 apis w) =
  result_of (Tools.registerTools domains2 apis w)
  /\ server_tools (world_of (Tools.registerTools domains1 apis w)) =
     server_tools (world_of (Tools.registerTools domains2 apis w)).
Proof.
  intros Hsame.
  assert (Hincludes : forall d, includes domains1 d = includes domains2 d).
  { intros d. destruct (includes domains2 d) eqn:H2.
    - apply includes_In, Hsame, includes_In, H2.
    - apply includes_not_In. intros H1. apply includes_not_In in H2.
      now apply H2, Hsame. }
  destruct (registerTools_registers apis)
    as (metrics & logs & monitors & traces & _ & _ & Hregisters).
  destruct (Hregisters domains1 w) as (Hresult1 & Htools1 & _).
  destruct (Hregisters domains2 w) as (Hresult2 & Htools2 & _).
  rewrite Hresult1, Hresult2, Htools1, Htools2, !Hincludes. split; reflexivity.
Qed.

Lemma registerTools_same_members_witness :
  (forall d : string,
      In d ["logs"; "metrics"; "logs"] <-> In d ["metrics"; "logs"])
  /\ result_of
       (Tools.registerTools ["logs"; "metrics"; "logs"] Startup.apis
          Fixtures.started) =
     result_of
       (Tools.registerTools ["metrics"; "logs"] Startup.apis Fixtures.started)
  /\ server_tools
       (world_of
          (Tools.registerTools ["logs"; "metrics"; "logs"] Startup.apis
             Fixtures.started)) =
     server_tools
       (world_of
          (Tools.registerTools ["metrics"; "logs"] Startup.apis Fixtures.started)).
Proof.
  assert (Hsame : forall d : string,
             In d ["logs"; "metrics"; "logs"] <-> In d ["metrics"; "logs"])
    by (intros d; cbn [In]; tauto).
  split; [exact Hsame |].
  exact (registerTools_same_members _ _ Startup.apis Fixtures.started Hsame).
Defined.

(** X7.  Registering the tools calls no Datadog API and leaves the log level
    as it was. *)
Theorem registerTools_calls_no_api
    (enabledDomains : list string) (apis : Tools.DatadogAPIs) (w : World) :
  api_calls (world_of (Tools.registerTools enabledDomains apis w)) = api_calls w
  /\ logger_level (world_of (Tools.registerTools enabledDomains apis w)) =
     logger_level w.
Proof.
  destruct (registerTools_registers apis)
    as (metrics & logs & monitors & traces & _ & _ & Hregisters).
  destruct (Hregisters enabledDomains w) as (_ & _ & Hcalls & Hlevel).
  exact (conj Hcalls Hlevel).
Qed.

(** X22.  On a server that holds no tool of an enabled domain yet, each
    tool is registered with the handler that closes over the API object of
    its domain in the client: [query_metrics] over [apis.v1.metrics],
    [search_logs] over [apis.v2.logs], [get_monitor] and [list_monitors]
    over [apis.v1.monitors], [search_spans] over [apis.v2.spans]. *)
Theorem registerTools_wires_the_client
    (enabledDomains : list string) (apis : Tools.DatadogAPIs) (w : World) :
  (forall tool domain : string,
      Tools.domain_of_tool tool = Some domain -> In domain enabledDomains ->
      ~ In tool (map tool_name (server_tools w))) ->
  exists new : list ToolRegistration,
    server_tools (world_of (Tools.registerTools enabledDomains apis w)) =
    server_tools w ++ new
    /\ map tool_handler new =
       (if includes enabledDomains "metrics"
        then [QueryMetrics (Tools.metrics (Tools.v1 apis))] else [])
       ++ (if includes enabledDomains "logs"
           then [SearchLogs (Tools.logs (Tools.v2 apis))] else [])
       ++ (if includes enabledDomains "monitors"
           then [GetMonitor (Tools.monitors (Tools.v1 apis));
                 ListMonitors (Tools.monitors (Tools.v1 apis))] else [])
       ++ (if includes enabledDomains "traces"
           then [SearchSpans (Tools.spans (Tools.v2 apis))] else []).
Proof.
  intros Hfresh.
  destruct (registerTools_registers apis)
    as (metrics & logs & monitors & traces & (Hm & Hl & Hmo & Ht)
        & (Hhm & Hhl & Hhmo & Hht) & Hregisters).
  destruct (Hregisters enabledDomains w) as (_ & Htools & _).
  rewrite Htools.
  match goal with
  | |- context [register_each ?registrations _] => set (new := registrations)
  end.
  assert (Hnames : map tool_name new = Tools.enabled_tools enabledDomains).
  { subst new. unfold Tools.enabled_tools. rewrite !map_app.
    destruct (includes enabledDomains "metrics"), (includes enabledDomains "logs"),
      (includes enabledDomains "monitors"), (includes enabledDomains "traces");
      rewrite ?Hm, ?Hl, ?Hmo, ?Ht; reflexivity. }
  rewrite register_each_fresh.
  - exists new. split; [reflexivity |]. subst new. rewrite !map_app.
    destruct (includes enabledDomains "metrics"), (includes enabledDomains "logs"),
      (includes enabledDomains "monitors"), (includes enabledDomains "traces");
      rewrite ?Hhm, ?Hhl, ?Hhmo, ?Hht; reflexivity.
  - rewrite Hnames. intros tool Htool. apply enabled_tools_In in Htool.
    destruct Htool as (domain & Htool & Hdomain). now apply (Hfresh tool domain).
  - rewrite Hnames. apply enabled_tools_NoDup.
Qed.

Lemma registerTools_wires_the_client_witness :
  (forall tool domain : string,
      Tools.domain_of_tool tool = Some domain -> In domain ["monitors"] ->
      ~ In tool (map tool_name (server_tools Fixtures.started)))
  /\ exists new : list ToolRegistration,
       server_tools
         (world_of (Tools.registerTools ["monitors"] Startup.apis Fixtures.started)) =
       server_tools Fixtures.started ++ new
       /\ map tool_handler new =
          [GetMonitor (Tools.monitors (Tools.v1 Startup.apis));
           ListMonitors (Tools.monitors (Tools.v1 Startup.apis))].
Proof.
  assert (Hfresh : forall tool domain : string,
             Tools.domain_of_tool tool = Some domain -> In domain ["monitors"] ->
             ~ In tool (map tool_name (server_tools Fixtures.started)))
    by (intros tool domain _ _ []).
  exact (conj Hfresh
           (registerTools_wires_the_client ["monitors"] Startup.apis
              Fixtures.started Hfresh)).
Defined.

Lemma emits_log (level message : string) (meta : list (string * JsValue)) :
  emits [{| log_level := level; log_message := message; log_meta := meta |}] []
    (Logger.log level message meta).
Proof.
  intros w. unfold Logger.log, result_of, world_of. cbn [fst snd].
  rewrite logger_level_logged, stderr_logged. split; [reflexivity |].
  eexists. split; [| reflexivity]. cbn [List.filter log_level app].
  now destruct (Logger.level_enabled (logger_level w) level).
Qed.

Lemma emits_last (level message : string) (meta : list (string * JsValue)) :
  emits [] [{| log_level := level; log_message := message; log_meta := meta |}]
    (Logger.log level message meta).
Proof. exact (emits_log level message meta). Qed.

Lemma emits_server_tool (name description : string)
    (schema : list SchemaEntry) (handler : Handler) :
  emits [] [] (server_tool name description schema handler).
Proof.
  intros w. unfold server_tool, result_of, world_of.
  destruct (has_tool name (server_tools w)); cbn [fst snd with_tool logger_level stderr];
    (split; [reflexivity |]); exists [];
    (split; [symmetry; apply app_nil_r |]); [now exists [] | reflexivity].
Qed.

Lemma emits_seq (records1 records2 final : list LogRecord) (m1 m2 : M unit) :
  emits records1 [] m1 -> emits records2 final m2 ->
  emits (records1 ++ records2) final (bind m1 (fun _ => m2)).
Proof.
  intros H1 H2 w. unfold bind, result_of, world_of.
  destruct (H1 w) as (Hl1 & logged1 & He1 & Hr1).
  unfold result_of, world_of in Hl1, He1, Hr1.
  destruct (m1 w) as [r1 w1]. cbn [fst snd] in *.
  destruct r1 as [e | []]; cbn [fst snd].
  - split; [exact Hl1 |]. exists logged1. split; [exact He1 |].
    destruct Hr1 as [rest ->]. exists (rest ++ records2). now rewrite app_assoc.
  - rewrite app_nil_r in Hr1. subst logged1.
    destruct (H2 w1) as (Hl2 & logged2 & He2 & Hr2).
    unfold result_of, world_of in Hl2, He2, Hr2.
    split; [congruence |]. exists (records1 ++ logged2).
    rewrite He2, He1, Hl1, List.filter_app, map_app, app_assoc.
    split; [reflexivity |].
    destruct (fst (m2 w1)) as [e | []].
    + destruct Hr2 as [rest ->]. exists rest. now rewrite app_assoc.
    + now rewrite Hr2, app_assoc.
Qed.

(** X8.  What [registerTools] logs.  When it returns: the ['info'] record of
    the registration, one ['debug'] record for each of the four domains in
    the order of the source, saying that its tools are configured or
    skipped, and the ['info'] record ['Tool registration complete'].  When
    [server.tool] throws: the first of these records only, and never the
    last one.  Each record is written if the level of the logger lets it
    through. *)
Theorem registerTools_log_records
    (enabledDomains : list string) (apis : Tools.DatadogAPIs) (w : World) :
  let line (domain : string) :=
    {| log_level := "debug";
       log_message :=
         if includes enabledDomains domain
         then "Configuring " +:+ domain +:+ " tools"
         else "Skipping " +:+ domain +:+ " tools (domain not enabled)";
       log_meta := [] |} in
  let opening :=
    {| log_level := "info";
       log_message := "Registering tools for enabled domains";
       log_meta := [("enabledDomains", JsString (join ", " enabledDomains))] |} in
  let closing :=
    {| log_level := "info"; log_message := "Tool registration complete";
       log_meta := [] |} in
  exists logged : list LogRecord,
    stderr (world_of (Tools.registerTools enabledDomains apis w)) =
    stderr w ++
    map LogLine
      (List.filter
         (fun record => Logger.level_enabled (logger_level w) (log_level record))
         logged)
    /\ match result_of (Tools.registerTools enabledDomains apis w) with
       | inr _ =>
           logged =
           [opening; line "metrics"; line "logs"; line "monitors";
            line "traces"; closing]
       | inl _ =>
           exists rest : list LogRecord,
             [opening; line "metrics"; line "logs"; line "monitors";
              line "traces"] = logged ++ rest
       end.
Proof.
  intros line opening closing.
  assert (Hdomain :
            forall (domain : string) (configureFn : M unit),
              emits [] [] configureFn ->
              emits [line domain] []
                (Tools.configureIfDomainEnabled enabledDomains domain configureFn)).
  { intros domain configureFn Hfn.
    unfold Tools.configureIfDomainEnabled, Logger.debug, line.
    destruct (includes enabledDomains domain).
    - apply (emits_seq [_] [] []); [apply emits_log | exact Hfn].
    - apply emits_log. }
  enough (Hemits :
            emits
              ([opening] ++ [line "metrics"] ++ [line "logs"]
               ++ [line "monitors"] ++ [line "traces"] ++ [])
              [closing]
              (Tools.registerTools enabledDomains apis)).
  { destruct (Hemits w) as (_ & logged & Herr & Hresult).
    exists logged. split; [exact Herr |].
    destruct (result_of (Tools.registerTools enabledDomains apis w));
      exact Hresult. }
  unfold Tools.registerTools, Logger.info.
  apply emits_seq; [apply emits_log |].
  repeat (apply emits_seq; [apply Hdomain |]);
    [ unfold Metrics.configureMetricsTools; apply emits_server_tool
    | unfold Logs.configureLogsTools; apply emits_server_tool
    | unfold Monitors.configureMonitorsTools;
      apply (emits_seq [] [] []); apply emits_server_tool
    | unfold Traces.configureTracesTools; apply emits_server_tool
    | apply emits_last ].
Qed.

(** ** The tool handlers *)

(** X9.  A handler calls the Datadog API exactly once, with the request of
    its invocation, whether the call resolves or rejects; it registers no
    tool and leaves the log level as it was. *)
Theorem handler_calls_api_once (i : Tools.Invocation) (w : World) :
  api_calls (world_of (Tools.handler i w)) = api_calls w ++ [Tools.request_of i]
  /\ server_tools (world_of (Tools.handler i w)) = server_tools w
  /\ logger_level (world_of (Tools.handler i w)) = logger_level w.
Proof.
  destruct i; run_handler; settle; unfold called;
    cbn [api_calls server_tools logger_level]; autorewrite with world;
    repeat split.
Qed.

Lemma stderr_called (call : ApiCall) (w : World) :
  stderr (called call w) = stderr w.
Proof. reflexivity. Qed.

Lemma logger_level_called (call : ApiCall) (w : World) :
  logger_level (called call w) = logger_level w.
Proof. reflexivity. Qed.

Lemma map_LogLine_if (b : bool) (record : LogRecord) :
  (if b then [LogLine record] else []) = map LogLine (if b then [record] else []).
Proof. now destruct b. Qed.

(** X10.  When the API call rejects and the logger lets the level ['error']
    through, the last line the handler writes to standard error is an
    ['error'] record whose [error] field is the message put in the result. *)
Theorem handler_logs_failure
    (i : Tools.Invocation) (error : Thrown) (w : World) :
  Tools.api_outcome i = Rejected error ->
  Logger.level_enabled (logger_level w) "error" = true ->
  exists (earlier : list LogRecord) (message : string)
         (meta : list (string * JsValue)),
    stderr (world_of (Tools.handler i w)) =
    stderr w ++ map LogLine earlier
    ++ [LogLine {| log_level := "error"; log_message := message;
                   log_meta := meta |}]
    /\ js_prop meta "error" = JsString (errorMessage_of error).
Proof.
  intros Hrejected Henabled.
  destruct i; cbv [Tools.api_outcome Tools.outcome_map] in Hrejected;
    run_handler;
    match goal with
    | H : match ?outcome with Resolved _ => _ | Rejected _ => _ end = _ |- _ =>
        destruct outcome; [discriminate H | injection H as ->]
    end;
    rewrite stderr_logged, stderr_called, logger_level_called,
      logger_level_logged, Henabled, stderr_logged, map_LogLine_if, <- app_assoc;
    (eexists _, _, _; split; [reflexivity | reflexivity]).
Qed.

Lemma handler_logs_failure_witness :
  Tools.api_outcome (Tools.search_logs Fixtures.rejecting_logs Fixtures.logs_args) =
  Rejected (ErrorInstance "Invalid query syntax")
  /\ Logger.level_enabled (logger_level Fixtures.started) "error" = true
  /\ exists (earlier : list LogRecord) (message : string)
            (meta : list (string * JsValue)),
       stderr
         (world_of
            (Tools.handler
               (Tools.search_logs Fixtures.rejecting_logs Fixtures.logs_args)
               Fixtures.started)) =
       stderr Fixtures.started ++ map LogLine earlier
       ++ [LogLine {| log_level := "error"; log_message := message;
                      log_meta := meta |}]
       /\ js_prop meta "error" = JsString "Invalid query syntax".
Proof.
  exact (conj eq_refl (conj eq_refl
           (handler_logs_failure
              (Tools.search_logs Fixtures.rejecting_logs Fixtures.logs_args)
              (ErrorInstance "Invalid query syntax") Fixtures.started
              eq_refl eq_refl))).
Defined.

(** X11.  When the API call resolves, every record the handler logs is at
    level ['info']: a success writes no ['error'] line. *)
Theorem handler_success_logs_info_only
    (i : Tools.Invocation) (response : JsValue) (w : World) :
  Tools.api_outcome i = Resolved response ->
  exists records : list LogRecord,
    stderr (world_of (Tools.handler i w)) = stderr w ++ map LogLine records
    /\ Forall (fun record => log_level record = "info") records.
Proof.
  intros Hresolved.
  destruct i; cbv [Tools.api_outcome Tools.outcome_map] in Hresolved;
    run_handler;
    match goal with
    | H : match ?outcome with Resolved _ => _ | Rejected _ => _ end = _ |- _ =>
        destruct outcome; [clear H | discriminate H]
    end;
    rewrite stderr_logged; unfold called; cbn [stderr logger_level];
    rewrite stderr_logged, !map_LogLine_if, <- app_assoc, <- map_app;
    (eexists; split; [reflexivity |]);
    apply Forall_app; split;
    match goal with |- Forall _ (if ?b then _ else _) => destruct b end;
    repeat constructor.
Qed.

Lemma handler_success_logs_info_only_witness :
  Tools.api_outcome (Tools.search_logs Fixtures.resolving_logs Fixtures.logs_args) =
  Resolved (JsObject Fixtures.logs_response)
  /\ exists records : list LogRecord,
       stderr
         (world_of
            (Tools.handler
               (Tools.search_logs Fixtures.resolving_logs Fixtures.logs_args)
               Fixtures.started)) =
       stderr Fixtures.started ++ map LogLine records
       /\ Forall (fun record => log_level record = "info") records.
Proof.
  exact (conj eq_refl
           (handler_success_logs_info_only
              (Tools.search_logs Fixtures.resolving_logs Fixtures.logs_args)
              (JsObject Fixtures.logs_response) Fixtures.started eq_refl)).
Defined.

Lemma length_or_zero (v : JsValue) :
  (forall items : list JsValue,
      v = JsArray items ->
      js_or (optional_length v) (JsNumber 0%Z) =
      JsNumber (Z.of_nat (length items)))
  /\ (v = JsUndefined \/ v = JsNull ->
      js_or (optional_length v) (JsNumber 0%Z) = JsNumber 0%Z).
Proof.
  split.
  - intros items ->. unfold js_or. cbn [optional_length truthy].
    rewrite of_Z_nonzero.
    now destruct (Z.eqb_spec (Z.of_nat (length items)) 0) as [-> |].
  - now intros [-> | ->].
Qed.

(** X12.  The count in the record a successful search or query logs is the
    number of elements of the response's [data] (for metrics, [series])
    when that is an array, and 0 when the response has no such field or
    holds [null] there. *)
Theorem success_count_falls_back_to_zero
    (i : Tools.Invocation) (response : ResponseObject) (w : World) :
  Tools.api_outcome i = Resolved (JsObject response) ->
  Logger.level_enabled (logger_level w) "info" = true ->
  Tools.domain_of_tool (Tools.tool_of i) <> Some "monitors" ->
  let field :=
    match i with Tools.query_metrics _ _ => "series" | _ => "data" end in
  let key :=
    match i with Tools.query_metrics _ _ => "seriesCount" | _ => "resultCount" end in
  exists (earlier : list LogRecord) (message : string)
         (meta : list (string * JsValue)),
    stderr (world_of (Tools.handler i w)) =
    stderr w ++ map LogLine earlier
    ++ [LogLine {| log_level := "info"; log_message := message;
                   log_meta := meta |}]
    /\ (forall items : list JsValue,
           js_prop response field = JsArray items ->
           js_prop meta key = JsNumber (Z.of_nat (length items)))
    /\ (js_prop response field = JsUndefined \/ js_prop response field = JsNull ->
        js_prop meta key = JsNumber 0%Z).
Proof.
  intros Hresolved Henabled Hdomain.
  destruct i; try (exfalso; apply Hdomain; reflexivity);
    cbv zeta;
    cbv [Tools.api_outcome Tools.outcome_map] in Hresolved;
    run_handler;
    match goal with
    | H : match ?outcome with Resolved _ => _ | Rejected _ => _ end = _ |- _ =>
        destruct outcome as [response' |]; [injection H as -> | discriminate H]
    end;
    rewrite stderr_logged, stderr_called, logger_level_called,
      logger_level_logged, Henabled, stderr_logged, map_LogLine_if, <- app_assoc;
    (eexists _, _, _; split; [reflexivity |]);
    apply length_or_zero.
Qed.

Lemma success_count_falls_back_to_zero_witness :
  let i := Tools.search_logs Fixtures.resolving_logs Fixtures.logs_args in
  Tools.api_outcome i = Resolved (JsObject Fixtures.logs_response)
  /\ Logger.level_enabled (logger_level Fixtures.started) "info" = true
  /\ Tools.domain_of_tool (Tools.tool_of i) <> Some "monitors"
  /\ exists (earlier : list LogRecord) (message : string)
            (meta : list (string * JsValue)),
       stderr (world_of (Tools.handler i Fixtures.started)) =
       stderr Fixtures.started ++ map LogLine earlier
       ++ [LogLine {| log_level := "info"; log_message := message;
                      log_meta := meta |}]
       /\ js_prop meta "resultCount" = JsNumber 1%Z.
Proof.
  intros i.
  assert (Hdomain : Tools.domain_of_tool (Tools.tool_of i) <> Some "monitors")
    by discriminate.
  destruct (success_count_falls_back_to_zero i Fixtures.logs_response
              Fixtures.started eq_refl eq_refl Hdomain)
    as (earlier & message & meta & Herr & Hcount & _).
  split; [reflexivity | split; [reflexivity | split; [exact Hdomain |]]].
  exists earlier, message, meta. split; [exact Herr |].
  exact (Hcount _ eq_refl).
Defined.

(** X13.  The request of [list_monitors] has a [tags] field exactly when
    [tags] is a non-empty array, holding its elements joined by commas, a
    [name] field exactly when [name] is a non-empty string, and no other
    field. *)
Theorem list_monitors_params_fields (args : Monitors.ListArgs) :
  exists fields : list (string * JsValue),
    Monitors.list_monitors_params args = JsObject fields
    /\ js_prop fields "tags" =
       match Monitors.tags args with
       | Some (tag :: tags) => JsString (join "," (tag :: tags))
       | _ => JsUndefined
       end
    /\ js_prop fields "name" =
       match Monitors.name args with
       | Some name => if String.eqb name "" then JsUndefined else JsString name
       | None => JsUndefined
       end
    /\ (forall k : string, k <> "tags" -> k <> "name" ->
          js_prop fields k = JsUndefined).
Proof.
  destruct args as [[[| tag tags] |] [name |]];
    unfold Monitors.list_monitors_params;
    cbn [Monitors.tags Monitors.name length Nat.ltb Nat.leb app truthy negb];
    try destruct (String.eqb name "") eqn:Hname;
    cbn [negb app];
    (eexists; split; [reflexivity |]);
    (split; [reflexivity | split; [reflexivity |]]);
    intros k Htags Hnamek;
    apply String.eqb_neq in Htags; apply String.eqb_neq in Hnamek;
    rewrite String.eqb_sym in Htags; rewrite String.eqb_sym in Hnamek;
    cbn [js_prop]; rewrite ?Htags, ?Hnamek; reflexivity.
Qed.

(** ** [loadDatadogConfig] *)

Lemma present_None (value : option string) :
  Auth.present value = None <-> value = None \/ value = Some "".
Proof.
  destruct value as [s |]; cbn [Auth.present truthy].
  - destruct (String.eqb_spec s ""); cbn [negb]; split.
    + intros _. right. now subst.
    + reflexivity.
    + discriminate.
    + intros [H | [= H]]; [discriminate | contradiction].
  - split; [now left | reflexivity].
Qed.

Lemma present_Some (s : string) : s <> "" -> Auth.present (Some s) = Some s.
Proof.
  intros Hs. cbn [Auth.present truthy].
  apply String.eqb_neq in Hs. now rewrite Hs.
Qed.

Lemma present_inv (value : option string) (s : string) :
  Auth.present value = Some s -> value = Some s /\ truthy (JsString s) = true.
Proof.
  destruct value as [s' |]; cbn [Auth.present]; [| discriminate].
  destruct (truthy (JsString s')) eqn:Hs; [| discriminate].
  now intros [= <-].
Qed.

(** X14.  [loadDatadogConfig] throws exactly when [DD_API_KEY] or
    [DD_APP_KEY] is unset or empty; it then has logged nothing. *)
Theorem loadDatadogConfig_missing_credentials (env : Auth.Env) (w : World) :
  let missing :=
    (env "DD_API_KEY" = None \/ env "DD_API_KEY" = Some "")
    \/ (env "DD_APP_KEY" = None \/ env "DD_APP_KEY" = Some "") in
  ((exists e : Thrown, result_of (Auth.loadDatadogConfig env w) = inl e)
   <-> missing)
  /\ (missing ->
      Auth.loadDatadogConfig env w =
      (inl (ErrorInstance
              "Missing required environment variables: DD_API_KEY and DD_APP_KEY must be set"),
       w)).
Proof.
  cbv zeta. rewrite <- !present_None. unfold Auth.loadDatadogConfig.
  destruct (Auth.present (env "DD_API_KEY")) as [apiKey |],
           (Auth.present (env "DD_APP_KEY")) as [appKey |];
    cbv [bind Logger.info Logger.log ret Auth.throw result_of fst].
  - split; [split |].
    + intros [e He]. discriminate He.
    + intros [H | H]; discriminate H.
    + intros [H | H]; discriminate H.
  - split; [split |]; [right; reflexivity | eexists; reflexivity | reflexivity].
  - split; [split |]; [left; reflexivity | eexists; reflexivity | reflexivity].
  - split; [split |]; [left; reflexivity | eexists; reflexivity | reflexivity].
Qed.

(** X15.  With both keys set and not empty, [loadDatadogConfig] returns them
    with [DD_SITE], or ['datadoghq.com'] when that is unset or empty; the
    record it logs holds the site and two presence flags, not the keys. *)
Theorem loadDatadogConfig_loaded
    (env : Auth.Env) (apiKey appKey : string) (w : World) :
  env "DD_API_KEY" = Some apiKey -> apiKey <> "" ->
  env "DD_APP_KEY" = Some appKey -> appKey <> "" ->
  let site :=
    match env "DD_SITE" with
    | Some s => if String.eqb s "" then "datadoghq.com" else s
    | None => "datadoghq.com"
    end in
  result_of (Auth.loadDatadogConfig env w) =
  inr {| Auth.apiKey := apiKey; Auth.appKey := appKey; Auth.site := site |}
  /\ stdout (world_of (Auth.loadDatadogConfig env w)) = stdout w
  /\ stderr (world_of (Auth.loadDatadogConfig env w)) =
     stderr w ++
     (if Logger.level_enabled (logger_level w) "info"
      then [LogLine {| log_level := "info";
                       log_message := "Loaded Datadog configuration";
                       log_meta := [("site", JsString site);
                                    ("apiKeyPresent", JsBool true);
                                    ("appKeyPresent", JsBool true)] |}]
      else []).
Proof.
  intros Hapi Hapi_set Happ Happ_set site.
  unfold Auth.loadDatadogConfig.
  rewrite Hapi, Happ, (present_Some apiKey Hapi_set), (present_Some appKey Happ_set).
  assert (Hsite : Auth.or_else (env "DD_SITE") "datadoghq.com" = site).
  { unfold Auth.or_else, Auth.present, site. cbn [truthy].
    destruct (env "DD_SITE") as [s |]; [| reflexivity].
    now destruct (String.eqb s ""). }
  rewrite Hsite.
  assert (Htrue : forall s, s <> "" -> truthy (JsString s) = true).
  { intros s Hs. cbn [truthy]. apply String.eqb_neq in Hs. now rewrite Hs. }
  rewrite (Htrue apiKey Hapi_set), (Htrue appKey Happ_set).
  cbv [bind Logger.info Logger.log ret result_of world_of fst snd].
  split; [reflexivity | split; [apply stdout_logged | apply stderr_logged]].
Qed.

Lemma loadDatadogConfig_loaded_witness :
  let env : Auth.Env :=
    fun name =>
      if String.eqb name "DD_API_KEY" then Some "api-key"
      else if String.eqb name "DD_APP_KEY" then Some "app-key"
      else None in
  env "DD_API_KEY" = Some "api-key" /\ "api-key" <> ""
  /\ env "DD_APP_KEY" = Some "app-key" /\ "app-key" <> ""
  /\ result_of (Auth.loadDatadogConfig env Fixtures.started) =
     inr {| Auth.apiKey := "api-key"; Auth.appKey := "app-key";
            Auth.site := "datadoghq.com" |}.
Proof.
  intros env.
  assert (Hapi : "api-key" <> "") by discriminate.
  assert (Happ : "app-key" <> "") by discriminate.
  destruct (loadDatadogConfig_loaded env "api-key" "app-key" Fixtures.started
              eq_refl Hapi eq_refl Happ) as [Hresult _].
  exact (conj eq_refl (conj Hapi (conj eq_refl (conj Happ Hresult)))).
Defined.

(** ** [main] *)

Section MainFacts.
Variables (env : Auth.Env) (argv : Main.Argv) (apis : Tools.DatadogAPIs)
          (connect : Outcome unit) (w : World).

(** A server just created holds no tool. *)
Lemma new_server_holds_nothing (enabledDomains : list string) (at_ : World) :
  forall tool : string,
    In tool (Tools.enabled_tools enabledDomains) ->
    ~ In tool (map tool_name (server_tools (world_of (Main.new_McpServer at_)))).
Proof. intros tool _ []. Qed.

(** [main] once the options are parsed, path by path. *)
Lemma start_run :
  Main.start env argv apis connect w =
  match Auth.present (env "DD_API_KEY"), Auth.present (env "DD_APP_KEY") with
  | Some apiKey, Some appKey =>
      match parseDomains (Main.domains argv) with
      | inl error => Main.failed error (Main.configured env argv w apiKey appKey)
      | inr enabledDomains =>
          match connect with
          | Resolved _ =>
              (inr Main.Serving,
               Logger.logged "info" "Datadog MCP Server running on stdio transport"
                 [] (Main.registered env argv apis w apiKey appKey enabledDomains))
          | Rejected error =>
              Main.failed error
                (Main.registered env argv apis w apiKey appKey enabledDomains)
          end
      end
  | _, _ => Main.failed Auth.missing_credentials (Main.entered argv w)
  end.
Proof.
  unfold Main.start, Main.failed, Main.registered, Main.configured, Main.entered,
    Auth.loadDatadogConfig, Auth.configureDatadogClient.
  assert (Hprologue :
            forall k : unit -> M Main.Status,
              bind (if truthy (JsString (Main.logLevel argv))
                    then Main.set_level (Main.logLevel argv) else ret tt) k w =
              k tt (if truthy (JsString (Main.logLevel argv))
                    then world_of (Main.set_level (Main.logLevel argv) w) else w)).
  { intros k. now destruct (truthy (JsString (Main.logLevel argv))). }
  rewrite Hprologue.
  destruct (Auth.present (env "DD_API_KEY")) as [apiKey |],
           (Auth.present (env "DD_APP_KEY")) as [appKey |];
    try reflexivity.
  cbv [bind try_catch Logger.info Logger.error Logger.log ret Main.lift
       Auth.site].
  destruct (parseDomains (Main.domains argv)) as [error | enabledDomains];
    [reflexivity |].
  match goal with
  | |- context [Main.new_McpServer ?at_] =>
      pose proof (proj1 (registerTools_run enabledDomains apis
                           (world_of (Main.new_McpServer at_))
                           (new_server_holds_nothing enabledDomains at_)))
        as Hreturns
  end.
  cbv [Main.new_McpServer world_of snd] in *.
  unfold result_of in Hreturns.
  match goal with
  | |- context [Tools.registerTools enabledDomains apis ?at_] =>
      destruct (Tools.registerTools enabledDomains apis at_) as [result registered]
  end.
  cbn [fst] in Hreturns. subst result.
  unfold Main.settle. now destruct connect as [[] | error].
Qed.

Lemma start_returns :
  exists status : Main.Status,
    result_of (Main.start env argv apis connect w) = inr status.
Proof.
  rewrite start_run. unfold Main.failed.
  destruct (Auth.present (env "DD_API_KEY")), (Auth.present (env "DD_APP_KEY"));
    [destruct (parseDomains (Main.domains argv));
     [| destruct connect as [[] | error]] | | |];
    eexists; reflexivity.
Qed.

Lemma reached_logged (level message : string) (meta : list (string * JsValue))
    (at_ : World) :
  Main.reached argv w at_ ->
  Main.reached argv w (Logger.logged level message meta at_).
Proof.
  intros (Hout & (records & Herr) & Hcalls & Hlevel).
  unfold Main.reached. autorewrite with world.
  split; [exact Hout | split; [| exact (conj Hcalls Hlevel)]].
  rewrite stderr_logged, Herr, map_LogLine_if, <- app_assoc, <- map_app.
  now eexists.
Qed.

Lemma reached_entered : Main.reached argv w (Main.entered argv w).
Proof.
  unfold Main.entered. apply reached_logged. unfold Main.reached.
  destruct (truthy (JsString (Main.logLevel argv)));
    (split; [reflexivity | split; [| split; reflexivity]]);
    exists []; symmetry; apply app_nil_r.
Qed.

Lemma reached_configured (apiKey appKey : string) :
  Main.reached argv w (Main.configured env argv w apiKey appKey).
Proof.
  unfold Main.configured. cbv zeta.
  do 2 apply reached_logged. apply reached_entered.
Qed.

Lemma reached_registered (apiKey appKey : string) (enabledDomains : list string) :
  Main.reached argv w
    (Main.registered env argv apis w apiKey appKey enabledDomains).
Proof.
  unfold Main.registered.
  match goal with
  | |- Main.reached _ _ (world_of (Tools.registerTools _ _ ?at_)) =>
      assert (Hat : Main.reached argv w at_)
        by (pose proof
              (reached_logged "info" "Enabled domains"
                 [("domains", JsString (join ", " enabledDomains))] _
                 (reached_configured apiKey appKey)) as H;
            exact H);
      destruct Hat as (Hout & (records & Herr) & Hcalls & Hlevel);
      destruct (diagnostics_registerTools enabledDomains apis at_)
        as (Hout' & records' & Herr');
      destruct (registerTools_registers apis)
        as (? & ? & ? & ? & _ & _ & Hregisters);
      destruct (Hregisters enabledDomains at_) as (_ & _ & Hcalls' & Hlevel')
  end.
  unfold Main.reached.
  rewrite Hout', Herr', Hcalls', Hlevel', Herr, <- app_assoc, <- map_app.
  split; [exact Hout | split; [now eexists | exact (conj Hcalls Hlevel)]].
Qed.

Lemma start_reached :
  Main.reached argv w (world_of (Main.start env argv apis connect w)).
Proof.
  rewrite start_run. unfold Main.failed.
  destruct (Auth.present (env "DD_API_KEY")) as [apiKey |],
           (Auth.present (env "DD_APP_KEY")) as [appKey |];
    [destruct (parseDomains (Main.domains argv)) as [error | enabledDomains];
     [| destruct connect as [[] | error]] | | |];
    cbn [world_of snd]; apply reached_logged;
    first [ apply reached_registered | apply reached_configured
          | apply reached_entered ].
Qed.

Lemma server_tools_entered :
  server_tools (Main.entered argv w) = server_tools w.
Proof.
  unfold Main.entered. autorewrite with world.
  now destruct (truthy (JsString (Main.logLevel argv))).
Qed.

Lemma server_tools_configured (apiKey appKey : string) :
  server_tools (Main.configured env argv w apiKey appKey) = server_tools w.
Proof.
  unfold Main.configured. cbv zeta. autorewrite with world.
  apply server_tools_entered.
Qed.

Lemma server_tools_registered (apiKey appKey : string)
    (enabledDomains : list string) :
  map tool_name
    (server_tools (Main.registered env argv apis w apiKey appKey enabledDomains)) =
  Tools.enabled_tools enabledDomains.
Proof.
  unfold Main.registered.
  match goal with
  | |- context [Main.new_McpServer ?at_] =>
      destruct (registerTools_run enabledDomains apis
                  (world_of (Main.new_McpServer at_))
                  (new_server_holds_nothing enabledDomains at_))
        as (_ & new & Htools & Hnames)
  end.
  rewrite Htools. exact Hnames.
Qed.

(** With the options parsed, [main] and the statement that runs it do what
    [start] does: nothing is thrown out of [main]. *)
Lemma main_options :
  Main.main env (Resolved (Main.Options argv)) apis connect w =
  Main.start env argv apis connect w.
Proof. reflexivity. Qed.

Lemma run_options :
  Main.run env (Resolved (Main.Options argv)) apis connect w =
  Main.start env argv apis connect w.
Proof.
  unfold Main.run, try_catch. rewrite main_options.
  destruct start_returns as [status Hstatus]. unfold result_of in Hstatus.
  destruct (Main.start env argv apis connect w) as [[error | status'] w'];
    [discriminate Hstatus | reflexivity].
Qed.

End MainFacts.

(** X16.  The module ends in one of three ways: the server is serving, or
    the process has exited with code 0 or 1.  It exits with code 0 exactly
    when [yargs] has shown the help or the version; it is serving exactly
    when the options are parsed, both keys are set and not empty, every
    requested domain is valid and the connection to the transport
    succeeds. *)
Theorem main_exit_status
    (env : Auth.Env) (parse : Outcome Main.CommandLine)
    (apis : Tools.DatadogAPIs) (connect : Outcome unit) (w : World) :
  let result := result_of (Main.run env parse apis connect w) in
  (result = inr Main.Serving \/ result = inr (Main.Exited 0)
   \/ result = inr (Main.Exited 1))
  /\ (result = inr (Main.Exited 0) <->
      exists text : string, parse = Resolved (Main.Shown text))
  /\ (result = inr Main.Serving <->
      exists argv : Main.Argv,
        parse = Resolved (Main.Options argv)
        /\ (exists apiKey, env "DD_API_KEY" = Some apiKey /\ apiKey <> "")
        /\ (exists appKey, env "DD_APP_KEY" = Some appKey /\ appKey <> "")
        /\ (exists enabledDomains,
              parseDomains (Main.domains argv) = inr enabledDomains)
        /\ connect = Resolved tt).
Proof.
  cbv zeta.
  assert (Hset : forall value : option string,
             (exists s, value = Some s /\ s <> "") <->
             exists s, Auth.present value = Some s).
  { intros value. split.
    - intros (s & -> & Hs). exists s. now apply present_Some.
    - intros (s & Hs). exists s. destruct (present_inv _ _ Hs) as [-> Htruthy].
      split; [reflexivity |]. intros ->. discriminate Htruthy. }
  destruct parse as [[argv | text] | error].
  - rewrite run_options, start_run. unfold Main.failed.
    assert (Hoptions :
              forall P : Main.Argv -> Prop,
                (exists argv' : Main.Argv,
                    Resolved (Main.Options argv) = Resolved (Main.Options argv')
                    /\ P argv') <-> P argv).
    { intros P. split.
      - now intros (argv' & [= <-] & H).
      - intros H. now exists argv. }
    rewrite Hoptions, !Hset.
    destruct (Auth.present (env "DD_API_KEY")) as [apiKey |],
             (Auth.present (env "DD_APP_KEY")) as [appKey |];
      [destruct (parseDomains (Main.domains argv)) as [error | enabledDomains];
       [| destruct connect as [[] | error]] | | |];
      cbn [result_of fst];
      (split; [tauto |]);
      (split;
       [ split; [discriminate | intros (text & Htext); discriminate Htext]
       | split;
         [ try discriminate; intros _; repeat split; eauto
         | try reflexivity;
           intros ((? & ?) & (? & ?) & (? & ?) & ?); discriminate ] ]).
  - split; [right; left; reflexivity |].
    split; [split; [intros _; now exists text | reflexivity] |].
    split; [discriminate | intros (argv & Hargv & _); discriminate Hargv].
  - split; [right; right; reflexivity |].
    split; [split; [discriminate | intros (text & Htext); discriminate Htext] |].
    split; [discriminate | intros (argv & Hargv & _); discriminate Hargv].
Qed.

(** X17.  When the options are parsed and a key is missing or a requested
    domain is invalid, [main] exits with code 1 and has registered no tool:
    the failure comes before the server is created. *)
Theorem main_failed_start_registers_nothing
    (env : Auth.Env) (argv : Main.Argv) (apis : Tools.DatadogAPIs)
    (connect : Outcome unit) (w : World) :
  Auth.present (env "DD_API_KEY") = None
  \/ Auth.present (env "DD_APP_KEY") = None
  \/ (exists error, parseDomains (Main.domains argv) = inl error) ->
  let outcome := Main.main env (Resolved (Main.Options argv)) apis connect w in
  result_of outcome = inr (Main.Exited 1)
  /\ server_tools (world_of outcome) = server_tools w.
Proof.
  intros Hfailed. cbv zeta. rewrite main_options, start_run. unfold Main.failed.
  destruct (Auth.present (env "DD_API_KEY")) as [apiKey |],
           (Auth.present (env "DD_APP_KEY")) as [appKey |];
    [destruct (parseDomains (Main.domains argv)) as [error | enabledDomains] | | |];
    cbn [result_of world_of fst snd]; autorewrite with world;
    try (split; [reflexivity |];
         first [apply server_tools_configured | apply server_tools_entered]).
  destruct Hfailed as [H | [H | [error H]]]; discriminate H.
Qed.

Lemma main_failed_start_registers_nothing_witness :
  let outcome :=
    Main.main Startup.env_without_keys (Resolved (Main.Options Startup.default_argv))
      Startup.apis (Resolved tt) Fixtures.started in
  Auth.present (Startup.env_without_keys "DD_API_KEY") = None
  /\ result_of outcome = inr (Main.Exited 1)
  /\ server_tools (world_of outcome) = server_tools Fixtures.started.
Proof.
  exact (conj eq_refl
           (main_failed_start_registers_nothing Startup.env_without_keys
              Startup.default_argv Startup.apis (Resolved tt) Fixtures.started
              (or_introl eq_refl))).
Defined.

(** X18.  With both keys present and valid domains, the server [main] has
    created holds the tools of the enabled domains and no other, whatever
    was registered before and whether or not the connection succeeds. *)
Theorem main_registers_enabled_tools
    (env : Auth.Env) (argv : Main.Argv) (apis : Tools.DatadogAPIs)
    (connect : Outcome unit) (w : World)
    (apiKey appKey : string) (enabledDomains : list string) :
  Auth.present (env "DD_API_KEY") = Some apiKey ->
  Auth.present (env "DD_APP_KEY") = Some appKey ->
  parseDomains (Main.domains argv) = inr enabledDomains ->
  map tool_name
    (server_tools
       (world_of
          (Main.main env (Resolved (Main.Options argv)) apis connect w))) =
  (if includes enabledDomains "metrics" then ["query_metrics"] else [])
  ++ (if includes enabledDomains "logs" then ["search_logs"] else [])
  ++ (if includes enabledDomains "monitors"
      then ["get_monitor"; "list_monitors"] else [])
  ++ (if includes enabledDomains "traces" then ["search_spans"] else []).
Proof.
  intros Hapi Happ Hdomains.
  rewrite main_options, start_run, Hapi, Happ, Hdomains.
  unfold Main.failed.
  destruct connect as [[] | error]; cbn [world_of snd]; autorewrite with world;
    apply server_tools_registered.
Qed.

Lemma main_registers_enabled_tools_witness :
  Auth.present (Startup.env_with_keys "DD_API_KEY") = Some "api-key"
  /\ Auth.present (Startup.env_with_keys "DD_APP_KEY") = Some "app-key"
  /\ parseDomains (Main.domains Startup.logs_only) = inr ["logs"]
  /\ map tool_name
       (server_tools
          (world_of
             (Main.main Startup.env_with_keys
                (Resolved (Main.Options Startup.logs_only)) Startup.apis
                (Rejected (ErrorInstance "Connection closed")) Fixtures.started))) =
     ["search_logs"].
Proof.
  exact (conj eq_refl (conj eq_refl (conj eq_refl
           (main_registers_enabled_tools Startup.env_with_keys Startup.logs_only
              Startup.apis (Rejected (ErrorInstance "Connection closed"))
              Fixtures.started "api-key" "app-key" ["logs"]
              eq_refl eq_refl eq_refl)))).
Defined.

(** X19.  The module writes to standard output only what [yargs] shows for
    [--help] or [--version], and nothing once the options are parsed;
    whatever happens, it adds only log lines to standard error and calls no
    Datadog API. *)
Theorem main_writes_only_diagnostics
    (env : Auth.Env) (parse : Outcome Main.CommandLine)
    (apis : Tools.DatadogAPIs) (connect : Outcome unit) (w : World) :
  let w' := world_of (Main.run env parse apis connect w) in
  stdout w' =
  stdout w ++
  match parse with
  | Resolved (Main.Shown text) => [Text text]
  | _ => []
  end
  /\ (exists records : list LogRecord,
        stderr w' = stderr w ++ map LogLine records)
  /\ api_calls w' = api_calls w.
Proof.
  cbv zeta. destruct parse as [[argv | text] | error].
  - rewrite run_options, app_nil_r.
    destruct (start_reached env argv apis connect w) as (Hout & Herr & Hcalls & _).
    exact (conj Hout (conj Herr Hcalls)).
  - split; [reflexivity | split; [| reflexivity]].
    exists []. symmetry. apply app_nil_r.
  - unfold Main.run, Main.main, Main.settle, try_catch, bind, Logger.error,
      Logger.log, ret. cbn [world_of snd].
    autorewrite with world. rewrite stderr_logged, map_LogLine_if, app_nil_r.
    split; [reflexivity | split; [now eexists | reflexivity]].
Qed.

(** X20.  After [main] the log level is the one of the command line, or the
    level the logger had when the option is empty; nothing later in the
    start changes it. *)
Theorem main_log_level
    (env : Auth.Env) (argv : Main.Argv) (apis : Tools.DatadogAPIs)
    (connect : Outcome unit) (w : World) :
  logger_level
    (world_of (Main.main env (Resolved (Main.Options argv)) apis connect w)) =
  (if String.eqb (Main.logLevel argv) "" then logger_level w
   else Main.logLevel argv).
Proof.
  rewrite main_options.
  destruct (start_reached env argv apis connect w) as (_ & _ & _ & Hlevel).
  rewrite Hlevel. cbn [truthy].
  now destruct (String.eqb (Main.logLevel argv) "").
Qed.

(** X21.  When the start fails and the logger lets the level ['error']
    through, the last line on standard error is the record ['Failed to start
    Datadog MCP Server'] with the message of the failure: the missing
    credentials, the invalid domain, or the error of the connection. *)
Theorem main_logs_failure
    (env : Auth.Env) (argv : Main.Argv) (apis : Tools.DatadogAPIs)
    (connect : Outcome unit) (w : World) :
  let w' :=
    world_of (Main.main env (Resolved (Main.Options argv)) apis connect w) in
  let reported (error : Thrown) :=
    exists earlier : list LogRecord,
      stderr w' =
      stderr w ++ map LogLine earlier
      ++ [LogLine {| log_level := "error";
                     log_message := "Failed to start Datadog MCP Server";
                     log_meta := [("error", JsString (Main.describe error))] |}] in
  Logger.level_enabled (logger_level w') "error" = true ->
  (Auth.present (env "DD_API_KEY") = None \/ Auth.present (env "DD_APP_KEY") = None ->
   reported Auth.missing_credentials)
  /\ (forall (apiKey appKey : string) (error : Thrown),
         Auth.present (env "DD_API_KEY") = Some apiKey ->
         Auth.present (env "DD_APP_KEY") = Some appKey ->
         parseDomains (Main.domains argv) = inl error ->
         reported error)
  /\ (forall (apiKey appKey : string) (enabledDomains : list string)
            (error : Thrown),
         Auth.present (env "DD_API_KEY") = Some apiKey ->
         Auth.present (env "DD_APP_KEY") = Some appKey ->
         parseDomains (Main.domains argv) = inr enabledDomains ->
         connect = Rejected error ->
         reported error).
Proof.
  cbv zeta. rewrite main_options.
  pose proof (start_reached env argv apis connect w) as (_ & _ & _ & Hlevel).
  rewrite Hlevel. clear Hlevel. intros Henabled.
  assert (Hfailed :
            forall (error : Thrown) (at_ : World),
              Main.reached argv w at_ ->
              exists earlier : list LogRecord,
                stderr (world_of (Main.failed error at_)) =
                stderr w ++ map LogLine earlier
                ++ [LogLine {| log_level := "error";
                               log_message := "Failed to start Datadog MCP Server";
                               log_meta :=
                                 [("error", JsString (Main.describe error))] |}]).
  { intros error at_ (_ & (records & Herr) & _ & Hlevel).
    unfold Main.failed. cbn [world_of snd].
    rewrite stderr_logged, Hlevel, Henabled, Herr, <- app_assoc.
    now exists records. }
  rewrite start_run.
  split; [| split].
  - intros Hmissing.
    destruct (Auth.present (env "DD_API_KEY")) as [apiKey |],
             (Auth.present (env "DD_APP_KEY")) as [appKey |];
      try (apply Hfailed, reached_entered).
    destruct Hmissing as [H | H]; discriminate H.
  - intros apiKey appKey error -> -> ->.
    apply Hfailed, reached_configured.
  - intros apiKey appKey enabledDomains error -> -> -> ->.
    apply Hfailed, reached_registered.
Qed.

Lemma main_logs_failure_witness :
  let w' :=
    world_of
      (Main.main Startup.env_with_keys
         (Resolved (Main.Options Startup.unknown_domain)) Startup.apis
         (Resolved tt) Fixtures.started) in
  Logger.level_enabled (logger_level w') "error" = true
  /\ Auth.present (Startup.env_with_keys "DD_API_KEY") = Some "api-key"
  /\ Auth.present (Startup.env_with_keys "DD_APP_KEY") = Some "app-key"
  /\ exists (error : Thrown) (earlier : list LogRecord),
       parseDomains (Main.domains Startup.unknown_domain) = inl error
       /\ stderr w' =
          stderr Fixtures.started ++ map LogLine earlier
          ++ [LogLine {| log_level := "error";
                         log_message := "Failed to start Datadog MCP Server";
                         log_meta := [("error", JsString (Main.describe error))] |}].
Proof.
  intros w'.
  assert (Henabled : Logger.level_enabled (logger_level w') "error" = true)
    by reflexivity.
  destruct (main_logs_failure Startup.env_with_keys Startup.unknown_domain
              Startup.apis (Resolved tt) Fixtures.started Henabled)
    as (_ & Hdomain & _).
  split; [exact Henabled | split; [reflexivity | split; [reflexivity |]]].
  destruct (parseDomains (Main.domains Startup.unknown_domain)) as [error | ?] eqn:Hp;
    [| discriminate Hp].
  exists error.
  destruct (Hdomain "api-key" "app-key" error eq_refl eq_refl eq_refl)
    as [earlier Herr].
  exists earlier. exact (conj eq_refl Herr).
Defined.
